(** * Pastel Cutter: the territory-capture simulation of [GameCanvas.tsx]

    A shallow embedding of the simulation core of the game (grid, flood-fill
    region resolution, player and enemy steps, power-ups, death handling), of
    the session shell of [App.tsx] that mounts it, of its table of high
    scores, and of the seed that [generateGameAsset] derives from a prompt.

    Conventions of the embedding.
    - JavaScript numbers that hold grid indices, lives, scores and timestamps
      are integers ([Z]); positions, velocities and the timer are modelled as
      exact rationals ([Q]), so the rounding of IEEE doubles is abstracted
      (the score of a resolution, where the rounding decides the result, is
      also embedded on binary64 floats, [addedScore64]); the result of an update of a position or of the timer is stored in
      lowest terms ([Qred]), so that a value has one representation however
      it was computed.
    - [Math.floor] is [Qfloor]; [Math.round v] is [Qfloor (v + 1/2)];
      [Math.hypot dx dy < r] is compared on squares.
    - [number[][]] is a list of rows.  Reading [g[y]?.[x]] outside the array
      gives [undefined] ([None]).  A read [g[y][x]] whose row index is not
      guarded by the source raises a [TypeError] when the row is missing; the
      functions containing such a read return [option], [None] meaning that
      no normal result is produced.
    - [Math.random()] and [Date.now()] are inputs of the step they occur in;
      [Date.now()] has one value within a frame.  The restarts of the
      game-loop effect between frames, which only re-read [lastTime], are not
      modelled. *)

From Stdlib Require Import ZArith QArith Qround Lia Lqa Floats.
From stdpp Require Import base option list strings gmap sorting.

Close Scope Q_scope.
Open Scope Z_scope.

(** ** Grid *)

(* Logic Constants *)
Definition GRID_WIDTH : Z := 64.
Definition GRID_HEIGHT : Z := 48.

(** 0: unowned (Void), 1: owned/safe (Claimed), 2: trail; 3 is the transient
    enemy-zone mark used inside [resolveFill]. *)
Abbreviation Grid := (list (list Z)).

Record Point : Type := mkPoint { pt_x : Z; pt_y : Z }.

#[export] Instance Point_eq_dec : EqDecision Point.
Proof. solve_decision. Defined.

(** [g[y]?.[x]]: [None] is JavaScript's [undefined]. *)
Definition cellAt (g : Grid) (x y : Z) : option Z :=
  if (0 <=? x) && (0 <=? y)
  then row ← g !! Z.to_nat y; row !! Z.to_nat x
  else None.

(** [g[y][x] = v].  Every write of the source is to a cell inside the
    [GRID_WIDTH] x [GRID_HEIGHT] rectangle of a grid of that size. *)
Definition setCell (g : Grid) (x y v : Z) : Grid :=
  if (0 <=? x) && (0 <=? y)
  then alter (λ row, <[Z.to_nat x := v]> row) (Z.to_nat y) g
  else g.

(** [nx >= 0 && nx < GRID_WIDTH && ny >= 0 && ny < GRID_HEIGHT] *)
Definition inGrid (x y : Z) : bool :=
  (0 <=? x) && (x <? GRID_WIDTH) && (0 <=? y) && (y <? GRID_HEIGHT).

(** The shape every grid built by [initLevel] has. *)
Definition wf_grid (g : Grid) : Prop :=
  length g = Z.to_nat GRID_HEIGHT ∧
  Forall (λ row, length row = Z.to_nat GRID_WIDTH) g.

(** [for (y = 0; y < GRID_HEIGHT; y++) for (x = 0; x < GRID_WIDTH; x++) body] *)
Definition forCells {A : Type} (body : Z → Z → A → A) (a : A) : A :=
  foldl (λ a y, foldl (λ a x, body x y a) a (seqZ 0 GRID_WIDTH))
        a (seqZ 0 GRID_HEIGHT).

(** The cells in the order the double loop visits them. *)
Definition allCells : list Point :=
  y ← seqZ 0 GRID_HEIGHT; (λ x, mkPoint x y) <$> seqZ 0 GRID_WIDTH.

(** The count of owned cells, as recomputed by the scans of [update]. *)
Definition countOwned (g : Grid) : Z :=
  forCells (λ x y owned,
              if bool_decide (cellAt g x y = Some 1) then owned + 1 else owned) 0.

(** *** Flood fill *)

Definition dirs : list (Z * Z) := [(0, 1); (0, -1); (1, 0); (-1, 0)].

(** One iteration of the [for (const d of dirs)] loop.  The JavaScript array
    [queue] is used as a stack ([push]/[pop] at its end); the list keeps the
    end of the array at its head. *)
Definition visit (targetVal replaceVal : Z) (p : Point)
    (acc : Grid * list Point) (d : Z * Z) : Grid * list Point :=
  let nx := pt_x p + d.1 in
  let ny := pt_y p + d.2 in
  if inGrid nx ny && bool_decide (cellAt acc.1 nx ny = Some targetVal)
  then (setCell acc.1 nx ny replaceVal, mkPoint nx ny :: acc.2)
  else acc.

(** The [while (queue.length > 0)] loop; [None] when the fuel is exhausted
    before the queue is empty. *)
Fixpoint floodLoop (fuel : nat) (targetVal replaceVal : Z)
    (grid : Grid) (queue : list Point) (count : Z) : option (Grid * Z) :=
  match queue with
  | [] => Some (grid, count)
  | p :: rest =>
      match fuel with
      | O => None
      | S fuel' =>
          let acc := foldl (visit targetVal replaceVal p) (grid, rest) dirs in
          floodLoop fuel' targetVal replaceVal acc.1 acc.2 (count + 1)
      end
  end.

(** [floodFill(grid, startX, startY, targetVal, replaceVal)]: the relabelled
    grid (the source mutates its argument) and the returned count.  The body
    of the loop runs once per relabelled cell, so the number of cells of the
    grid is enough fuel (lemma [floodFill_spec]). *)
Definition floodFill (grid : Grid) (startX startY targetVal replaceVal : Z)
    : option (Grid * Z) :=
  if negb (inGrid startX startY) then Some (grid, 0)
  else if negb (bool_decide (cellAt grid startX startY = Some targetVal))
  then Some (grid, 0)
  else floodLoop (length (concat grid)) targetVal replaceVal
         (setCell grid startX startY replaceVal) [mkPoint startX startY] 0.

(** ** Entities and session state *)

Definition PLAYER_SPEED : Q := 0.3.
Definition ENEMY_SPEED : Q := 0.2.
Definition BOSS_SPEED : Q := 0.15.
Definition WIN_THRESHOLD : Q := 0.80.
Definition LEVEL_TIME : Q := 90.

Definition Qltb (a b : Q) : bool := negb (Qle_bool b a).

(** [Math.round] *)
Definition Math_round (v : Q) : Z := Qfloor (v + 0.5).

(** [Math.hypot(dx, dy) < r] *)
Definition hypot_lt (dx dy r : Q) : bool :=
  Qltb 0 r && Qltb (dx * dx + dy * dy) (r * r).

Inductive GameState : Type :=
  MENU | GENERATING_ASSETS | PLAYING | GAME_OVER | VICTORY.

Inductive EnemyType : Type := minion | boss.

Record Enemy : Type := mkEnemy {
  e_x : Q; e_y : Q; e_vx : Q; e_vy : Q; e_type : EnemyType; e_radius : Q }.

Inductive PowerUpType : Type := FREEZE | INVINCIBLE | EXTRA_LIFE | TIME_BONUS.

Record PowerUp : Type := mkPowerUp {
  pu_id : Q; pu_x : Z; pu_y : Z; pu_type : PowerUpType }.

Record Player : Type := mkPlayer { pl_x : Q; pl_y : Q; pl_dir : Point }.

(** The calls made to [audioService]. *)
Inductive Sound : Type := PlayStart | PlayDraw | PlayClaim | PlayDie | PlayWin.

#[export] Instance EnemyType_eq_dec : EqDecision EnemyType.
Proof. solve_decision. Defined.
#[export] Instance GameState_eq_dec : EqDecision GameState.
Proof. solve_decision. Defined.
#[export] Instance Sound_eq_dec : EqDecision Sound.
Proof. solve_decision. Defined.
#[export] Instance PowerUpType_eq_dec : EqDecision PowerUpType.
Proof. solve_decision. Defined.

(** The state of a session: the React state of [App] ([gameState], [level],
    [score]), the refs and state of the mounted [GameCanvas], the variable
    [lastTime] of its game-loop effect, and the sounds requested so far (most
    recent first).  [GameCanvas] is rendered only while [gameState] is
    [PLAYING]; its fields are created anew each time it is mounted. *)
Record World : Type := mkWorld {
  gameState : GameState;
  level : Z;
  score : Z;
  grid : Grid;
  player : Player;
  enemies : list Enemy;
  powerUps : list PowerUp;
  lives : Z;
  timeLeft : Q;
  frozen : Z;
  invincible : Z;
  isCuttingMode : bool;
  percent : Q;
  lastTime : Z;
  sounds : list Sound
}.

Definition set_gameState (v : GameState) (w : World) : World :=
  mkWorld v (level w) (score w) (grid w) (player w) (enemies w) (powerUps w)
    (lives w) (timeLeft w) (frozen w) (invincible w) (isCuttingMode w)
    (percent w) (lastTime w) (sounds w).
Definition set_level (v : Z) (w : World) : World :=
  mkWorld (gameState w) v (score w) (grid w) (player w) (enemies w) (powerUps w)
    (lives w) (timeLeft w) (frozen w) (invincible w) (isCuttingMode w)
    (percent w) (lastTime w) (sounds w).
Definition set_score (v : Z) (w : World) : World :=
  mkWorld (gameState w) (level w) v (grid w) (player w) (enemies w) (powerUps w)
    (lives w) (timeLeft w) (frozen w) (invincible w) (isCuttingMode w)
    (percent w) (lastTime w) (sounds w).
Definition set_grid (v : Grid) (w : World) : World :=
  mkWorld (gameState w) (level w) (score w) v (player w) (enemies w) (powerUps w)
    (lives w) (timeLeft w) (frozen w) (invincible w) (isCuttingMode w)
    (percent w) (lastTime w) (sounds w).
Definition set_player (v : Player) (w : World) : World :=
  mkWorld (gameState w) (level w) (score w) (grid w) v (enemies w) (powerUps w)
    (lives w) (timeLeft w) (frozen w) (invincible w) (isCuttingMode w)
    (percent w) (lastTime w) (sounds w).
Definition set_enemies (v : list Enemy) (w : World) : World :=
  mkWorld (gameState w) (level w) (score w) (grid w) (player w) v (powerUps w)
    (lives w) (timeLeft w) (frozen w) (invincible w) (isCuttingMode w)
    (percent w) (lastTime w) (sounds w).
Definition set_powerUps (v : list PowerUp) (w : World) : World :=
  mkWorld (gameState w) (level w) (score w) (grid w) (player w) (enemies w) v
    (lives w) (timeLeft w) (frozen w) (invincible w) (isCuttingMode w)
    (percent w) (lastTime w) (sounds w).
Definition set_lives (v : Z) (w : World) : World :=
  mkWorld (gameState w) (level w) (score w) (grid w) (player w) (enemies w)
    (powerUps w) v (timeLeft w) (frozen w) (invincible w) (isCuttingMode w)
    (percent w) (lastTime w) (sounds w).
Definition set_timeLeft (v : Q) (w : World) : World :=
  mkWorld (gameState w) (level w) (score w) (grid w) (player w) (enemies w)
    (powerUps w) (lives w) v (frozen w) (invincible w) (isCuttingMode w)
    (percent w) (lastTime w) (sounds w).
Definition set_frozen (v : Z) (w : World) : World :=
  mkWorld (gameState w) (level w) (score w) (grid w) (player w) (enemies w)
    (powerUps w) (lives w) (timeLeft w) v (invincible w) (isCuttingMode w)
    (percent w) (lastTime w) (sounds w).
Definition set_invincible (v : Z) (w : World) : World :=
  mkWorld (gameState w) (level w) (score w) (grid w) (player w) (enemies w)
    (powerUps w) (lives w) (timeLeft w) (frozen w) v (isCuttingMode w)
    (percent w) (lastTime w) (sounds w).
Definition set_isCuttingMode (v : bool) (w : World) : World :=
  mkWorld (gameState w) (level w) (score w) (grid w) (player w) (enemies w)
    (powerUps w) (lives w) (timeLeft w) (frozen w) (invincible w) v
    (percent w) (lastTime w) (sounds w).
Definition set_percent (v : Q) (w : World) : World :=
  mkWorld (gameState w) (level w) (score w) (grid w) (player w) (enemies w)
    (powerUps w) (lives w) (timeLeft w) (frozen w) (invincible w)
    (isCuttingMode w) v (lastTime w) (sounds w).
Definition set_lastTime (v : Z) (w : World) : World :=
  mkWorld (gameState w) (level w) (score w) (grid w) (player w) (enemies w)
    (powerUps w) (lives w) (timeLeft w) (frozen w) (invincible w)
    (isCuttingMode w) (percent w) v (sounds w).
Definition play (v : Sound) (w : World) : World :=
  mkWorld (gameState w) (level w) (score w) (grid w) (player w) (enemies w)
    (powerUps w) (lives w) (timeLeft w) (frozen w) (invincible w)
    (isCuttingMode w) (percent w) (lastTime w) (v :: sounds w).

(** What a frame reads from outside: [Date.now()], the keys held down, and
    the successive results of [Math.random()] (each in [0, 1)). *)
Record Input : Type := mkInput {
  now : Z;
  keysPressed : gset string;
  random : nat → Q
}.

(** ** The simulation of [GameCanvas] *)

(** [handleGameOver] of [App], passed to [GameCanvas] as [onGameOver]; the
    record of high scores it also updates on a loss is not modelled. *)
Definition handleGameOver (win : bool) (w : World) : World :=
  set_gameState (if win then VICTORY else GAME_OVER) w.

(** The grid of [initLevel]: border cells owned, interior unowned. *)
Definition newGrid : Grid :=
  forCells (λ x y g,
      if (x =? 0) || (x =? GRID_WIDTH - 1) || (y =? 0) || (y =? GRID_HEIGHT - 1)
      then setCell g x y 1 else g)
    (replicate (Z.to_nat GRID_HEIGHT) (replicate (Z.to_nat GRID_WIDTH) 0)).

(** Where [initLevel] and [handleDeath] put the player. *)
Definition spawnPlayer : Player :=
  mkPlayer (inject_Z GRID_WIDTH / 2)%Q 0%Q (mkPoint 0 0).

Definition initBoss (rnd : nat → Q) : Enemy :=
  mkEnemy (inject_Z GRID_WIDTH / 2)%Q (inject_Z GRID_HEIGHT / 2)%Q
    (if Qltb 0.5 (rnd 0%nat) then BOSS_SPEED else - BOSS_SPEED)%Q
    (if Qltb 0.5 (rnd 1%nat) then BOSS_SPEED else - BOSS_SPEED)%Q
    boss 3.5%Q.

Definition initMinion (rnd : nat → Q) (i : nat) : Enemy :=
  mkEnemy (rnd (2 + 4 * i)%nat * inject_Z (GRID_WIDTH - 4) + 2)%Q
    (rnd (3 + 4 * i)%nat * inject_Z (GRID_HEIGHT - 4) + 2)%Q
    (if Qltb 0.5 (rnd (4 + 4 * i)%nat) then ENEMY_SPEED else - ENEMY_SPEED)%Q
    (if Qltb 0.5 (rnd (5 + 4 * i)%nat) then ENEMY_SPEED else - ENEMY_SPEED)%Q
    minion 1.2%Q.

Definition initLevel (rnd : nat → Q) (w : World) : World :=
  let w := set_grid newGrid w in
  let w := set_player spawnPlayer w in
  let w := set_isCuttingMode false w in
  let w := set_invincible 0 w in
  let w := set_frozen 0 w in
  let minionCount := 3 + level w in
  let w := set_enemies
             (initBoss rnd :: (initMinion rnd <$> seq 0 (Z.to_nat minionCount))) w in
  let w := set_powerUps [] w in
  let w := set_timeLeft LEVEL_TIME w in
  set_percent 0%Q w.

(** [GameCanvas] is mounted when [gameState] becomes [PLAYING]: its refs and
    state take their initial values, the effect on [gameState] runs
    [initLevel(); setLives(3); livesRef.current = 3], and the game-loop effect
    reads [lastTime = Date.now()]. *)
Definition mountGameCanvas (rnd : nat → Q) (t : Z) (w : World) : World :=
  let fresh :=
    mkWorld (gameState w) (level w) (score w) [] (mkPlayer 0%Q 0%Q (mkPoint 0 0))
      [] [] 3 LEVEL_TIME 0 0 false 0%Q t (sounds w) in
  set_lives 3 (initLevel rnd fresh).

Definition spawnPowerUp (i : Input) (w : World) : World :=
  if Qltb 0.005 (random i 0%nat) then w
  else if (2 <? Z.of_nat (length (powerUps w))) then w
  else
    let typeProb := random i 1%nat in
    let type :=
      if Qltb typeProb 0.25 then FREEZE
      else if Qltb typeProb 0.5 then INVINCIBLE
      else if Qltb typeProb 0.75 then EXTRA_LIFE
      else TIME_BONUS in
    let px := Qfloor (random i 2%nat * inject_Z (GRID_WIDTH - 2)) + 1 in
    let py := Qfloor (random i 3%nat * inject_Z (GRID_HEIGHT - 2)) + 1 in
    if bool_decide (cellAt (grid w) px py = Some 0)
    then set_powerUps
           (powerUps w ++ [mkPowerUp (inject_Z (now i) + random i 4%nat)%Q px py type]) w
    else w.

Definition applyPowerUp (t : Z) (type : PowerUpType) (w : World) : World :=
  let w := play PlayClaim w in
  match type with
  | FREEZE => set_frozen (t + 5000) w
  | INVINCIBLE => set_invincible (t + 7000) w
  | EXTRA_LIFE => set_lives (lives w + 1) w
  | TIME_BONUS => set_timeLeft (Qred (timeLeft w + 30)) w
  end.

(** The scan of [handleDeath] that clears the trail. *)
Definition clearTrail (g : Grid) : Grid :=
  forCells (λ x y g,
      if bool_decide (cellAt g x y = Some 2) then setCell g x y 0 else g) g.

Definition handleDeath (w : World) : World :=
  let w := play PlayDie w in
  let w := set_lives (lives w - 1) w in
  let w := set_grid (clearTrail (grid w)) w in
  let w := set_player spawnPlayer w in
  let w := set_isCuttingMode false w in
  if lives w <=? 0 then handleGameOver false w else w.

(** The seed of the fill: the Boss's cell, or the first unowned neighbour in
    the order of the source when that cell is not unowned. *)
Definition fillSeed (tempGrid : Grid) (startX startY : Z) : Z * Z :=
  if negb (bool_decide (cellAt tempGrid startX startY = Some 0))
  then
    match find (λ n : Z * Z,
                  bool_decide (cellAt tempGrid (startX + n.1) (startY + n.2) = Some 0))
               [(0, 1); (0, -1); (1, 0); (-1, 0)] with
    | Some n => (startX + n.1, startY + n.2)
    | None => (startX, startY)
    end
  else (startX, startY).

(** The scan of [resolveFill] that commits every cell still 0 in [tempGrid]:
    the new grid, [capturedCount] and [claimedPoints]. *)
Definition captureRest (tempGrid g : Grid) : Grid * Z * list Point :=
  forCells (λ x y '(g, capturedCount, claimedPoints),
      if bool_decide (cellAt tempGrid x y = Some 0)
      then (setCell g x y 1, capturedCount + 1, claimedPoints ++ [mkPoint x y])
      else (g, capturedCount, claimedPoints))
    (g, 0, []).

(** [powerUpsRef.current.filter(p => ...)], whose callback applies the
    power-ups it drops.  [g[p.y][p.x]] is read without a guard. *)
Fixpoint collectPowerUps (t : Z) (ps : list PowerUp) (w : World)
    : option (list PowerUp * World) :=
  match ps with
  | [] => Some ([], w)
  | p :: ps' =>
      if (0 <=? pu_y p) && bool_decide (is_Some (grid w !! Z.to_nat (pu_y p)))
      then
        if bool_decide (cellAt (grid w) (pu_x p) (pu_y p) = Some 1)
        then collectPowerUps t ps' (applyPowerUp t (pu_type p) w)
        else '(kept, w') ← collectPowerUps t ps' w; Some (p :: kept, w')
      else None
  end.

Section Simulation.

(** [Math.pow], which the language leaves implementation-approximated. *)
Variable Math_pow : Q → Q → Q.

(** The score added for [capturedCount] cells at [currentPercent], in exact
    arithmetic; up to the threshold, where the multiplier is 1, this is what
    the doubles of the source give for a count of cells ([addedScore64] has
    the doubles). *)
Definition addedScore (capturedCount : Z) (currentPercent : Q) : Z :=
  let multiplier :=
    if Qltb 0.8 currentPercent
    then Math_pow 4 ((currentPercent - 0.8) * 10)%Q
    else 1%Q in
  Qfloor (inject_Z capturedCount * 10 * multiplier).

Definition resolveFill (t : Z) (currentPercent : Q) (w : World) : option World :=
  match find (λ e, bool_decide (e_type e = boss)) (enemies w) with
  | None => Some w
  | Some b =>
      let tempGrid := grid w in
      let startX := Qfloor (e_x b) in
      let startY := Qfloor (e_y b) in
      if (0 <=? startY) && bool_decide (is_Some (tempGrid !! Z.to_nat startY))
      then
        let start := fillSeed tempGrid startX startY in
        (* Mark the "Enemy Zone" as 3 *)
        filled ← floodFill tempGrid start.1 start.2 0 3;
        (* Convert everything that is still 0 (isolated from boss) to 1 *)
        let '(g, capturedCount, claimedPoints) := captureRest filled.1 (grid w) in
        let w := set_grid g w in
        (* Check for powerups in claimed area *)
        '(kept, w) ← collectPowerUps t (powerUps w) w;
        let w := set_powerUps kept w in
        if 0 <? capturedCount
        then
          let w := play PlayClaim w in
          Some (set_score (score w + addedScore capturedCount currentPercent) w)
        else Some w
      else None
  end.

(** The scan of [update] that turns the trail into owned cells. *)
Definition claimTrail (g : Grid) : Grid * bool :=
  forCells (λ x y '(g, trailExists),
      if bool_decide (cellAt g x y = Some 2)
      then (setCell g x y 1, true) else (g, trailExists))
    (g, false).

(** [dx], [dy] of "1. Handle Input". *)
Definition inputDir (i : Input) : Z * Z :=
  if bool_decide ("ArrowUp" ∈ keysPressed i) then (0, -1)
  else if bool_decide ("ArrowDown" ∈ keysPressed i) then (0, 1)
  else if bool_decide ("ArrowLeft" ∈ keysPressed i) then (-1, 0)
  else if bool_decide ("ArrowRight" ∈ keysPressed i) then (1, 0)
  else (0, 0).

(** "1. Handle Input" of [update]: the player's step. *)
Definition movePlayer (i : Input) (w : World) : option World :=
  let '(dx, dy) := inputDir i in
  let moving := negb (dx =? 0) || negb (dy =? 0) in
  let w := if moving
           then set_player (mkPlayer (pl_x (player w)) (pl_y (player w)) (mkPoint dx dy)) w
           else w in
  let currentGx := Math_round (pl_x (player w)) in
  let currentGy := Math_round (pl_y (player w)) in
  let isCurrentlyDrawing :=
    bool_decide (cellAt (grid w) currentGx currentGy = Some 2) in
  if moving then
    let nextX := Qred (pl_x (player w) + inject_Z dx * PLAYER_SPEED) in
    let nextY := Qred (pl_y (player w) + inject_Z dy * PLAYER_SPEED) in
    if Qle_bool 0 nextX && Qle_bool nextX (inject_Z (GRID_WIDTH - 1))
       && Qle_bool 0 nextY && Qle_bool nextY (inject_Z (GRID_HEIGHT - 1))
    then
      let gx := Math_round nextX in
      let gy := Math_round nextY in
      let isNextSafe := bool_decide (cellAt (grid w) gx gy = Some 1) in
      if isNextSafe then
        let w := set_player (mkPlayer nextX nextY (pl_dir (player w))) w in
        if isCurrentlyDrawing then
          (* Finished Cut *)
          let '(g, trailExists) := claimTrail (grid w) in
          let w := set_grid g w in
          if trailExists then
            (* Calculate percent BEFORE resolve to use in scoring *)
            let owned := countOwned (grid w) in
            let p := (inject_Z owned / inject_Z (GRID_WIDTH * GRID_HEIGHT))%Q in
            resolveFill (now i) p w
          else Some w
        else Some w
      else
        if isCuttingMode w || isCurrentlyDrawing then
          let w := set_player (mkPlayer nextX nextY (pl_dir (player w))) w in
          let w := set_grid (setCell (grid w) gx gy 2) w in (* Leave trail *)
          Some (play PlayDraw w)
        else Some w
    else Some w
  else Some w.

(** [checkCollision] of the enemy step. *)
Definition checkCollision (g : Grid) (x y : Q) : bool :=
  let gx := Qfloor x in
  let gy := Qfloor y in
  if negb (inGrid gx gy) then true
  else bool_decide (cellAt g gx gy = Some 1).

(** The enemy after [enemy.x += enemy.vx; enemy.y += enemy.vy] and the two
    bounce tests. *)
Definition moveEnemy (g : Grid) (e : Enemy) : Enemy :=
  let x := Qred (e_x e + e_vx e) in
  let y := Qred (e_y e + e_vy e) in
  let vx := if checkCollision g (x + e_vx e)%Q y then (e_vx e * -1)%Q else e_vx e in
  let vy := if checkCollision g x (y + e_vy e)%Q then (e_vy e * -1)%Q else e_vy e in
  mkEnemy x y vx vy (e_type e) (e_radius e).

(** The body of [enemiesRef.current.forEach]: the moved enemy and the world
    after the collision tests.  [grid[playerGy][playerGx]] is read without a
    guard. *)
Definition enemyStep (t : Z) (e : Enemy) (w : World) : option (Enemy * World) :=
  let e := moveEnemy (grid w) e in
  (* Collision with Trail or Player *)
  let gx := Qfloor (e_x e) in
  let gy := Qfloor (e_y e) in
  let hitTrace := inGrid gx gy && bool_decide (cellAt (grid w) gx gy = Some 2) in
  let near := hypot_lt (pl_x (player w) - e_x e) (pl_y (player w) - e_y e)
                       (e_radius e + 0.5) in
  let playerGx := Math_round (pl_x (player w)) in
  let playerGy := Math_round (pl_y (player w)) in
  if (0 <=? playerGy) && bool_decide (is_Some (grid w !! Z.to_nat playerGy))
  then
    let isPlayerSafe := bool_decide (cellAt (grid w) playerGx playerGy = Some 1) in
    let isPlayerInvincible := t <? invincible w in
    if hitTrace && negb isPlayerInvincible then Some (e, handleDeath w)
    else if near && negb isPlayerInvincible
    then if negb isPlayerSafe then Some (e, handleDeath w) else Some (e, w)
    else Some (e, w)
  else None.

Fixpoint stepEnemies (t : Z) (es : list Enemy) (w : World)
    : option (list Enemy * World) :=
  match es with
  | [] => Some ([], w)
  | e :: es' =>
      '(e', w') ← enemyStep t e w;
      '(es'', w'') ← stepEnemies t es' w';
      Some (e' :: es'', w'')
  end.

(** "2. Update Enemies" of [update]. *)
Definition updateEnemies (t : Z) (w : World) : option World :=
  '(es, w') ← stepEnemies t (enemies w) w;
  Some (set_enemies es w').

(** "3. Calculate Percent" of [update]. *)
Definition calcPercent (w : World) : World :=
  let owned := countOwned (grid w) in
  let total := GRID_WIDTH * GRID_HEIGHT in
  let p := (inject_Z owned / inject_Z total)%Q in
  let w := set_percent p w in
  if Qle_bool WIN_THRESHOLD p
  then handleGameOver true (play PlayWin w)
  else w.

(** One frame of the game loop. *)
Definition update (i : Input) (w : World) : option World :=
  let dt := (inject_Z (now i - lastTime w) / 1000)%Q in
  let w := set_lastTime (now i) w in
  (* Update Timer *)
  let w := set_timeLeft (Qred (timeLeft w - dt)) w in
  if Qle_bool (timeLeft w) 0 then Some (handleGameOver false w)
  else
    let isFrozen := now i <? frozen w in
    let w := spawnPowerUp i w in
    w ← movePlayer i w;
    w ← (if negb isFrozen then updateEnemies (now i) w else Some w);
    Some (calcPercent w).

(** ** The session shell of [App] *)

Inductive Event : Type :=
  | StartGame                              (* START GAME on the menu *)
  | AssetsReady (rnd : nat → Q) (t : Z)    (* the assets are loaded: PLAYING *)
  | NextLevel                              (* NEXT LEVEL on the victory screen *)
  | ToMenu                                 (* MENU on the game-over screen *)
  | ToggleCut                              (* the space key or the CUT button *)
  | Frame (i : Input).                     (* an animation frame *)

Definition loadLevelAssets (w : World) : World :=
  set_gameState GENERATING_ASSETS w.

Definition handleStart (w : World) : World :=
  loadLevelAssets (set_score 0 (set_level 0 w)).

Definition handleNextLevel (w : World) : World :=
  loadLevelAssets (set_level (level w + 1) w).

(** An event has an effect only in the phase that offers it. *)
Definition step (ev : Event) (w : World) : option World :=
  match ev, gameState w with
  | StartGame, MENU => Some (handleStart w)
  | AssetsReady rnd t, GENERATING_ASSETS =>
      Some (play PlayStart (mountGameCanvas rnd t (set_gameState PLAYING w)))
  | NextLevel, VICTORY => Some (handleNextLevel w)
  | ToMenu, GAME_OVER => Some (set_gameState MENU w)
  | ToggleCut, PLAYING => Some (set_isCuttingMode (negb (isCuttingMode w)) w)
  | Frame i, PLAYING => update i w
  | _, _ => Some w
  end.

Fixpoint run (evs : list Event) (w : World) : option World :=
  match evs with
  | [] => Some w
  | ev :: evs' => w' ← step ev w; run evs' w'
  end.

(** The session before START GAME is pressed. *)
Definition initialWorld : World :=
  mkWorld MENU 0 0 [] (mkPlayer 0%Q 0%Q (mkPoint 0 0)) [] [] 3 LEVEL_TIME 0 0
    false 0%Q 0 [].

End Simulation.

(** ** The score in binary64 *)

(** The numbers of the source are IEEE 754 doubles.  The score above the
    threshold is where a claim depends on their rounding, so the score is
    also given with doubles: [addedScore64] is the scoring block of
    [resolveFill] on Rocq's binary64 floats, [Math.pow] being a parameter as
    in [addedScore]. *)

#[local] Set Warnings "-inexact-float".

(** [Math.floor] of a double, as an integer; [None] for NaN and the
    infinities. *)
Definition Math_floor64 (x : float) : option Z :=
  match Prim2SF x with
  | S754_zero _ => Some 0
  | S754_finite s m e =>
      let n := if s then Z.neg m else Z.pos m in
      Some (if 0 <=? e then n * 2 ^ e else n / 2 ^ (- e))
  | _ => None
  end.

Definition addedScore64 (Math_pow : float → float → float)
    (capturedCount currentPercent : float) : option Z :=
  let multiplier :=
    if (0.8 <? currentPercent)%float
    then Math_pow 4%float ((currentPercent - 0.8) * 10)%float
    else 1%float in
  Math_floor64 (capturedCount * 10 * multiplier)%float.

(** The [k]-th double below 2; the doubles between 1 and 2 are 2^-52
    apart. *)
Definition belowTwo (k : nat) : float := Nat.iter k next_down 2%float.

(** ** High scores and asset seeds *)

(** The comparator [(a, b) => b - a] of [saveScore]: [a] may come before
    [b]. *)
Definition byScore (a b : Z) : Prop := b ≤ a.

#[global] Instance byScore_dec (a b : Z) : Decision (byScore a b) :=
  Z_le_dec b a.

#[global] Instance byScore_total : Total byScore.
Proof. intros a b. unfold byScore. lia. Qed.

#[global] Instance byScore_trans : Transitive byScore.
Proof. intros a b c. unfold byScore. lia. Qed.

#[global] Instance byScore_antisymm : AntiSymm (=) byScore.
Proof. intros a b. unfold byScore. lia. Qed.

(** [saveScore] of [App]:
    [[...highScores, finalScore].sort((a, b) => b - a).slice(0, 5)], the list
    that is stored.  [Array.prototype.sort] is a stable sort; on numbers its
    result is the sorted arrangement whatever the algorithm. *)
Definition saveScore (highScores : list Z) (finalScore : Z) : list Z :=
  take 5 (merge_sort byScore (highScores ++ [finalScore])).

(** [ToInt32], the conversion the bit operators apply to their operands and
    results. *)
Definition toInt32 (n : Z) : Z := (n + 2 ^ 31) mod 2 ^ 32 - 2 ^ 31.

(** The body of the loop of [hashCode]: [hash = ((hash << 5) - hash) + char;
    hash = hash & hash]. *)
Definition hashStep (hash char : Z) : Z :=
  let hash := (toInt32 (Z.shiftl (toInt32 hash) 5) - hash) + char in
  toInt32 hash.

(** [hashCode] of [generateGameAsset]; the string is the list of its UTF-16
    code units, which is what [charCodeAt] reads. *)
Definition hashCode (str : list Z) : Z := Z.abs (foldl hashStep 0 str).

(** * Vocabulary of the properties *)

(** The number of cells of the rectangle that satisfy [P]. *)
Definition cellsWhere (P : Z → Z → bool) : nat :=
  length (filter (λ p, P (pt_x p) (pt_y p) = true) allCells).

(** [b] is one of the four neighbours of [a]. *)
Definition adjacent (a b : Point) : Prop :=
  ∃ d : Z * Z, d ∈ dirs ∧ b = mkPoint (pt_x a + d.1) (pt_y a + d.2).

(** [p] is a cell of the rectangle whose content is [v]. *)
Definition holds (g : Grid) (v : Z) (p : Point) : Prop :=
  inGrid (pt_x p) (pt_y p) = true ∧ cellAt g (pt_x p) (pt_y p) = Some v.

(** 4-connectivity through cells of content [v], starting at [s]. *)
Inductive connected (g : Grid) (v : Z) (s : Point) : Point → Prop :=
  | connected_refl : holds g v s → connected g v s s
  | connected_step (q r : Point) :
      connected g v s q → adjacent q r → holds g v r → connected g v s r.

(** The number of cells of content [v] in the whole array. *)
Definition countVal (v : Z) (g : Grid) : nat :=
  length (filter (λ c, c = v) (concat g)).

(** A cell of the original grid [g0] that the fill has relabelled in [g]. *)
Definition markedBy (targetVal replaceVal : Z) (g0 g : Grid) (p : Point) : Prop :=
  holds g0 targetVal p ∧ cellAt g (pt_x p) (pt_y p) = Some replaceVal.

Definition shift (p : Point) (d : Z * Z) : Point :=
  mkPoint (pt_x p + d.1) (pt_y p + d.2).

(** The invariant of the fill of [g0] from [s]; [cur] is the cell popped
    from the stack with the directions already tried from it. *)
Record floodInvariant (targetVal replaceVal : Z) (g0 : Grid) (s : Point)
    (g : Grid) (queue : list Point) (cur : option (Point * list (Z * Z)))
    : Prop := {
  inv_cells : ∀ x y,
    cellAt g x y = cellAt g0 x y ∨
    (connected g0 targetVal s (mkPoint x y) ∧ cellAt g x y = Some replaceVal);
  inv_queue : ∀ p, p ∈ queue → markedBy targetVal replaceVal g0 g p;
  inv_start : markedBy targetVal replaceVal g0 g s;
  inv_cur : ∀ p tried, cur = Some (p, tried) → markedBy targetVal replaceVal g0 g p;
  inv_closed : ∀ p, markedBy targetVal replaceVal g0 g p →
    p ∈ queue ∨
    (∀ q, adjacent p q → holds g0 targetVal q → markedBy targetVal replaceVal g0 g q) ∨
    (∃ tried, cur = Some (p, tried) ∧
       ∀ d, d ∈ tried → holds g0 targetVal (shift p d) →
            markedBy targetVal replaceVal g0 g (shift p d))
}.

(** The cell the Boss is in. *)
Definition bossCell (b : Enemy) : Point :=
  mkPoint (Qfloor (e_x b)) (Qfloor (e_y b)).

(** [p] is an unowned cell connected, through unowned cells, to the Boss's
    cell or to one of its four neighbours. *)
Definition bossConnected (g : Grid) (bc p : Point) : Prop :=
  ∃ s, (s = bc ∨ adjacent bc s) ∧ connected g 0 s p.

(** The unowned cells at the Boss form exactly one region. *)
Definition oneBossRegion (g : Grid) (bc : Point) : Prop :=
  (∃ p, bossConnected g bc p) ∧
  (∀ p q, bossConnected g bc p → bossConnected g bc q → connected g 0 p q).

(** The live power-up [p] lies on an owned cell of [g]. *)
Definition onOwned (g : Grid) (p : PowerUp) : bool :=
  bool_decide (cellAt g (pu_x p) (pu_y p) = Some 1).

(** The power-ups [ps] applied one after the other. *)
Definition applyAll (t : Z) (ps : list PowerUp) (w : World) : World :=
  foldl (λ w p, applyPowerUp t (pu_type p) w) w ps.

(** What [resolveFill] makes of the world once the fill has produced
    [tempGrid]. *)
Definition resolveWith (Math_pow : Q → Q → Q) (t : Z) (currentPercent : Q)
    (tempGrid : Grid) (w : World) : World :=
  let g := (captureRest tempGrid (grid w)).1.1 in
  let capturedCount := (captureRest tempGrid (grid w)).1.2 in
  let w1 := applyAll t (filter (λ p, onOwned g p = true) (powerUps w))
                     (set_grid g w) in
  let w2 := set_powerUps (filter (λ p, onOwned g p = false) (powerUps w)) w1 in
  if 0 <? capturedCount
  then set_score (score w2 + addedScore Math_pow capturedCount currentPercent)
                 (play PlayClaim w2)
  else w2.

Definition ownedKept (g g' : Grid) : Prop :=
  ∀ x y, cellAt g x y = Some 1 → cellAt g' x y = Some 1.

(** The cell [(x, y)] is owned or lies outside the grid: what makes
    [checkCollision] answer [true]. *)
Definition blocked (g : Grid) (x y : Z) : bool :=
  negb (inGrid x y) || bool_decide (cellAt g x y = Some 1).

(** The frame made no death: the sounds it added do not contain [PlayDie],
    and no life was taken. *)
Definition quiet (w w' : World) : Prop :=
  (∃ new, sounds w' = new ++ sounds w ∧ Forall (λ s, s ≠ PlayDie) new) ∧
  lives w ≤ lives w'.

(** The spawn cell is owned. *)
Definition spawnOwned (g : Grid) : Prop :=
  cellAt g (Math_round (pl_x spawnPlayer)) (Math_round (pl_y spawnPlayer)) = Some 1.

Definition noTrail (g : Grid) : Prop :=
  ∀ x y, inGrid x y = true → cellAt g x y ≠ Some 2.

(** ** Invariants of a level *)

(** Every cell of the rectangle is unowned, owned or trail. *)
Definition validCells (g : Grid) : Prop :=
  ∀ x y, inGrid x y = true →
         cellAt g x y = Some 0 ∨ cellAt g x y = Some 1 ∨ cellAt g x y = Some 2.

(** [x===0 || x===GRID_WIDTH-1 || y===0 || y===GRID_HEIGHT-1] *)
Definition onBorder (x y : Z) : bool :=
  (x =? 0) || (x =? GRID_WIDTH - 1) || (y =? 0) || (y =? GRID_HEIGHT - 1).

Definition borderOwned (g : Grid) : Prop :=
  ∀ x y, inGrid x y = true → onBorder x y = true → cellAt g x y = Some 1.

Definition gridInv (g : Grid) : Prop :=
  wf_grid g ∧ validCells g ∧ borderOwned g.

(** The bounds test of the player's step. *)
Definition playerInside (p : Player) : Prop :=
  (0 <= pl_x p)%Q ∧ (pl_x p <= inject_Z (GRID_WIDTH - 1))%Q ∧
  (0 <= pl_y p)%Q ∧ (pl_y p <= inject_Z (GRID_HEIGHT - 1))%Q.

(** [v] is a coordinate strictly inside the border, for a grid side [n]. *)
Definition inside (n : Z) (v : Q) : Prop :=
  (1 <= v)%Q ∧ (v < inject_Z (n - 1))%Q.

(** The enemy is strictly inside the border, and so is its next position. *)
Definition enemyInside (e : Enemy) : Prop :=
  inside GRID_WIDTH (e_x e) ∧ inside GRID_HEIGHT (e_y e) ∧
  inside GRID_WIDTH (e_x e + e_vx e) ∧ inside GRID_HEIGHT (e_y e + e_vy e).

Definition hasBoss (es : list Enemy) : Prop := boss ∈ e_type <$> es.

Definition powerUpInside (p : PowerUp) : Prop :=
  1 ≤ pu_x p ≤ GRID_WIDTH - 2 ∧ 1 ≤ pu_y p ≤ GRID_HEIGHT - 2.

(** A trail on the grid passes under the player. *)
Definition trailAnchored (g : Grid) (p : Player) : Prop :=
  (∃ x y, inGrid x y = true ∧ cellAt g x y = Some 2) →
  cellAt g (Math_round (pl_x p)) (Math_round (pl_y p)) = Some 2.

(** The results of [Math.random()] lie in [0, 1). *)
Definition unitDraws (rnd : nat → Q) : Prop :=
  ∀ k, (0 <= rnd k)%Q ∧ (rnd k < 1)%Q.

(** What holds of the game state throughout a level. *)
Record levelInv (w : World) : Prop := {
  inv_grid : gridInv (grid w);
  inv_player : playerInside (player w);
  inv_trail : trailAnchored (grid w) (player w);
  inv_enemies : Forall enemyInside (enemies w);
  inv_boss : hasBoss (enemies w);
  inv_powerUps : Forall powerUpInside (powerUps w);
  inv_live : (length (powerUps w) ≤ 3)%nat;
  inv_unclaimed : Forall (λ p, onOwned (grid w) p = false) (powerUps w)
}.

(** The part of the level invariant that does not speak of where the
    enemies are. *)
Definition groundInv (w : World) : Prop :=
  gridInv (grid w) ∧ playerInside (player w) ∧
  trailAnchored (grid w) (player w) ∧ hasBoss (enemies w) ∧
  Forall powerUpInside (powerUps w) ∧ (length (powerUps w) ≤ 3)%nat ∧
  Forall (λ p, onOwned (grid w) p = false) (powerUps w).

(** The fraction that [update] compares with [WIN_THRESHOLD]. *)
Definition ownedFraction (g : Grid) : Q :=
  (inject_Z (countOwned g) / inject_Z (GRID_WIDTH * GRID_HEIGHT))%Q.

(** What holds between two frames of a level that is being played. *)
Definition playInv (w : World) : Prop :=
  levelInv w ∧ 1 ≤ lives w ∧ (ownedFraction (grid w) < WIN_THRESHOLD)%Q.

(** The number of cells of the rectangle whose content is [v]. *)
Definition cellCount (v : Z) (g : Grid) : nat :=
  cellsWhere (λ x y, bool_decide (cellAt g x y = Some v)).

(** The random draws of an event lie in [0, 1). *)
Definition validEvent (ev : Event) : Prop :=
  match ev with
  | AssetsReady rnd _ => unitDraws rnd
  | Frame i => unitDraws (random i)
  | _ => True
  end.

(** The polynomial of which [hashCode] is the 32-bit residue. *)
Definition poly31 (str : list Z) : Z := foldl (λ h c, 31 * h + c) 0 str.

(** ** Sample sessions *)

(** A stand-in for [Math.pow]; the sessions below never score above 80%. *)
Definition sample_pow (base exponent : Q) : Q := 1%Q.

(** Draws for [initLevel]: the Boss heads right and down; every minion starts
    at (10, 24) heading left and up. *)
Definition sampleSeed (k : nat) : Q :=
  match k with
  | 0%nat | 1%nat => 0.75%Q
  | _ => match (k mod 4)%nat with
         | 2%nat => (2 # 15)%Q
         | 3%nat => 0.5%Q
         | _ => 0.25%Q
         end
  end.

(** Draws for [initLevel] that put the first minion at (29.5, 4.5) heading
    right and up. *)
Definition cornerSeed (k : nat) : Q :=
  match k with
  | 2%nat => (11 # 24)%Q
  | 3%nat => (5 # 88)%Q
  | 4%nat => 0.75%Q
  | 5%nat => 0.25%Q
  | _ => 0.5%Q
  end.

(** Draws of a frame in which no power-up is spawned. *)
Definition noSpawn (k : nat) : Q := 0.5%Q.

(** Draws of a frame that spawns an extra life at (10, 10). *)
Definition spawnLife (k : nat) : Q :=
  match k with
  | 0%nat => 0%Q
  | 1%nat => 0.6%Q
  | 2%nat => (19 # 124)%Q
  | 3%nat => (19 # 92)%Q
  | _ => 0.5%Q
  end.

Definition frame (t : Z) (keys : list string) (rnd : nat → Q) : Event :=
  Frame (mkInput t (list_to_set keys) rnd).

(** The first level right after it is entered. *)
Definition sampleLevel : World :=
  play PlayStart
    (mountGameCanvas sampleSeed 1000 (set_gameState PLAYING (handleStart initialWorld))).

(** The same level with the column x = 50 owned, which cuts the cells to the
    right of it off from the Boss, and an extra life on one of them. *)
Definition enclosedLevel : World :=
  set_powerUps [mkPowerUp 7%Q 55 10 EXTRA_LIFE]
    (set_grid (foldl (λ g y, setCell g 50 y 1) newGrid (seqZ 1 46)) sampleLevel).

(** The first level with the Boss's cell and its four neighbours owned, and
    an extra life at (10, 10). *)
Definition walledLevel : World :=
  set_powerUps [mkPowerUp 7%Q 10 10 EXTRA_LIFE]
    (set_grid (foldl (λ g c, setCell g c.1 c.2 1) newGrid
                 [(32, 24); (32, 25); (32, 23); (33, 24); (31, 24)])
       sampleLevel).

(** The player one step below the spawn cell, cutting-mode on. *)
Definition cuttingLevel : World :=
  set_isCuttingMode true
    (set_player (mkPlayer 32%Q 0.3%Q (mkPoint 0 1)) sampleLevel).

(** The first level with the player on a trail cell below the spawn cell and
    two minions about to step onto that cell. *)
Definition ambushLevel : World :=
  set_enemies [initBoss sampleSeed;
               mkEnemy 33%Q 2%Q (-0.2)%Q (-0.2)%Q minion 1.2%Q;
               mkEnemy 33%Q 2%Q (-0.2)%Q (-0.2)%Q minion 1.2%Q]
    (set_grid (setCell newGrid 32 1 2)
       (set_player (mkPlayer 32%Q 0.6%Q (mkPoint 0 1)) sampleLevel)).

(** A session in which the player opens a one-cell cut below the spawn cell
    and closes it, and then waits on the border. *)
Definition cornerSession : list Event :=
  [StartGame; AssetsReady cornerSeed 1000; ToggleCut;
   frame 1016 ["ArrowDown"] noSpawn; frame 1032 ["ArrowDown"] noSpawn;
   frame 1048 ["ArrowUp"] noSpawn]
  ++ ((λ n, frame (1048 + 16 * Z.of_nat n) [] noSpawn) <$> seq 1 10).

(** Draws of a frame that spawns an extra life at (10, 10); the draws are
    dyadic, so that the doubles of the source hold them exactly. *)
Definition spawnBonus (k : nat) : Q :=
  match k with
  | 0%nat => 0%Q
  | 1%nat => (5 # 8)%Q
  | 2%nat => (5 # 32)%Q
  | 3%nat => (13 # 64)%Q
  | _ => 0.5%Q
  end.

(** Dyadic draws for [initLevel]: the Boss heads right and down; every minion
    starts at (9.5, 7.5) heading left and down. *)
Definition winningSeed (k : nat) : Q :=
  match k with
  | 0%nat | 1%nat => 0.75%Q
  | _ => match (k mod 4)%nat with
         | 2%nat | 3%nat => 0.125%Q
         | 0%nat => 0.25%Q
         | _ => 0.75%Q
         end
  end.

(** A session won in one cut: the player walks along the top border to
    x = 50 (an extra life appears at (10, 10) meanwhile), switches
    cutting-mode on, cuts straight down to the row above the bottom border
    and then right to the right border, with the Boss inside the corner that
    the cut leaves out.  The cut is closed on the right border, where the
    candidate position 62.6 is not at the edge of a cell. *)
Definition winningSession : list Event :=
  [StartGame; AssetsReady winningSeed 1000]
  ++ ((λ n, frame (1000 + 16 * Z.of_nat n) ["ArrowRight"]
              (if (n =? 5)%nat then spawnBonus else noSpawn)) <$> seq 1 60)
  ++ [ToggleCut]
  ++ ((λ n, frame (1000 + 16 * Z.of_nat n) ["ArrowDown"] noSpawn) <$> seq 61 154)
  ++ ((λ n, frame (1000 + 16 * Z.of_nat n) ["ArrowRight"] noSpawn) <$> seq 215 42).

(** Dyadic draws for [initLevel]: the Boss heads right and up; every minion
    starts at (9.5, 24) heading left and down. *)
Definition walledSeed (k : nat) : Q :=
  match k with
  | 0%nat => 0.75%Q
  | 1%nat => 0.25%Q
  | _ => match (k mod 4)%nat with
         | 2%nat => 0.125%Q
         | 3%nat => 0.5%Q
         | 0%nat => 0.25%Q
         | _ => 0.75%Q
         end
  end.

(** Draws of a frame that spawns an invincibility power-up at (32, 1). *)
Definition spawnShield (k : nat) : Q :=
  match k with
  | 0%nat => 0%Q
  | 1%nat => 0.375%Q
  | 3%nat => 0%Q
  | _ => 0.5%Q
  end.

(** The keys held in frame [n] of the walled session: a cut through the cell
    (32, 1) and back; a walk along the top border to x = 53; a wait; then a
    cut through (53, 1), (54, 1), (54, 2) and (55, 1), back to the border.
    No turn is made at the edge of a cell. *)
Definition walledKeys (n : nat) : list string :=
  if (n <=? 2)%nat then ["ArrowDown"]
  else if (n <=? 3)%nat then ["ArrowUp"]
  else if (n <=? 73)%nat then ["ArrowRight"]
  else if (n <=? 135)%nat then []
  else if (n <=? 136)%nat then ["ArrowDown"]
  else if (n <=? 139)%nat then ["ArrowRight"]
  else if (n <=? 143)%nat then ["ArrowDown"]
  else if (n <=? 145)%nat then ["ArrowUp"]
  else if (n <=? 148)%nat then ["ArrowRight"]
  else ["ArrowUp"].

Definition walledFrame (n : nat) : Event :=
  frame (1000 + 16 * Z.of_nat n) (walledKeys n)
    (if (n =? 1)%nat then spawnShield
     else if (n =? 100)%nat then spawnBonus else noSpawn).

(** A session in which the player, made invincible by the power-up that a
    first cut collects, lays a trail under the cell the Boss is about to
    reach below the top border and around it; the last frame of the cut,
    [walledFrame 151], is left out. *)
Definition walledSession : list Event :=
  [StartGame; AssetsReady walledSeed 1000; ToggleCut]
  ++ (walledFrame <$> seq 1 150).

#[export] Instance wf_grid_dec (g : Grid) : Decision (wf_grid g).
Proof. unfold wf_grid. apply _. Defined.

(** Closed goals over the sample sessions, by evaluation. *)
Ltac by_evaluation :=
  vm_compute; repeat split; first [reflexivity | discriminate].

(** * Properties *)

(** ** Reading and writing cells *)

Lemma cellAt_setCell_eq (g : Grid) (x y v : Z) :
  is_Some (cellAt g x y) → cellAt (setCell g x y v) x y = Some v.
Proof.
  unfold cellAt, setCell. destruct ((0 <=? x) && (0 <=? y)); [|by intros [? ?]].
  cbv iota. rewrite list_lookup_alter_eq. destruct (g !! Z.to_nat y) as [row|]; simpl.
  - intros Hx. apply lookup_lt_is_Some in Hx. by apply list_lookup_insert_eq.
  - by intros [? ?].
Qed.

Lemma cellAt_setCell_ne (g : Grid) (x y v x' y' : Z) :
  (x', y') ≠ (x, y) → cellAt (setCell g x y v) x' y' = cellAt g x' y'.
Proof.
  intros Hne. unfold cellAt, setCell.
  destruct ((0 <=? x') && (0 <=? y')) eqn:H'; [|done].
  destruct ((0 <=? x) && (0 <=? y)) eqn:H; [|done]. cbv iota.
  apply andb_prop in H as [?%Z.leb_le ?%Z.leb_le].
  apply andb_prop in H' as [?%Z.leb_le ?%Z.leb_le].
  destruct (decide (y' = y)) as [->|Hy].
  - rewrite list_lookup_alter_eq. destruct (g !! Z.to_nat y) as [row|]; simpl; [|done].
    apply list_lookup_insert_ne. intros Heq. apply Hne. f_equal. lia.
  - rewrite list_lookup_alter_ne; [done|lia].
Qed.

Lemma cellAt_setCell_is_Some (g : Grid) (x y v x' y' : Z) :
  is_Some (cellAt (setCell g x y v) x' y') ↔ is_Some (cellAt g x' y').
Proof.
  destruct (decide ((x', y') = (x, y))) as [[= -> ->]|Hne].
  - split.
    + unfold cellAt, setCell. destruct ((0 <=? x) && (0 <=? y)); [|done].
      cbv iota. rewrite list_lookup_alter_eq. destruct (g !! Z.to_nat y) as [row|]; simpl; [|done].
      intros Hx%lookup_lt_is_Some. rewrite length_insert in Hx.
      by apply lookup_lt_is_Some.
    + intros H. rewrite cellAt_setCell_eq; [by eexists|done].
  - by rewrite cellAt_setCell_ne.
Qed.

Lemma wf_grid_setCell (g : Grid) (x y v : Z) :
  wf_grid g → wf_grid (setCell g x y v).
Proof.
  intros [Hlen Hrows]. unfold setCell.
  destruct ((0 <=? x) && (0 <=? y)); [|done]. split.
  - by rewrite length_alter.
  - apply Forall_alter; [done|]. intros row _ Hrow. by rewrite length_insert.
Qed.

Lemma inGrid_spec (x y : Z) :
  inGrid x y = true ↔ 0 ≤ x < GRID_WIDTH ∧ 0 ≤ y < GRID_HEIGHT.
Proof.
  unfold inGrid. rewrite !andb_true_iff, !Z.leb_le, !Z.ltb_lt. lia.
Qed.

Lemma wf_grid_cellAt (g : Grid) (x y : Z) :
  wf_grid g → inGrid x y = true → is_Some (cellAt g x y).
Proof.
  intros [Hlen Hrows] [[Hx1 Hx2] [Hy1 Hy2]]%inGrid_spec. unfold cellAt.
  assert ((0 <=? x) && (0 <=? y) = true) as ->.
  { apply andb_true_iff. split; by apply Z.leb_le. }
  destruct (lookup_lt_is_Some_2 g (Z.to_nat y)) as [row Hrow]; [lia|].
  rewrite Hrow. simpl. apply lookup_lt_is_Some_2.
  rewrite Forall_lookup in Hrows. rewrite (Hrows _ _ Hrow). lia.
Qed.

Lemma wf_grid_row (g : Grid) (y : Z) :
  wf_grid g → 0 ≤ y < GRID_HEIGHT → is_Some (g !! Z.to_nat y).
Proof. intros [Hlen _] Hy. apply lookup_lt_is_Some_2. lia. Qed.

(** ** The double loop over the cells *)

Lemma forCells_allCells {A : Type} (body : Z → Z → A → A) (a : A) :
  forCells body a = foldl (λ a p, body (pt_x p) (pt_y p) a) a allCells.
Proof.
  unfold forCells, allCells.
  generalize (seqZ 0 GRID_WIDTH) as xs. generalize (seqZ 0 GRID_HEIGHT) as ys.
  intros ys xs. revert a. induction ys as [|y ys IH]; intros a; [done|].
  simpl. rewrite foldl_app, IH. f_equal.
  clear IH. revert a. induction xs as [|x xs IHx]; intros a; [done|].
  simpl. by rewrite IHx.
Qed.

Lemma elem_of_allCells (p : Point) :
  p ∈ allCells ↔ inGrid (pt_x p) (pt_y p) = true.
Proof.
  unfold allCells. rewrite list_elem_of_bind, inGrid_spec. split.
  - intros (y & Hp & Hy). apply list_elem_of_fmap in Hp as (x & -> & Hx).
    apply elem_of_seqZ in Hx, Hy. simpl. lia.
  - intros [Hx Hy]. exists (pt_y p). split.
    + apply list_elem_of_fmap. exists (pt_x p). split; [by destruct p|].
      apply elem_of_seqZ. lia.
    + apply elem_of_seqZ. lia.
Qed.

Lemma NoDup_allCells : NoDup allCells.
Proof.
  unfold allCells. apply NoDup_bind.
  - intros y1 y2 p _ _ H1 H2.
    apply list_elem_of_fmap in H1 as (x1 & -> & _).
    apply list_elem_of_fmap in H2 as (x2 & [= _ ->] & _). done.
  - intros y _. apply NoDup_fmap_2; [|apply NoDup_seqZ].
    intros x1 x2 [= ->]. done.
  - apply NoDup_seqZ.
Qed.

(** Induction over a left fold, with the prefix already visited. *)
Lemma foldl_prefix_ind {A B : Type} (f : A → B → A) (I : list B → A → Prop)
    (l : list B) (a : A) :
  I [] a →
  (∀ pre x suf a', l = pre ++ x :: suf → I pre a' → I (pre ++ [x]) (f a' x)) →
  I l (foldl f a l).
Proof.
  intros H0 Hstep.
  enough (∀ rest pre a', l = pre ++ rest → I pre a' → I l (foldl f a' rest)) as H.
  { by apply (H l [] a). }
  induction rest as [|x rest IH]; intros pre a' Hl HI; simpl.
  - rewrite Hl, app_nil_r. done.
  - apply (IH (pre ++ [x])).
    + by rewrite <- app_assoc.
    + by eapply Hstep.
Qed.

(** The same for the cells of the grid: each is visited once. *)
Lemma forCells_ind {A : Type} (body : Z → Z → A → A) (I : list Point → A → Prop)
    (a : A) :
  I [] a →
  (∀ pre p a', p ∉ pre → inGrid (pt_x p) (pt_y p) = true →
               (∀ q, q ∈ pre → inGrid (pt_x q) (pt_y q) = true) →
               I pre a' → I (pre ++ [p]) (body (pt_x p) (pt_y p) a')) →
  ∃ l, (∀ p, p ∈ l ↔ inGrid (pt_x p) (pt_y p) = true) ∧ I l (forCells body a).
Proof.
  intros H0 Hstep. exists allCells. split; [apply elem_of_allCells|].
  rewrite forCells_allCells.
  apply (foldl_prefix_ind _ I); [done|].
  intros pre p suf a' Hl HI. apply Hstep; [| | |done].
  - pose proof NoDup_allCells as Hnd. rewrite Hl in Hnd.
    apply NoDup_app in Hnd as (_ & Hnd & _). intros Hin.
    apply (Hnd p Hin). left.
  - apply elem_of_allCells. rewrite Hl. set_solver.
  - intros q Hq. apply elem_of_allCells. rewrite Hl. set_solver.
Qed.

(** A scan that overwrites with [v] the cells selected by their own content. *)
Lemma scan_cells (sel : Z → Z → option Z → bool) (v : Z) (g : Grid) :
  ∀ x y,
    cellAt (forCells (λ x y g, if sel x y (cellAt g x y)
                               then setCell g x y v else g) g) x y
    = if inGrid x y && sel x y (cellAt g x y) && bool_decide (is_Some (cellAt g x y))
      then Some v else cellAt g x y.
Proof.
  destruct (forCells_ind
    (λ x y g, if sel x y (cellAt g x y) then setCell g x y v else g)
    (λ pre g', ∀ x y, cellAt g' x y =
       if bool_decide (mkPoint x y ∈ pre) && sel x y (cellAt g x y)
          && bool_decide (is_Some (cellAt g x y))
       then Some v else cellAt g x y) g) as (l & Hl & HI).
  - intros x y. rewrite bool_decide_eq_false_2; [done|]. apply not_elem_of_nil.
  - intros pre [px py] g' Hfresh Hin Hpre IH x y. simpl.
    assert (cellAt g' px py = cellAt g px py) as Hsame.
    { rewrite IH. rewrite bool_decide_eq_false_2; done. }
    rewrite Hsame.
    destruct (decide ((x, y) = (px, py))) as [[= -> ->]|Hne].
    + rewrite (bool_decide_eq_true_2 (_ ∈ pre ++ _)) by set_solver. simpl.
      destruct (sel px py (cellAt g px py)) eqn:Hsel; simpl.
      * destruct (bool_decide (is_Some (cellAt g px py))) eqn:Hs.
        -- apply bool_decide_eq_true in Hs. apply cellAt_setCell_eq. by rewrite Hsame.
        -- apply bool_decide_eq_false in Hs.
           destruct (cellAt (setCell g' px py v) px py) eqn:Hc.
           ++ exfalso. apply Hs. rewrite <- Hsame.
              eapply cellAt_setCell_is_Some. by rewrite Hc.
           ++ destruct (cellAt g px py); [exfalso; apply Hs; by eexists|done].
      * done.
    + assert (bool_decide (mkPoint x y ∈ pre ++ [mkPoint px py])
              = bool_decide (mkPoint x y ∈ pre)) as ->.
      { apply bool_decide_ext. rewrite elem_of_app, list_elem_of_singleton.
        split; [|by left]. intros [?|[= -> ->]]; done. }
      rewrite <- IH. destruct (sel px py (cellAt g px py)); [|done].
      by apply cellAt_setCell_ne.
  - intros x y. rewrite HI.
    assert (bool_decide (mkPoint x y ∈ l) = inGrid x y) as ->; [|done].
    destruct (inGrid x y) eqn:Hin.
    + apply bool_decide_eq_true_2. by apply Hl.
    + apply bool_decide_eq_false_2. rewrite Hl. simpl. by rewrite Hin.
Qed.

Lemma forCells_proj {A B : Type} (π : A → B)
    (body : Z → Z → A → A) (body' : Z → Z → B → B) :
  (∀ x y a, π (body x y a) = body' x y (π a)) →
  ∀ a, π (forCells body a) = forCells body' (π a).
Proof.
  intros Hπ a. rewrite !forCells_allCells. revert a.
  induction allCells as [|p l IH]; intros a; [done|].
  simpl. by rewrite IH, Hπ.
Qed.

Lemma forCells_count (P : Z → Z → bool) (n0 : Z) :
  forCells (λ x y n, if P x y then n + 1 else n) n0
  = n0 + Z.of_nat (cellsWhere P).
Proof.
  rewrite forCells_allCells. unfold cellsWhere. revert n0.
  induction allCells as [|p l IH]; intros n0; simpl; [lia|].
  rewrite IH, filter_cons. destruct (P (pt_x p) (pt_y p)) eqn:HP.
  - rewrite decide_True by done. simpl. lia.
  - rewrite decide_False by done. lia.
Qed.

Lemma cellsWhere_mono (P Q : Z → Z → bool) :
  (∀ x y, inGrid x y = true → P x y = true → Q x y = true) →
  (cellsWhere P ≤ cellsWhere Q)%nat.
Proof.
  intros HPQ. unfold cellsWhere.
  assert (∀ p, p ∈ allCells → inGrid (pt_x p) (pt_y p) = true) as Hin.
  { intros p. apply elem_of_allCells. }
  induction allCells as [|p l IH]; [done|].
  rewrite !filter_cons.
  assert (∀ q, q ∈ l → inGrid (pt_x q) (pt_y q) = true) as Hl.
  { intros q Hq. apply Hin. by right. }
  specialize (IH Hl).
  destruct (decide (P (pt_x p) (pt_y p) = true)) as [HP|HP].
  - rewrite decide_True; [simpl; lia|]. apply HPQ; [|done]. apply Hin. left.
  - destruct (decide (Q (pt_x p) (pt_y p) = true)); simpl; lia.
Qed.

Lemma cellsWhere_sum (R P Q : Z → Z → bool) :
  (∀ x y, inGrid x y = true → R x y = P x y || Q x y) →
  (∀ x y, inGrid x y = true → P x y = true → Q x y = true → False) →
  cellsWhere R = (cellsWhere P + cellsWhere Q)%nat.
Proof.
  intros HR Hdis. unfold cellsWhere.
  assert (∀ p, p ∈ allCells → inGrid (pt_x p) (pt_y p) = true) as Hin.
  { intros p. apply elem_of_allCells. }
  induction allCells as [|p l IH]; [done|].
  rewrite !filter_cons.
  assert (∀ q, q ∈ l → inGrid (pt_x q) (pt_y q) = true) as Hl.
  { intros q Hq. apply Hin. by right. }
  specialize (IH Hl).
  assert (inGrid (pt_x p) (pt_y p) = true) as Hp by (apply Hin; left).
  specialize (HR _ _ Hp). specialize (Hdis _ _ Hp). rewrite HR.
  destruct (P (pt_x p) (pt_y p)), (Q (pt_x p) (pt_y p)); simpl;
    first [by destruct Hdis | lia].
Qed.

Lemma countOwned_spec (g : Grid) :
  countOwned g
  = Z.of_nat (cellsWhere (λ x y, bool_decide (cellAt g x y = Some 1))).
Proof.
  unfold countOwned.
  by rewrite (forCells_count (λ x y, bool_decide (cellAt g x y = Some 1))).
Qed.

(** ** The scans of the source *)

Lemma clearTrail_cellAt (g : Grid) (x y : Z) :
  cellAt (clearTrail g) x y
  = if inGrid x y && bool_decide (cellAt g x y = Some 2)
    then Some 0 else cellAt g x y.
Proof.
  unfold clearTrail.
  pose proof (scan_cells (λ _ _ c, bool_decide (c = Some 2)) 0 g x y) as H.
  cbv beta in H. rewrite H. clear H.
  destruct (inGrid x y); simpl; [|done].
  case_bool_decide as Hc; simpl; [|done].
  rewrite bool_decide_eq_true_2; [done|]. rewrite Hc. by eexists.
Qed.

Lemma claimTrail_cellAt (g : Grid) (x y : Z) :
  cellAt (claimTrail g).1 x y
  = if inGrid x y && bool_decide (cellAt g x y = Some 2)
    then Some 1 else cellAt g x y.
Proof.
  unfold claimTrail.
  rewrite (forCells_proj fst _
    (λ x y g, if bool_decide (cellAt g x y = Some 2) then setCell g x y 1 else g)).
  - simpl.
    pose proof (scan_cells (λ _ _ c, bool_decide (c = Some 2)) 1 g x y) as H.
    cbv beta in H. rewrite H. clear H.
    destruct (inGrid x y); simpl; [|done].
    case_bool_decide as Hc; simpl; [|done].
    rewrite bool_decide_eq_true_2; [done|]. rewrite Hc. by eexists.
  - intros x' y' [g' t]. simpl. by case_bool_decide.
Qed.

Lemma captureRest_cellAt (tempGrid g : Grid) (x y : Z) :
  cellAt (captureRest tempGrid g).1.1 x y
  = if inGrid x y && bool_decide (cellAt tempGrid x y = Some 0)
       && bool_decide (is_Some (cellAt g x y))
    then Some 1 else cellAt g x y.
Proof.
  unfold captureRest.
  rewrite (forCells_proj (λ a, a.1.1) _
    (λ x y g, if bool_decide (cellAt tempGrid x y = Some 0)
              then setCell g x y 1 else g)).
  - simpl.
    apply (scan_cells (λ x y _, bool_decide (cellAt tempGrid x y = Some 0)) 1 g x y).
  - intros x' y' [[g' c] pts]. simpl. by case_bool_decide.
Qed.

Lemma captureRest_count (tempGrid g : Grid) :
  (captureRest tempGrid g).1.2
  = Z.of_nat (cellsWhere (λ x y, bool_decide (cellAt tempGrid x y = Some 0))).
Proof.
  unfold captureRest.
  rewrite (forCells_proj (λ a, a.1.2) _
    (λ x y n, if bool_decide (cellAt tempGrid x y = Some 0) then n + 1 else n)).
  - simpl.
    by rewrite (forCells_count (λ x y, bool_decide (cellAt tempGrid x y = Some 0))).
  - intros x' y' [[g' c] pts]. simpl. by case_bool_decide.
Qed.

(** ** Flood fill *)

Lemma connected_holds_start (g : Grid) (v : Z) (s p : Point) :
  connected g v s p → holds g v s.
Proof. induction 1; done. Qed.

Lemma connected_holds_end (g : Grid) (v : Z) (s p : Point) :
  connected g v s p → holds g v p.
Proof. destruct 1; done. Qed.

Lemma connected_trans (g : Grid) (v : Z) (a b c : Point) :
  connected g v a b → connected g v b c → connected g v a c.
Proof.
  intros Hab Hbc. induction Hbc as [|q r Hq IH Hadj Hr]; [done|].
  by eapply connected_step.
Qed.

Lemma adjacent_sym (a b : Point) : adjacent a b → adjacent b a.
Proof.
  intros ([dx dy] & Hd & ->). destruct a as [ax ay]. simpl.
  unfold dirs in Hd. unfold adjacent. simpl.
  repeat (apply elem_of_cons in Hd as [[= -> ->]|Hd]).
  - exists (0, -1). split; [set_solver|]. simpl. f_equal; lia.
  - exists (0, 1). split; [set_solver|]. simpl. f_equal; lia.
  - exists (-1, 0). split; [set_solver|]. simpl. f_equal; lia.
  - exists (1, 0). split; [set_solver|]. simpl. f_equal; lia.
  - by apply elem_of_nil in Hd.
Qed.

Lemma connected_sym (g : Grid) (v : Z) (a b : Point) :
  connected g v a b → connected g v b a.
Proof.
  intros Hab. induction Hab as [|q r Hq IH Hadj Hr]; [by constructor|].
  apply (connected_trans _ _ _ q); [|done].
  eapply connected_step; [by constructor| |].
  - by apply adjacent_sym.
  - by eapply connected_holds_end.
Qed.

Lemma countVal_setCell (g : Grid) (x y t r : Z) :
  cellAt g x y = Some t → t ≠ r →
  S (countVal t (setCell g x y r)) = countVal t g.
Proof.
  unfold cellAt, setCell, countVal.
  destruct ((0 <=? x) && (0 <=? y)); [|done]. cbv iota.
  destruct (g !! Z.to_nat y) as [row|] eqn:Hrow; simpl; [|done].
  intros Hx Hne.
  apply list_elem_of_split_length in Hrow as (pre & suf & -> & Hy).
  apply list_elem_of_split_length in Hx as (rpre & rsuf & -> & Hx).
  rewrite Hy, Hx.
  replace (length pre) with (length pre + 0)%nat by lia.
  rewrite alter_app_r. simpl.
  replace (length rpre) with (length rpre + 0)%nat by lia.
  rewrite insert_app_r. simpl.
  repeat (rewrite ?concat_app, ?concat_cons, ?filter_app, ?length_app,
            ?filter_cons).
  rewrite (decide_True (P := t = t)) by done.
  rewrite (decide_False (P := r = t)) by congruence.
  simpl. lia.
Qed.

Section FloodFill.

Variables (targetVal replaceVal : Z) (g0 : Grid) (s : Point).
Hypothesis Hne : targetVal ≠ replaceVal.

#[local] Abbreviation marked := (markedBy targetVal replaceVal g0).
#[local] Abbreviation floodInv := (floodInvariant targetVal replaceVal g0 s).

Lemma marked_connected (g : Grid) (queue : list Point) cur (p : Point) :
  floodInv g queue cur → marked g p → connected g0 targetVal s p.
Proof.
  intros Hinv [[Hin Hp0] Hp]. destruct p as [x y]. simpl in *.
  destruct (inv_cells _ _ _ _ _ _ _ Hinv x y) as [Heq|[Hc _]]; [|done].
  congruence.
Qed.

Lemma marked_mono (g : Grid) (nx ny : Z) (q : Point) :
  cellAt g nx ny = Some targetVal →
  marked g q → marked (setCell g nx ny replaceVal) q.
Proof.
  intros Hn [Hq0 Hq]. split; [done|].
  rewrite cellAt_setCell_ne; [done|]. intros [= Hx Hy]. congruence.
Qed.

Lemma visit_inv (g : Grid) (queue : list Point) (p : Point)
    (tried : list (Z * Z)) (d : Z * Z) :
  d ∈ dirs →
  floodInv g queue (Some (p, tried)) →
  floodInv (visit targetVal replaceVal p (g, queue) d).1
           (visit targetVal replaceVal p (g, queue) d).2
           (Some (p, tried ++ [d])).
Proof.
  intros Hd Hinv. unfold visit. simpl.
  set (nx := pt_x p + d.1). set (ny := pt_y p + d.2).
  assert (shift p d = mkPoint nx ny) as Hshift by done.
  destruct (inGrid nx ny && bool_decide (cellAt g nx ny = Some targetVal)) eqn:Hc;
    simpl.
  - apply andb_prop in Hc as [Hin Hn%bool_decide_eq_true].
    assert (cellAt g0 nx ny = Some targetVal) as Hn0.
    { destruct (inv_cells _ _ _ _ _ _ _ Hinv nx ny) as [Heq|[_ Hr]]; congruence. }
    assert (holds g0 targetVal (mkPoint nx ny)) as Hh by done.
    assert (marked g p) as Hp by (by eapply (inv_cur _ _ _ _ _ _ _ Hinv)).
    assert (connected g0 targetVal s (mkPoint nx ny)) as Hconn.
    { eapply connected_step; [by eapply marked_connected| |done].
      by exists d. }
    assert (cellAt (setCell g nx ny replaceVal) nx ny = Some replaceVal) as Hn'.
    { apply cellAt_setCell_eq. rewrite Hn. by eexists. }
    assert (marked (setCell g nx ny replaceVal) (mkPoint nx ny)) as Hmn by done.
    split.
    + intros x y. destruct (decide ((x, y) = (nx, ny))) as [[= -> ->]|Hxy].
      * by right.
      * rewrite cellAt_setCell_ne by done. apply (inv_cells _ _ _ _ _ _ _ Hinv).
    + intros q [->|Hq]%elem_of_cons; [done|].
      apply marked_mono; [done|]. by apply (inv_queue _ _ _ _ _ _ _ Hinv).
    + apply marked_mono; [done|]. apply (inv_start _ _ _ _ _ _ _ Hinv).
    + intros p' tried' [= -> _]. by apply marked_mono.
    + intros q Hq. destruct (decide (q = mkPoint nx ny)) as [->|Hqn].
      { left. left. }
      assert (marked g q) as Hq'.
      { destruct Hq as [Hq0 Hq]. split; [done|].
        rewrite cellAt_setCell_ne in Hq; [done|].
        intros [= Hx Hy]. apply Hqn. destruct q; simpl in *; congruence. }
      destruct (inv_closed _ _ _ _ _ _ _ Hinv q Hq') as [Hin'|[Hcl|(tr & [= <- <-] & Htr)]].
      * left. by right.
      * right. left. intros r Hadj Hr. apply marked_mono; [done|]. by apply Hcl.
      * right. right. exists (tried ++ [d]). split; [done|].
        intros d' [Hd'|Hd']%elem_of_app Hh'.
        -- apply marked_mono; [done|]. by apply Htr.
        -- apply list_elem_of_singleton in Hd' as ->. by rewrite Hshift.
  - split.
    + apply (inv_cells _ _ _ _ _ _ _ Hinv).
    + apply (inv_queue _ _ _ _ _ _ _ Hinv).
    + apply (inv_start _ _ _ _ _ _ _ Hinv).
    + intros p' tried' [= -> _]. by eapply (inv_cur _ _ _ _ _ _ _ Hinv).
    + intros q Hq.
      destruct (inv_closed _ _ _ _ _ _ _ Hinv q Hq) as [Hin'|[Hcl|(tr & [= <- <-] & Htr)]].
      * by left.
      * right. by left.
      * right. right. exists (tried ++ [d]). split; [done|].
        intros d' [Hd'|Hd']%elem_of_app Hh'; [by apply Htr|].
        apply list_elem_of_singleton in Hd' as ->.
        rewrite Hshift in Hh' |- *. destruct Hh' as [Hin Hn0]. simpl in *.
        split; [done|]. simpl.
        destruct (inv_cells _ _ _ _ _ _ _ Hinv nx ny) as [Heq|[_ Hr]]; [|done].
        rewrite Hin in Hc. simpl in Hc. apply bool_decide_eq_false in Hc.
        congruence.
Qed.

Lemma visit_all_inv (g : Grid) (queue : list Point) (p : Point) :
  floodInv g (p :: queue) None →
  floodInv (foldl (visit targetVal replaceVal p) (g, queue) dirs).1
           (foldl (visit targetVal replaceVal p) (g, queue) dirs).2
           None.
Proof.
  intros Hinv.
  assert (marked g p) as Hp by (apply (inv_queue _ _ _ _ _ _ _ Hinv); left).
  assert (floodInv g queue (Some (p, []))) as Hopen.
  { split.
    - apply (inv_cells _ _ _ _ _ _ _ Hinv).
    - intros q Hq. apply (inv_queue _ _ _ _ _ _ _ Hinv). by right.
    - apply (inv_start _ _ _ _ _ _ _ Hinv).
    - by intros p' tried' [= -> _].
    - intros q Hq.
      destruct (inv_closed _ _ _ _ _ _ _ Hinv q Hq) as [Hin'|[Hcl|(tr & [=] & _)]].
      + apply elem_of_cons in Hin' as [->|Hin'].
        * right. right. exists []. split; [done|]. by intros d Hd%elem_of_nil.
        * by left.
      + right. by left. }
  pose proof (foldl_prefix_ind (visit targetVal replaceVal p)
    (λ tried acc, floodInv acc.1 acc.2 (Some (p, tried))) dirs (g, queue) Hopen)
    as Hfold.
  simpl in Hfold.
  assert (floodInv (foldl (visit targetVal replaceVal p) (g, queue) dirs).1
    (foldl (visit targetVal replaceVal p) (g, queue) dirs).2 (Some (p, dirs)))
    as Hdone.
  { apply Hfold. intros pre d suf [g' q'] Hl HI. simpl in HI.
    apply visit_inv; [|done]. rewrite Hl. set_solver. }
  clear Hfold. split.
  - apply (inv_cells _ _ _ _ _ _ _ Hdone).
  - apply (inv_queue _ _ _ _ _ _ _ Hdone).
  - apply (inv_start _ _ _ _ _ _ _ Hdone).
  - by intros p' tried' [=].
  - intros q Hq.
    destruct (inv_closed _ _ _ _ _ _ _ Hdone q Hq) as [Hin'|[Hcl|(tr & [= <- <-] & Htr)]].
    + by left.
    + right. by left.
    + right. left. intros r (d & Hd & ->) Hr. by apply Htr.
Qed.

Lemma floodLoop_inv (fuel : nat) (g : Grid) (queue : list Point) (count : Z)
    (res : Grid * Z) :
  floodInv g queue None →
  floodLoop fuel targetVal replaceVal g queue count = Some res →
  floodInv res.1 [] None.
Proof.
  revert g queue count. induction fuel as [|fuel IH]; intros g queue count Hinv.
  - destruct queue; simpl; [|done]. by intros [= <-].
  - destruct queue as [|p rest]; simpl; [by intros [= <-]|].
    apply IH. by apply visit_all_inv.
Qed.

Lemma floodInv_complete (g : Grid) (p : Point) :
  floodInv g [] None → connected g0 targetVal s p → marked g p.
Proof.
  intros Hinv Hc. induction Hc as [|q r Hq IH Hadj Hr].
  - apply (inv_start _ _ _ _ _ _ _ Hinv).
  - destruct (inv_closed _ _ _ _ _ _ _ Hinv q IH) as [Hin|[Hcl|(tr & [=] & _)]].
    + by apply elem_of_nil in Hin.
    + by apply Hcl.
Qed.

(** Each iteration consumes one unit of the measure. *)
Lemma visit_measure (p : Point) (acc : Grid * list Point) (d : Z * Z) :
  (countVal targetVal (visit targetVal replaceVal p acc d).1
   + length (visit targetVal replaceVal p acc d).2
   = countVal targetVal acc.1 + length acc.2)%nat.
Proof.
  unfold visit.
  destruct (inGrid _ _ && bool_decide _) eqn:Hc; [|done].
  apply andb_prop in Hc as [_ Hn%bool_decide_eq_true]. simpl.
  rewrite <- (countVal_setCell acc.1 _ _ targetVal replaceVal Hn Hne). lia.
Qed.

Lemma floodLoop_terminates (fuel : nat) (g : Grid) (queue : list Point)
    (count : Z) :
  (countVal targetVal g + length queue ≤ fuel)%nat →
  is_Some (floodLoop fuel targetVal replaceVal g queue count).
Proof.
  revert g queue count. induction fuel as [|fuel IH]; intros g queue count Hm.
  - destruct queue; simpl in *; [by eexists|lia].
  - destruct queue as [|p rest]; [by eexists|].
    cbn [floodLoop]. apply IH.
    assert (∀ l acc,
      (countVal targetVal (foldl (visit targetVal replaceVal p) acc l).1
       + length (foldl (visit targetVal replaceVal p) acc l).2
       = countVal targetVal acc.1 + length acc.2)%nat) as Hfold.
    { induction l as [|d l IHl]; intros acc; [done|].
      simpl. rewrite IHl. apply visit_measure. }
    rewrite Hfold. simpl in *. lia.
Qed.

End FloodFill.

(** [floodFill] returns, and relabels exactly the cells connected to the
    start through cells of the target value. *)
Lemma floodFill_spec (g : Grid) (sx sy targetVal replaceVal : Z) :
  targetVal ≠ replaceVal →
  ∃ res, floodFill g sx sy targetVal replaceVal = Some res ∧
    (∀ x y, connected g targetVal (mkPoint sx sy) (mkPoint x y) →
            cellAt res.1 x y = Some replaceVal) ∧
    (∀ x y, cellAt res.1 x y = cellAt g x y ∨
            (connected g targetVal (mkPoint sx sy) (mkPoint x y) ∧
             cellAt res.1 x y = Some replaceVal)).
Proof.
  intros Hne. unfold floodFill.
  destruct (inGrid sx sy) eqn:Hin; simpl.
  2: { exists (g, 0). split; [done|]. split; [|by left].
       intros x y [Hs _]%connected_holds_start. simpl in Hs. congruence. }
  case_bool_decide as Hs; simpl.
  2: { exists (g, 0). split; [done|]. split; [|by left].
       intros x y [_ Hs']%connected_holds_start. done. }
  assert (holds g targetVal (mkPoint sx sy)) as Hh by done.
  assert (cellAt (setCell g sx sy replaceVal) sx sy = Some replaceVal) as Hs'.
  { apply cellAt_setCell_eq. rewrite Hs. by eexists. }
  assert (floodInvariant targetVal replaceVal g (mkPoint sx sy)
            (setCell g sx sy replaceVal) [mkPoint sx sy] None) as Hinv.
  { split.
    - intros x y. destruct (decide ((x, y) = (sx, sy))) as [[= -> ->]|Hxy].
      + right. split; [by constructor|done].
      + left. by apply cellAt_setCell_ne.
    - intros p ->%list_elem_of_singleton. done.
    - done.
    - by intros p tried [=].
    - intros [px py] [[Hpin Hp0] Hp]. simpl in *. left.
      apply list_elem_of_singleton.
      destruct (decide ((px, py) = (sx, sy))) as [[= -> ->]|Hxy]; [done|].
      rewrite cellAt_setCell_ne in Hp by done. congruence. }
  destruct (floodLoop_terminates targetVal replaceVal Hne (length (concat g))
              (setCell g sx sy replaceVal) [mkPoint sx sy] 0) as [res Hres].
  { pose proof (countVal_setCell g sx sy targetVal replaceVal Hs Hne) as Hm.
    assert (countVal targetVal g ≤ length (concat g))%nat.
    { unfold countVal. apply length_filter. }
    simpl. lia. }
  exists res. split; [done|].
  assert (floodInvariant targetVal replaceVal g (mkPoint sx sy) res.1 [] None) as Hfin.
  { eapply floodLoop_inv; [done|exact Hinv|exact Hres]. }
  split.
  - intros x y Hc. eapply floodInv_complete in Hc; [|exact Hfin].
    by destruct Hc.
  - apply (inv_cells _ _ _ _ _ _ _ Hfin).
Qed.

(** ** Cut resolution *)

Lemma wf_grid_cellAt_inv (g : Grid) (x y : Z) :
  wf_grid g → is_Some (cellAt g x y) → inGrid x y = true.
Proof.
  intros [Hlen Hrows]. unfold cellAt.
  destruct ((0 <=? x) && (0 <=? y)) eqn:H0; [|by intros [? ?]].
  apply andb_prop in H0 as [?%Z.leb_le ?%Z.leb_le].
  destruct (g !! Z.to_nat y) as [row|] eqn:Hrow; simpl; [|by intros [? ?]].
  intros Hx%lookup_lt_is_Some.
  rewrite Forall_lookup in Hrows. rewrite (Hrows _ _ Hrow) in Hx.
  apply lookup_lt_Some in Hrow. apply inGrid_spec. lia.
Qed.

Lemma applyPowerUp_grid (t : Z) (ty : PowerUpType) (w : World) :
  grid (applyPowerUp t ty w) = grid w.
Proof. by destruct ty. Qed.

Lemma applyPowerUp_score (t : Z) (ty : PowerUpType) (w : World) :
  score (applyPowerUp t ty w) = score w.
Proof. by destruct ty. Qed.

Lemma applyAll_grid (t : Z) (ps : list PowerUp) (w : World) :
  grid (applyAll t ps w) = grid w.
Proof.
  unfold applyAll. revert w. induction ps as [|p ps IH]; intros w; [done|].
  simpl. by rewrite IH, applyPowerUp_grid.
Qed.

Lemma applyAll_score (t : Z) (ps : list PowerUp) (w : World) :
  score (applyAll t ps w) = score w.
Proof.
  unfold applyAll. revert w. induction ps as [|p ps IH]; intros w; [done|].
  simpl. by rewrite IH, applyPowerUp_score.
Qed.

(** The filter of [resolveFill] keeps the power-ups off owned cells and
    applies the others, each once, in order. *)
Lemma collectPowerUps_spec (t : Z) (ps : list PowerUp) (w : World) :
  Forall (λ p, 0 ≤ pu_y p ∧ is_Some (grid w !! Z.to_nat (pu_y p))) ps →
  collectPowerUps t ps w
  = Some (filter (λ p, onOwned (grid w) p = false) ps,
          applyAll t (filter (λ p, onOwned (grid w) p = true) ps) w).
Proof.
  revert w. induction ps as [|p ps IH]; intros w Hrows; [done|].
  apply Forall_cons in Hrows as [[Hy Hrow] Hrows]. simpl.
  assert ((0 <=? pu_y p) = true) as -> by (by apply Z.leb_le).
  rewrite (bool_decide_eq_true_2 _ Hrow). simpl.
  rewrite !filter_cons.
  change (bool_decide (cellAt (grid w) (pu_x p) (pu_y p) = Some 1))
    with (onOwned (grid w) p).
  destruct (onOwned (grid w) p) eqn:Hc.
  - rewrite (decide_False (P := true = false)) by done.
    rewrite (decide_True (P := true = true)) by done.
    rewrite IH by (by rewrite applyPowerUp_grid).
    rewrite applyPowerUp_grid. done.
  - rewrite (decide_True (P := false = false)) by done.
    rewrite (decide_False (P := false = true)) by done.
    rewrite IH by done. done.
Qed.

Lemma resolveWith_grid (Math_pow : Q → Q → Q) (t : Z) (cp : Q)
    (tempGrid : Grid) (w : World) :
  grid (resolveWith Math_pow t cp tempGrid w)
  = (captureRest tempGrid (grid w)).1.1.
Proof.
  unfold resolveWith.
  destruct (0 <? _); cbn [grid set_score play set_powerUps];
    by rewrite applyAll_grid.
Qed.

Lemma resolveWith_score (Math_pow : Q → Q → Q) (t : Z) (cp : Q)
    (tempGrid : Grid) (w : World) :
  score (resolveWith Math_pow t cp tempGrid w)
  = score w +
    (if 0 <? (captureRest tempGrid (grid w)).1.2
     then addedScore Math_pow (captureRest tempGrid (grid w)).1.2 cp else 0).
Proof.
  unfold resolveWith.
  destruct (0 <? _); cbn [score set_score play set_powerUps];
    rewrite applyAll_score; cbn [score set_grid]; lia.
Qed.

(** [resolveFill] on a world whose Boss and power-ups are on rows of the
    grid: the fill from the seed returns, and the world is [resolveWith] of
    the filled copy. *)
Lemma resolveFill_unfold (Math_pow : Q → Q → Q) (t : Z) (cp : Q) (w : World)
    (b : Enemy) :
  wf_grid (grid w) →
  find (λ e, bool_decide (e_type e = boss)) (enemies w) = Some b →
  0 ≤ pt_y (bossCell b) < GRID_HEIGHT →
  Forall (λ p, 0 ≤ pu_y p < GRID_HEIGHT) (powerUps w) →
  let seed := fillSeed (grid w) (pt_x (bossCell b)) (pt_y (bossCell b)) in
  ∃ tempGrid,
    resolveFill Math_pow t cp w = Some (resolveWith Math_pow t cp tempGrid w) ∧
    (∀ x y, connected (grid w) 0 (mkPoint seed.1 seed.2) (mkPoint x y) →
            cellAt tempGrid x y = Some 3) ∧
    (∀ x y, cellAt tempGrid x y = cellAt (grid w) x y ∨
            (connected (grid w) 0 (mkPoint seed.1 seed.2) (mkPoint x y) ∧
             cellAt tempGrid x y = Some 3)).
Proof.
  intros Hwf Hboss Hby Hpus seed.
  destruct (floodFill_spec (grid w) seed.1 seed.2 0 3) as (res & Hres & H1 & H2);
    [done|].
  exists res.1. split; [|done].
  unfold resolveFill. rewrite Hboss. simpl in Hby.
  assert ((0 <=? Qfloor (e_y b)) = true) as -> by (apply Z.leb_le; lia).
  rewrite (bool_decide_eq_true_2 _ (wf_grid_row _ _ Hwf Hby)).
  cbn [andb].
  change (fillSeed (grid w) (Qfloor (e_x b)) (Qfloor (e_y b))) with seed.
  rewrite Hres. cbn [mbind option_bind].
  destruct (captureRest res.1 (grid w)) as [[g n] pts] eqn:Hcap.
  rewrite collectPowerUps_spec.
  - unfold resolveWith. rewrite Hcap. simpl. by destruct (0 <? n).
  - simpl. eapply Forall_impl; [exact Hpus|]. intros p Hp. simpl in Hp.
    split; [lia|].
    assert (wf_grid g) as Hwfg.
    { replace g with (captureRest res.1 (grid w)).1.1 by (by rewrite Hcap).
      unfold captureRest.
      rewrite (forCells_proj (λ a, a.1.1) _
        (λ x y g, if bool_decide (cellAt res.1 x y = Some 0)
                  then setCell g x y 1 else g)).
      - simpl. rewrite forCells_allCells.
        generalize (grid w) Hwf. induction allCells as [|c l IH]; [done|].
        intros g0 Hg0. simpl. apply IH. case_bool_decide; [|done].
        by apply wf_grid_setCell.
      - intros x' y' [[g' c] pts']. simpl. by case_bool_decide. }
    by apply wf_grid_row.
Qed.

Lemma fillSeed_cases (g : Grid) (bx by_ : Z) :
  wf_grid g →
  let seed := fillSeed g bx by_ in
  (holds g 0 (mkPoint seed.1 seed.2) ∧
   (mkPoint seed.1 seed.2 = mkPoint bx by_ ∨
    adjacent (mkPoint bx by_) (mkPoint seed.1 seed.2))) ∨
  (seed = (bx, by_) ∧ cellAt g bx by_ ≠ Some 0 ∧
   ∀ d : Z * Z, d ∈ dirs → cellAt g (bx + d.1) (by_ + d.2) ≠ Some 0).
Proof.
  intros Hwf. unfold fillSeed. case_bool_decide as Hb; cbn [negb].
  - left. split; [|by left]. split; [|done]. simpl.
    apply (wf_grid_cellAt_inv g); [done|]. rewrite Hb. by eexists.
  - destruct (find (A := Z * Z) _ _) as [n|] eqn:Hfind; cbn [fst snd].
    + apply find_some in Hfind as [Hn Hc%bool_decide_eq_true]. left. split.
      * split; [|done]. simpl.
        apply (wf_grid_cellAt_inv g); [done|]. rewrite Hc. by eexists.
      * right. exists n. split; [|done]. by apply list_elem_of_In.
    + right. split; [done|]. split; [done|]. intros d Hd.
      apply list_elem_of_In in Hd.
      pose proof (find_none _ _ Hfind d Hd) as Hc. simpl in Hc.
      by apply bool_decide_eq_false in Hc.
Qed.

Lemma captureRest_owned (tempGrid g : Grid) :
  (∀ x y, cellAt tempGrid x y = Some 0 → cellAt g x y = Some 0) →
  countOwned (captureRest tempGrid g).1.1
  = countOwned g + (captureRest tempGrid g).1.2.
Proof.
  intros Hsub. rewrite !countOwned_spec, captureRest_count.
  rewrite (cellsWhere_sum _
    (λ x y, bool_decide (cellAt g x y = Some 1))
    (λ x y, bool_decide (cellAt tempGrid x y = Some 0))); [lia| |].
  - intros x y Hin. rewrite captureRest_cellAt, Hin. cbn [andb].
    destruct (bool_decide (cellAt tempGrid x y = Some 0)) eqn:Ht; cbn [andb].
    + apply bool_decide_eq_true in Ht. rewrite (Hsub _ _ Ht).
      rewrite (bool_decide_eq_true_2 (is_Some (Some 0))) by (by eexists).
      rewrite (bool_decide_eq_true_2 (Some 1 = Some 1)) by done.
      by rewrite orb_true_r.
    + by rewrite orb_false_r.
  - intros x y _ H1%bool_decide_eq_true H0%bool_decide_eq_true.
    apply Hsub in H0. congruence.
Qed.

(** C1. Cut resolution on a grid whose unowned cells at the Boss form one
    region: every unowned cell outside that region becomes owned, the region
    stays unowned, nothing else changes, all of it in the one call; and the
    count used for the score is the number of newly owned cells. *)
Theorem resolveFill_captures_enclosed (Math_pow : Q → Q → Q) (t : Z) (cp : Q)
    (w : World) (b : Enemy) :
  wf_grid (grid w) →
  find (λ e, bool_decide (e_type e = boss)) (enemies w) = Some b →
  0 ≤ pt_y (bossCell b) < GRID_HEIGHT →
  Forall (λ p, 0 ≤ pu_y p < GRID_HEIGHT) (powerUps w) →
  oneBossRegion (grid w) (bossCell b) →
  ∃ w', resolveFill Math_pow t cp w = Some w' ∧
    (∀ p, holds (grid w) 0 p → ¬ bossConnected (grid w) (bossCell b) p →
          cellAt (grid w') (pt_x p) (pt_y p) = Some 1) ∧
    (∀ p, bossConnected (grid w) (bossCell b) p →
          cellAt (grid w') (pt_x p) (pt_y p) = Some 0) ∧
    (∀ x y, cellAt (grid w) x y ≠ Some 0 →
            cellAt (grid w') x y = cellAt (grid w) x y) ∧
    let capturedCount := countOwned (grid w') - countOwned (grid w) in
    score w' = score w +
      (if 0 <? capturedCount then addedScore Math_pow capturedCount cp else 0).
Proof.
  intros Hwf Hboss Hby Hpus [[p0 Hp0] Huniq].
  destruct (resolveFill_unfold Math_pow t cp w b Hwf Hboss Hby Hpus)
    as (temp & Hres & H1 & H2).
  set (bc := bossCell b) in *.
  set (seed := fillSeed (grid w) (pt_x bc) (pt_y bc)) in *.
  set (sp := mkPoint seed.1 seed.2) in *.
  assert (holds (grid w) 0 sp ∧ (sp = bc ∨ adjacent bc sp)) as [Hsp Hnear].
  { destruct (fillSeed_cases (grid w) (pt_x bc) (pt_y bc) Hwf)
      as [[Hh Hn]|(Hs & Hb & Hnb)]; [done|]. exfalso.
    destruct Hp0 as (s & Hs' & Hc). apply connected_holds_start in Hc as [_ Hc].
    destruct Hs' as [->|(d & Hd & ->)]; [done|]. by apply (Hnb d). }
  assert (bossConnected (grid w) bc sp) as Hbsp.
  { exists sp. split; [done|]. by constructor. }
  assert (∀ p, bossConnected (grid w) bc p ↔ connected (grid w) 0 sp p) as Hiff.
  { intros p. split; [by apply Huniq|]. intros Hc. by exists sp. }
  assert (∀ x y, cellAt temp x y = Some 0 → cellAt (grid w) x y = Some 0) as Hsub.
  { intros x y Ht. destruct (H2 x y) as [Heq|[_ H3]]; congruence. }
  exists (resolveWith Math_pow t cp temp w). split; [done|].
  rewrite resolveWith_grid, resolveWith_score. repeat split.
  - intros [x y] [Hin Hv] Hnb. cbn [pt_x pt_y] in *.
    rewrite captureRest_cellAt, Hin, Hv.
    destruct (H2 x y) as [Heq|[Hc _]].
    + rewrite Heq, Hv. rewrite !bool_decide_eq_true_2; [done|by eexists|done].
    + destruct Hnb. by apply Hiff.
  - intros [x y] Hb. cbn [pt_x pt_y]. apply Hiff in Hb.
    rewrite captureRest_cellAt, (H1 _ _ Hb).
    rewrite (bool_decide_eq_false_2 (Some 3 = Some 0)) by done.
    rewrite andb_false_r.
    by apply connected_holds_end in Hb as [_ Hb].
  - intros x y Hv. rewrite captureRest_cellAt.
    case_bool_decide as Ht; [|by rewrite andb_false_r].
    destruct Hv. by apply Hsub.
  - rewrite (captureRest_owned temp (grid w) Hsub).
    replace (countOwned (grid w) + (captureRest temp (grid w)).1.2 - countOwned (grid w))
      with ((captureRest temp (grid w)).1.2) by lia.
    done.
Qed.

(** *** Power-ups *)

Lemma applyAll_snoc (t : Z) (ps : list PowerUp) (p : PowerUp) (w : World) :
  applyAll t (ps ++ [p]) w = applyPowerUp t (pu_type p) (applyAll t ps w).
Proof. unfold applyAll. by rewrite foldl_app. Qed.

Lemma applyAll_powerUps (t : Z) (ps : list PowerUp) (w : World) :
  powerUps (applyAll t ps w) = powerUps w.
Proof.
  induction ps as [|p ps IH] using rev_ind; [done|].
  rewrite applyAll_snoc. by destruct (pu_type p).
Qed.

Lemma applyAll_lives (t : Z) (ps : list PowerUp) (w : World) :
  lives (applyAll t ps w)
  = lives w + Z.of_nat (length (filter (λ p, pu_type p = EXTRA_LIFE) ps)).
Proof.
  induction ps as [|p ps IH] using rev_ind; [simpl; lia|].
  rewrite applyAll_snoc, filter_app, length_app, filter_cons.
  destruct (pu_type p) eqn:Hty; simpl; rewrite IH; simpl; lia.
Qed.

Lemma applyAll_timeLeft (t : Z) (ps : list PowerUp) (w : World) :
  (timeLeft (applyAll t ps w)
   == timeLeft w
      + 30 * inject_Z (Z.of_nat (length (filter (λ p, pu_type p = TIME_BONUS) ps))))%Q.
Proof.
  induction ps as [|p ps IH] using rev_ind; [simpl; ring|].
  rewrite applyAll_snoc, filter_app, length_app, filter_cons.
  destruct (pu_type p) eqn:Hty; simpl; rewrite ?Qred_correct, ?IH;
    rewrite ?Nat.add_0_r, ?Nat2Z.inj_add, ?inject_Z_plus; simpl; try reflexivity.
  ring.
Qed.

Lemma applyAll_frozen (t : Z) (ps : list PowerUp) (w : World) :
  frozen (applyAll t ps w)
  = if bool_decide (Exists (λ p, pu_type p = FREEZE) ps)
    then t + 5000 else frozen w.
Proof.
  induction ps as [|p ps IH] using rev_ind.
  { rewrite bool_decide_eq_false_2; [done|]. by intros ?%Exists_nil. }
  rewrite applyAll_snoc.
  destruct (pu_type p) eqn:Hty; simpl; rewrite ?IH.
  1: { rewrite bool_decide_eq_true_2; [done|].
       apply Exists_app. right. by apply Exists_cons_hd. }
  all: apply (f_equal (λ c : bool, if c then t + 5000 else frozen w));
    apply bool_decide_ext; rewrite Exists_app; split; [by left|];
    (intros [?|He]; [done|]);
    apply Exists_cons in He as [He|He%Exists_nil]; [congruence|done].
Qed.

Lemma applyAll_invincible (t : Z) (ps : list PowerUp) (w : World) :
  invincible (applyAll t ps w)
  = if bool_decide (Exists (λ p, pu_type p = INVINCIBLE) ps)
    then t + 7000 else invincible w.
Proof.
  induction ps as [|p ps IH] using rev_ind.
  { rewrite bool_decide_eq_false_2; [done|]. by intros ?%Exists_nil. }
  rewrite applyAll_snoc.
  destruct (pu_type p) eqn:Hty; simpl; rewrite ?IH.
  2: { rewrite bool_decide_eq_true_2; [done|].
       apply Exists_app. right. by apply Exists_cons_hd. }
  all: apply (f_equal (λ c : bool, if c then t + 7000 else invincible w));
    apply bool_decide_ext; rewrite Exists_app; split; [by left|];
    (intros [?|He]; [done|]);
    apply Exists_cons in He as [He|He%Exists_nil]; [congruence|done].
Qed.

(** The power-up effects of [resolveWith], in closed form. *)
Lemma resolveWith_effects (Math_pow : Q → Q → Q) (t : Z) (cp : Q)
    (tempGrid : Grid) (w : World) :
  let w' := resolveWith Math_pow t cp tempGrid w in
  let applied := filter (λ p, onOwned (grid w') p = true) (powerUps w) in
  powerUps w' = filter (λ p, onOwned (grid w') p = false) (powerUps w) ∧
  lives w' = lives w
    + Z.of_nat (length (filter (λ p, pu_type p = EXTRA_LIFE) applied)) ∧
  (timeLeft w' == timeLeft w
    + 30 * inject_Z (Z.of_nat (length (filter (λ p, pu_type p = TIME_BONUS) applied))))%Q ∧
  frozen w' = (if bool_decide (Exists (λ p, pu_type p = FREEZE) applied)
               then t + 5000 else frozen w) ∧
  invincible w' = (if bool_decide (Exists (λ p, pu_type p = INVINCIBLE) applied)
                   then t + 7000 else invincible w).
Proof.
  cbv zeta. rewrite resolveWith_grid.
  set (g := (captureRest tempGrid (grid w)).1.1).
  assert (∀ f : World → Z,
    (∀ v w0, f (set_powerUps v w0) = f w0) →
    (∀ v w0, f (set_score v w0) = f w0) →
    (∀ v w0, f (play v w0) = f w0) →
    f (resolveWith Math_pow t cp tempGrid w)
    = f (applyAll t (filter (λ p, onOwned g p = true) (powerUps w)) (set_grid g w)))
    as Hfield.
  { intros f H1 H2 H3. unfold resolveWith. fold g.
    destruct (0 <? _); by rewrite ?H2, ?H3, ?H1. }
  repeat split.
  - unfold resolveWith. fold g. by destruct (0 <? _).
  - rewrite (Hfield lives) by done. by rewrite applyAll_lives.
  - assert (timeLeft (resolveWith Math_pow t cp tempGrid w)
            = timeLeft (applyAll t (filter (λ p, onOwned g p = true) (powerUps w))
                                 (set_grid g w))) as ->.
    { unfold resolveWith. fold g. by destruct (0 <? _). }
    by rewrite applyAll_timeLeft.
  - rewrite (Hfield frozen) by done. by rewrite applyAll_frozen.
  - rewrite (Hfield invincible) by done. by rewrite applyAll_invincible.
Qed.

(** C9. In a cut resolution the live power-ups lying on cells that are owned
    afterwards are exactly those applied, each once, and exactly those
    dropped from the live set; a power-up whose cell went from unowned to
    owned is among them, one whose cell stays unowned is not. *)
Theorem resolveFill_powerUps (Math_pow : Q → Q → Q) (t : Z) (cp : Q)
    (w : World) (b : Enemy) :
  wf_grid (grid w) →
  find (λ e, bool_decide (e_type e = boss)) (enemies w) = Some b →
  0 ≤ pt_y (bossCell b) < GRID_HEIGHT →
  Forall (λ p, 0 ≤ pu_y p < GRID_HEIGHT) (powerUps w) →
  ∃ w', resolveFill Math_pow t cp w = Some w' ∧
    let applied := filter (λ p, onOwned (grid w') p = true) (powerUps w) in
    (∀ p, p ∈ powerUps w →
          cellAt (grid w) (pu_x p) (pu_y p) = Some 0 →
          cellAt (grid w') (pu_x p) (pu_y p) = Some 1 →
          p ∈ applied ∧ p ∉ powerUps w') ∧
    (∀ p, p ∈ powerUps w →
          cellAt (grid w') (pu_x p) (pu_y p) = Some 0 →
          p ∈ powerUps w' ∧ p ∉ applied) ∧
    powerUps w' = filter (λ p, onOwned (grid w') p = false) (powerUps w) ∧
    lives w' = lives w
      + Z.of_nat (length (filter (λ p, pu_type p = EXTRA_LIFE) applied)) ∧
    (timeLeft w' == timeLeft w
      + 30 * inject_Z (Z.of_nat (length (filter (λ p, pu_type p = TIME_BONUS) applied))))%Q ∧
    frozen w' = (if bool_decide (Exists (λ p, pu_type p = FREEZE) applied)
                 then t + 5000 else frozen w) ∧
    invincible w' = (if bool_decide (Exists (λ p, pu_type p = INVINCIBLE) applied)
                     then t + 7000 else invincible w).
Proof.
  intros Hwf Hboss Hby Hpus.
  destruct (resolveFill_unfold Math_pow t cp w b Hwf Hboss Hby Hpus)
    as (temp & Hres & _ & _).
  exists (resolveWith Math_pow t cp temp w). split; [done|].
  destruct (resolveWith_effects Math_pow t cp temp w)
    as (Hkept & Hlives & Htime & Hfrozen & Hinv).
  cbv zeta. rewrite Hkept.
  split; [|split; [|split; [|split; [|split; [|split]]]]];
    [| |reflexivity|exact Hlives|exact Htime|exact Hfrozen|exact Hinv].
  - intros p Hp H0 H1. split.
    + apply list_elem_of_filter. split; [|done]. unfold onOwned.
      by apply bool_decide_eq_true_2.
    + intros [Hf _]%list_elem_of_filter. unfold onOwned in Hf.
      rewrite bool_decide_eq_true_2 in Hf; done.
  - intros p Hp H0. split.
    + apply list_elem_of_filter. split; [|done]. unfold onOwned.
      apply bool_decide_eq_false_2. congruence.
    + intros [Hf _]%list_elem_of_filter. unfold onOwned in Hf.
      apply bool_decide_eq_true in Hf. congruence.
Qed.

(** *** The Boss walled in *)

Lemma cellsWhere_ext (P Q : Z → Z → bool) :
  (∀ x y, P x y = Q x y) → cellsWhere P = cellsWhere Q.
Proof.
  intros HPQ. apply Nat.le_antisymm; apply cellsWhere_mono; intros x y _.
  - by rewrite HPQ.
  - by rewrite HPQ.
Qed.

(** C3, as the code has it.  When neither the Boss's cell nor any of its four
    neighbours is unowned, the fill marks nothing and the resolution turns
    every unowned cell into an owned one; the power-ups on owned cells are
    applied and dropped, and the converted cells are scored. *)
Theorem resolveFill_boss_walled_in (Math_pow : Q → Q → Q) (t : Z) (cp : Q)
    (w : World) (b : Enemy) :
  wf_grid (grid w) →
  find (λ e, bool_decide (e_type e = boss)) (enemies w) = Some b →
  0 ≤ pt_y (bossCell b) < GRID_HEIGHT →
  Forall (λ p, 0 ≤ pu_y p < GRID_HEIGHT) (powerUps w) →
  cellAt (grid w) (pt_x (bossCell b)) (pt_y (bossCell b)) ≠ Some 0 →
  (∀ d : Z * Z, d ∈ dirs →
     cellAt (grid w) (pt_x (bossCell b) + d.1) (pt_y (bossCell b) + d.2) ≠ Some 0) →
  ∃ w', resolveFill Math_pow t cp w = Some w' ∧
    (∀ x y, cellAt (grid w') x y
            = if bool_decide (cellAt (grid w) x y = Some 0)
              then Some 1 else cellAt (grid w) x y) ∧
    let capturedCount :=
      Z.of_nat (cellsWhere (λ x y, bool_decide (cellAt (grid w) x y = Some 0))) in
    score w' = score w +
      (if 0 <? capturedCount then addedScore Math_pow capturedCount cp else 0) ∧
    let applied := filter (λ p, onOwned (grid w') p = true) (powerUps w) in
    powerUps w' = filter (λ p, onOwned (grid w') p = false) (powerUps w) ∧
    lives w' = lives w
      + Z.of_nat (length (filter (λ p, pu_type p = EXTRA_LIFE) applied)).
Proof.
  intros Hwf Hboss Hby Hpus Hb Hnb.
  destruct (resolveFill_unfold Math_pow t cp w b Hwf Hboss Hby Hpus)
    as (temp & Hres & _ & H2).
  assert (∀ x y, cellAt temp x y = cellAt (grid w) x y) as Hsame.
  { intros x y. destruct (H2 x y) as [Heq|[Hc _]]; [done|]. exfalso.
    apply connected_holds_start in Hc.
    destruct (fillSeed_cases (grid w) (pt_x (bossCell b)) (pt_y (bossCell b)) Hwf)
      as [[Hh Hn]|(Hs & _ & _)].
    - destruct Hn as [Heq|(d & Hd & Heq)]; rewrite Heq in Hh;
        destruct Hh as [_ Hh]; [done|].
      by apply (Hnb d).
    - rewrite Hs in Hc. by destruct Hc as [_ Hc]. }
  exists (resolveWith Math_pow t cp temp w). split; [done|].
  destruct (resolveWith_effects Math_pow t cp temp w) as (Hkept & Hlives & _).
  split; [|split; [|split]]; [| |exact Hkept|exact Hlives].
  - intros x y. rewrite resolveWith_grid, captureRest_cellAt, Hsame.
    case_bool_decide as Hv.
    + assert (inGrid x y = true) as ->.
      { apply (wf_grid_cellAt_inv (grid w)); [done|]. rewrite Hv. by eexists. }
      rewrite Hv. by rewrite bool_decide_eq_true_2 by (by eexists).
    + by rewrite andb_false_r.
  - rewrite resolveWith_score, captureRest_count.
    rewrite (cellsWhere_ext _ (λ x y, bool_decide (cellAt (grid w) x y = Some 0))).
    + done.
    + intros x y. by rewrite Hsame.
Qed.

(** ** Death *)

Lemma handleDeath_grid (w : World) :
  grid (handleDeath w) = clearTrail (grid w).
Proof. unfold handleDeath. simpl. by destruct (_ <=? _). Qed.

Lemma handleDeath_player (w : World) : player (handleDeath w) = spawnPlayer.
Proof. unfold handleDeath. simpl. by destruct (_ <=? _). Qed.

Lemma handleDeath_isCuttingMode (w : World) :
  isCuttingMode (handleDeath w) = false.
Proof. unfold handleDeath. simpl. by destruct (_ <=? _). Qed.

Lemma handleDeath_lives (w : World) : lives (handleDeath w) = lives w - 1.
Proof. unfold handleDeath. simpl. by destruct (_ <=? _). Qed.

Lemma handleDeath_sounds (w : World) :
  sounds (handleDeath w) = PlayDie :: sounds w.
Proof. unfold handleDeath. simpl. by destruct (_ <=? _). Qed.

Lemma handleDeath_invincible (w : World) :
  invincible (handleDeath w) = invincible w.
Proof. unfold handleDeath. simpl. by destruct (_ <=? _). Qed.

Lemma enemyStep_cases (t : Z) (e e' : Enemy) (w w' : World) :
  enemyStep t e w = Some (e', w') →
  e' = moveEnemy (grid w) e ∧ (w' = w ∨ w' = handleDeath w).
Proof.
  unfold enemyStep. destruct (_ && bool_decide _); [|done].
  repeat (destruct (_ && negb _) || destruct (negb _));
    intros [= <- <-]; split; auto.
Qed.

(** C8. A death, whatever its cause, turns every trail cell into an unowned
    one and leaves the other cells as they are, puts the player on the spawn
    cell of [initLevel], switches cutting-mode off and takes one life. *)
Theorem handleDeath_resets (w : World) :
  wf_grid (grid w) →
  (∀ x y, cellAt (grid (handleDeath w)) x y
          = if bool_decide (cellAt (grid w) x y = Some 2)
            then Some 0 else cellAt (grid w) x y) ∧
  player (handleDeath w) = spawnPlayer ∧
  (∀ rnd w0, player (initLevel rnd w0) = player (handleDeath w)) ∧
  isCuttingMode (handleDeath w) = false ∧
  lives (handleDeath w) = lives w - 1 ∧
  (∀ t e e' w', enemyStep t e w = Some (e', w') → w' = w ∨ w' = handleDeath w).
Proof.
  intros Hwf. repeat split.
  - intros x y. rewrite handleDeath_grid, clearTrail_cellAt.
    case_bool_decide as Hc; [|by rewrite andb_false_r].
    assert (inGrid x y = true) as ->; [|done].
    apply (wf_grid_cellAt_inv (grid w)); [done|]. rewrite Hc. by eexists.
  - apply handleDeath_player.
  - intros rnd w0. by rewrite handleDeath_player.
  - apply handleDeath_isCuttingMode.
  - apply handleDeath_lives.
  - intros t e e' w' Hstep. by apply enemyStep_cases in Hstep as [_ ?].
Qed.

(** ** Owned cells stay owned *)

Lemma ownedKept_refl (g : Grid) : ownedKept g g.
Proof. by intros x y. Qed.

Lemma ownedKept_trans (g1 g2 g3 : Grid) :
  ownedKept g1 g2 → ownedKept g2 g3 → ownedKept g1 g3.
Proof. intros H12 H23 x y Hc. by apply H23, H12. Qed.

Lemma ownedKept_count (g g' : Grid) :
  ownedKept g g' → countOwned g ≤ countOwned g'.
Proof.
  intros Hk. rewrite !countOwned_spec. apply inj_le, cellsWhere_mono.
  intros x y _ Hc%bool_decide_eq_true. apply bool_decide_eq_true_2. by apply Hk.
Qed.

Lemma ownedKept_clearTrail (g : Grid) : ownedKept g (clearTrail g).
Proof.
  intros x y Hc. rewrite clearTrail_cellAt, Hc.
  rewrite (bool_decide_eq_false_2 (Some 1 = Some 2)) by done.
  by rewrite andb_false_r.
Qed.

Lemma ownedKept_claimTrail (g : Grid) : ownedKept g (claimTrail g).1.
Proof.
  intros x y Hc. rewrite claimTrail_cellAt, Hc. by destruct (_ && _).
Qed.

Lemma ownedKept_captureRest (tempGrid g : Grid) :
  ownedKept g (captureRest tempGrid g).1.1.
Proof.
  intros x y Hc. rewrite captureRest_cellAt, Hc. by destruct (_ && _).
Qed.

Lemma ownedKept_setCell (g : Grid) (x y v : Z) :
  cellAt g x y ≠ Some 1 → ownedKept g (setCell g x y v).
Proof.
  intros Hn x' y' Hc. rewrite cellAt_setCell_ne; [done|]. congruence.
Qed.

Lemma collectPowerUps_grid (t : Z) (ps kept : list PowerUp) (w w' : World) :
  collectPowerUps t ps w = Some (kept, w') → grid w' = grid w.
Proof.
  revert kept w w'. induction ps as [|p ps IH]; intros kept w w'; simpl.
  - by intros [= _ <-].
  - destruct (_ && _); [|done]. case_bool_decide.
    + intros Hc%IH. by rewrite Hc, applyPowerUp_grid.
    + destruct (collectPowerUps t ps w) as [[k w1]|] eqn:Hrec; [|done].
      simpl. intros [= _ <-]. by eapply IH.
Qed.

Section Frames.

Variable Math_pow : Q → Q → Q.

Lemma resolveFill_ownedKept (t : Z) (cp : Q) (w w' : World) :
  resolveFill Math_pow t cp w = Some w' → ownedKept (grid w) (grid w').
Proof.
  unfold resolveFill. destruct (find _ _) as [b|]; [|intros [= <-]; apply ownedKept_refl].
  destruct (_ && _); [|done].
  destruct (floodFill _ _ _ _ _) as [filled|]; [|done]. cbn [mbind option_bind].
  destruct (captureRest filled.1 (grid w)) as [[g n] pts] eqn:Hcap.
  destruct (collectPowerUps _ _ _) as [[kept w1]|] eqn:Hcol; [|done].
  cbn [mbind option_bind]. apply collectPowerUps_grid in Hcol. simpl in Hcol.
  assert (ownedKept (grid w) g) as Hk.
  { replace g with (captureRest filled.1 (grid w)).1.1 by (by rewrite Hcap).
    apply ownedKept_captureRest. }
  destruct (0 <? n); intros [= <-]; simpl; by rewrite Hcol.
Qed.

Lemma movePlayer_ownedKept (i : Input) (w w' : World) :
  movePlayer Math_pow i w = Some w' → ownedKept (grid w) (grid w').
Proof.
  unfold movePlayer. destruct (inputDir i) as [dx dy].
  set (moving := negb (dx =? 0) || negb (dy =? 0)).
  destruct moving; [|intros [= <-]; apply ownedKept_refl]. cbn [grid set_player player].
  destruct (_ && _ && _ && _); [|intros [= <-]; apply ownedKept_refl].
  case_bool_decide as Hsafe.
  - destruct (bool_decide (cellAt (grid w) _ _ = Some 2)).
    + destruct (claimTrail (grid w)) as [g tr] eqn:Hct.
      assert (ownedKept (grid w) g) as Hk.
      { replace g with (claimTrail (grid w)).1 by (by rewrite Hct).
        apply ownedKept_claimTrail. }
      destruct tr.
      * intros Hr%resolveFill_ownedKept. simpl in Hr.
        by eapply ownedKept_trans.
      * intros [= <-]. simpl. exact Hk.
    + intros [= <-]. apply ownedKept_refl.
  - destruct (_ || _); intros [= <-]; simpl; [|apply ownedKept_refl].
    by apply ownedKept_setCell.
Qed.

Lemma stepEnemies_ownedKept (t : Z) (es es' : list Enemy) (w w' : World) :
  stepEnemies t es w = Some (es', w') → ownedKept (grid w) (grid w').
Proof.
  revert es' w w'. induction es as [|e es IH]; intros es' w w'; simpl.
  - intros [= _ <-]. apply ownedKept_refl.
  - destruct (enemyStep t e w) as [[e1 w1]|] eqn:Hstep; [|done]. simpl.
    destruct (stepEnemies t es w1) as [[es2 w2]|] eqn:Hrec; [|done]. simpl.
    intros [= _ <-]. apply IH in Hrec.
    apply enemyStep_cases in Hstep as [_ [->| ->]]; [done|].
    eapply ownedKept_trans; [|exact Hrec].
    rewrite handleDeath_grid. apply ownedKept_clearTrail.
Qed.

Lemma spawnPowerUp_grid (i : Input) (w : World) :
  grid (spawnPowerUp i w) = grid w.
Proof.
  unfold spawnPowerUp. destruct (Qltb _ _); [done|].
  destruct (_ <? _); [done|]. by case_bool_decide.
Qed.

Lemma calcPercent_grid (w : World) : grid (calcPercent w) = grid w.
Proof. unfold calcPercent. by destruct (Qle_bool _ _). Qed.

Lemma update_ownedKept (i : Input) (w w' : World) :
  update Math_pow i w = Some w' → ownedKept (grid w) (grid w').
Proof.
  unfold update.
  destruct (Qle_bool _ _); [intros [= <-]; apply ownedKept_refl|].
  set (w0 := spawnPowerUp i _).
  assert (grid w0 = grid w) as Hw0 by (unfold w0; by rewrite spawnPowerUp_grid).
  destruct (movePlayer Math_pow i w0) as [w1|] eqn:Hmove; [|done].
  cbn [mbind option_bind]. apply movePlayer_ownedKept in Hmove.
  rewrite Hw0 in Hmove.
  destruct (negb _).
  - unfold updateEnemies.
    destruct (stepEnemies (now i) (enemies w1) w1) as [[es w2]|] eqn:Hen; [|done].
    cbn [mbind option_bind]. intros [= <-]. rewrite calcPercent_grid.
    cbn [grid set_enemies].
    apply stepEnemies_ownedKept in Hen. by eapply ownedKept_trans.
  - cbn [mbind option_bind]. intros [= <-]. by rewrite calcPercent_grid.
Qed.

(** The spawn cell is owned when a level is entered and stays owned. *)
Lemma spawnOwned_level_entry (rnd : nat → Q) (t : Z) (w : World) :
  spawnOwned (grid (mountGameCanvas rnd t w)).
Proof. by_evaluation. Qed.

Lemma spawnOwned_update (i : Input) (w w' : World) :
  spawnOwned (grid w) → update Math_pow i w = Some w' → spawnOwned (grid w').
Proof. intros Hsp Hup. by apply (update_ownedKept i w w' Hup). Qed.

(** C6. No frame of the simulation (player step with trail deposit, cut
    resolution, enemy step with the deaths it causes) lowers the number of
    owned cells. *)
Theorem update_owned_monotone (i : Input) (w w' : World) :
  update Math_pow i w = Some w' →
  countOwned (grid w) ≤ countOwned (grid w').
Proof. intros Hup. by apply ownedKept_count, (update_ownedKept i w w'). Qed.

End Frames.

(** ** The player's step *)

Lemma Math_round_bounds (v : Q) (n : Z) :
  (0 <= v)%Q → (v <= inject_Z n)%Q → 0 ≤ Math_round v ≤ n.
Proof.
  intros H0 Hn. unfold Math_round. split.
  - change 0 with (Qfloor 0). apply Qfloor_resp_le. lra.
  - assert (Qfloor (v + 0.5) ≤ Qfloor (inject_Z n + 0.5)) as Hle.
    { apply Qfloor_resp_le. lra. }
    assert (Qfloor (inject_Z n + 0.5) = n) as Hn'; [|lia].
    unfold Qfloor, Qplus, inject_Z. simpl Qnum. simpl Qden.
    change (Z.pos (1 * 10)) with 10.
    Z.div_mod_to_equations. lia.
Qed.

Lemma step_not_zero (v : Q) (d : Z) :
  (Qred (v + inject_Z d * PLAYER_SPEED) == v)%Q → d = 0.
Proof.
  rewrite Qred_correct.
  intros Heq. assert (inject_Z d * PLAYER_SPEED == 0)%Q as H0 by lra.
  apply Qmult_integral in H0 as [H0|H0].
  - unfold Qeq in H0. simpl in H0. lia.
  - by vm_compute in H0.
Qed.

Section PlayerStep.

Variable Math_pow : Q → Q → Q.

(** C7. When a direction is held, the candidate position is inside the
    grid and its cell is not owned: the player advances onto that cell and it
    becomes trail exactly when cutting-mode is on or the player stands on a
    trail cell; otherwise neither the position nor the grid changes. *)
Theorem movePlayer_into_unowned (i : Input) (w : World) (dx dy : Z) :
  wf_grid (grid w) →
  inputDir i = (dx, dy) →
  (dx, dy) ≠ (0, 0) →
  let nextX := Qred (pl_x (player w) + inject_Z dx * PLAYER_SPEED) in
  let nextY := Qred (pl_y (player w) + inject_Z dy * PLAYER_SPEED) in
  (0 <= nextX)%Q → (nextX <= inject_Z (GRID_WIDTH - 1))%Q →
  (0 <= nextY)%Q → (nextY <= inject_Z (GRID_HEIGHT - 1))%Q →
  cellAt (grid w) (Math_round nextX) (Math_round nextY) ≠ Some 1 →
  let cutting :=
    isCuttingMode w = true ∨
    cellAt (grid w) (Math_round (pl_x (player w))) (Math_round (pl_y (player w)))
      = Some 2 in
  ∃ w', movePlayer Math_pow i w = Some w' ∧
    (cutting →
       pl_x (player w') = nextX ∧ pl_y (player w') = nextY ∧
       grid w' = setCell (grid w) (Math_round nextX) (Math_round nextY) 2 ∧
       cellAt (grid w') (Math_round nextX) (Math_round nextY) = Some 2) ∧
    (¬ cutting →
       pl_x (player w') = pl_x (player w) ∧ pl_y (player w') = pl_y (player w) ∧
       grid w' = grid w) ∧
    (((pl_x (player w') == nextX)%Q ∧ (pl_y (player w') == nextY)%Q ∧
      cellAt (grid w') (Math_round nextX) (Math_round nextY) = Some 2)
     ↔ cutting).
Proof.
  intros Hwf Hdir Hmove nextX nextY HX0 HX1 HY0 HY1 Hfree cutting.
  assert (negb (dx =? 0) || negb (dy =? 0) = true) as Hmoving.
  { destruct (dx =? 0) eqn:Hx; [|done]. destruct (dy =? 0) eqn:Hy; [|done].
    apply Z.eqb_eq in Hx, Hy. congruence. }
  assert (is_Some (cellAt (grid w) (Math_round nextX) (Math_round nextY))) as Hcell.
  { apply wf_grid_cellAt; [done|]. apply inGrid_spec.
    pose proof (Math_round_bounds _ _ HX0 HX1).
    pose proof (Math_round_bounds _ _ HY0 HY1). lia. }
  set (drawingb := isCuttingMode w ||
    bool_decide (cellAt (grid w) (Math_round (pl_x (player w)))
                        (Math_round (pl_y (player w))) = Some 2)).
  assert (drawingb = true ↔ cutting) as Hdrawing.
  { unfold drawingb, cutting. rewrite orb_true_iff, bool_decide_eq_true. done. }
  assert (movePlayer Math_pow i w
          = Some (if drawingb
                  then play PlayDraw
                         (set_grid (setCell (grid w) (Math_round nextX) (Math_round nextY) 2)
                            (set_player (mkPlayer nextX nextY (mkPoint dx dy)) w))
                  else set_player (mkPlayer (pl_x (player w)) (pl_y (player w))
                                            (mkPoint dx dy)) w)) as Hrun.
  { unfold movePlayer. rewrite Hdir, Hmoving.
    cbn [player set_player pl_x pl_y pl_dir grid isCuttingMode].
    fold nextX nextY.
    rewrite (proj2 (Qle_bool_iff 0 nextX) HX0), (proj2 (Qle_bool_iff _ _) HX1).
    rewrite (proj2 (Qle_bool_iff 0 nextY) HY0), (proj2 (Qle_bool_iff _ _) HY1).
    cbn [andb]. rewrite (bool_decide_eq_false_2 _ Hfree).
    fold drawingb. by destruct drawingb. }
  eexists. split; [exact Hrun|].
  assert (cutting → drawingb = true) as Hc1 by apply Hdrawing.
  assert (¬ cutting → drawingb = false) as Hc2.
  { intros Hn. destruct drawingb; [|done]. destruct Hn. by apply Hdrawing. }
  split; [|split].
  - intros Hc. rewrite (Hc1 Hc). simpl. repeat split.
    by apply cellAt_setCell_eq.
  - intros Hn. rewrite (Hc2 Hn). done.
  - split.
    + intros (Hx & Hy & _). apply Hdrawing. destruct drawingb; [done|]. exfalso.
      simpl in Hx, Hy. symmetry in Hx, Hy.
      apply step_not_zero in Hx, Hy. congruence.
    + intros Hc. rewrite (Hc1 Hc). simpl. repeat split; try reflexivity.
      by apply cellAt_setCell_eq.
Qed.

End PlayerStep.

(** ** Enemies *)

Lemma checkCollision_blocked (g : Grid) (x y : Q) :
  checkCollision g x y = blocked g (Qfloor x) (Qfloor y).
Proof. unfold checkCollision, blocked. by destruct (inGrid _ _). Qed.

Lemma blocked_clearTrail (g : Grid) (x y : Z) :
  blocked (clearTrail g) x y = blocked g x y.
Proof.
  unfold blocked. f_equal. rewrite clearTrail_cellAt.
  destruct (inGrid x y); [|done]. cbn [andb].
  destruct (bool_decide (cellAt g x y = Some 2)) eqn:Hc; [|done].
  apply bool_decide_eq_true in Hc. rewrite Hc.
  by rewrite !bool_decide_eq_false_2.
Qed.

Lemma moveEnemy_clearTrail (g : Grid) (e : Enemy) :
  moveEnemy (clearTrail g) e = moveEnemy g e.
Proof.
  unfold moveEnemy. by rewrite !checkCollision_blocked, !blocked_clearTrail.
Qed.

Lemma clearTrail_noTrail (g : Grid) : noTrail (clearTrail g).
Proof.
  intros x y Hin. rewrite clearTrail_cellAt, Hin. cbn [andb].
  destruct (bool_decide (cellAt g x y = Some 2)) eqn:Hc; [done|].
  by apply bool_decide_eq_false in Hc.
Qed.

Lemma quiet_refl (w : World) : quiet w w.
Proof. split; [|lia]. exists []. split; [done|]. constructor. Qed.

Lemma quiet_trans (w1 w2 w3 : World) : quiet w1 w2 → quiet w2 w3 → quiet w1 w3.
Proof.
  intros [(n1 & H1 & F1) L1] [(n2 & H2 & F2) L2]. split; [|lia].
  exists (n2 ++ n1). split.
  - by rewrite H2, H1, app_assoc.
  - by apply Forall_app.
Qed.

Lemma quiet_play (s : Sound) (w : World) : s ≠ PlayDie → quiet w (play s w).
Proof.
  intros Hs. split; [|simpl; lia]. exists [s]. split; [done|].
  by repeat constructor.
Qed.

Lemma quiet_same (w w' : World) :
  sounds w' = sounds w → lives w' = lives w → quiet w w'.
Proof.
  intros Hs Hl. split; [|lia]. exists []. split; [done|]. constructor.
Qed.

Lemma quiet_applyPowerUp (t : Z) (ty : PowerUpType) (w : World) :
  quiet w (applyPowerUp t ty w).
Proof.
  split; [|destruct ty; simpl; lia].
  exists [PlayClaim]. split; [by destruct ty|]. by repeat constructor.
Qed.

Lemma quiet_collectPowerUps (t : Z) (ps kept : list PowerUp) (w w' : World) :
  collectPowerUps t ps w = Some (kept, w') → quiet w w'.
Proof.
  revert kept w w'. induction ps as [|p ps IH]; intros kept w w'; simpl.
  - intros [= _ <-]. apply quiet_refl.
  - destruct (_ && _); [|done]. case_bool_decide.
    + intros Hc%IH. eapply quiet_trans; [apply quiet_applyPowerUp|exact Hc].
    + destruct (collectPowerUps t ps w) as [[k w1]|] eqn:Hrec; [|done].
      simpl. intros [= _ <-]. by eapply IH.
Qed.

Lemma enemyStep_safe (t : Z) (e e' : Enemy) (w w' : World) :
  noTrail (grid w) → player w = spawnPlayer → spawnOwned (grid w) →
  enemyStep t e w = Some (e', w') → w' = w.
Proof.
  intros Hnt Hpl Hsp. unfold enemyStep. rewrite Hpl.
  destruct (_ && bool_decide (is_Some _)); [|done].
  unfold spawnOwned in Hsp. rewrite (bool_decide_eq_true_2 _ Hsp).
  set (e1 := moveEnemy (grid w) e).
  assert (inGrid (Qfloor (e_x e1)) (Qfloor (e_y e1))
          && bool_decide (cellAt (grid w) (Qfloor (e_x e1)) (Qfloor (e_y e1)) = Some 2)
          = false) as ->.
  { destruct (inGrid _ _) eqn:Hin; [|done]. cbn [andb].
    apply bool_decide_eq_false_2. by apply Hnt. }
  cbn [andb negb]. destruct (_ && negb _); by intros [= _ <-].
Qed.

Lemma stepEnemies_safe (t : Z) (es es' : list Enemy) (w w' : World) :
  noTrail (grid w) → player w = spawnPlayer → spawnOwned (grid w) →
  stepEnemies t es w = Some (es', w') → w' = w.
Proof.
  intros Hnt Hpl Hsp. revert es'. induction es as [|e es IH]; intros es'; simpl.
  - by intros [= _ <-].
  - destruct (enemyStep t e w) as [[e1 w1]|] eqn:Hstep; [|done]. simpl.
    apply enemyStep_safe in Hstep as ->; [|done..].
    destruct (stepEnemies t es w) as [[es2 w2]|] eqn:Hrec; [|done]. simpl.
    intros [= _ <-]. by eapply IH.
Qed.

Lemma stepEnemies_one_death (t : Z) (es es' : list Enemy) (w w' : World) :
  spawnOwned (grid w) →
  stepEnemies t es w = Some (es', w') →
  (w' = w ∨ w' = handleDeath w) ∧ es' = moveEnemy (grid w) <$> es.
Proof.
  intros Hsp. revert es' w Hsp. induction es as [|e es IH]; intros es' w Hsp; simpl.
  - by intros [= <- <-]; auto.
  - destruct (enemyStep t e w) as [[e1 w1]|] eqn:Hstep; [|done]. simpl.
    destruct (stepEnemies t es w1) as [[es2 w2]|] eqn:Hrec; [|done]. simpl.
    intros [= <- <-].
    apply enemyStep_cases in Hstep as [-> [->| ->]].
    + apply IH in Hrec as [Hw ->]; [|done]. done.
    + assert (spawnOwned (grid (handleDeath w))) as Hsp'.
      { rewrite handleDeath_grid. by apply ownedKept_clearTrail. }
      pose proof Hrec as Hrec'.
      apply IH in Hrec' as [_ ->]; [|done].
      apply stepEnemies_safe in Hrec as ->.
      * split; [by right|]. f_equal. rewrite handleDeath_grid.
        apply list_fmap_ext. intros _ e' _. apply moveEnemy_clearTrail.
      * rewrite handleDeath_grid. apply clearTrail_noTrail.
      * apply handleDeath_player.
      * done.
Qed.

Lemma stepEnemies_moves (t : Z) (es es' : list Enemy) (w w' : World) :
  stepEnemies t es w = Some (es', w') → es' = moveEnemy (grid w) <$> es.
Proof.
  revert es' w w'. induction es as [|e es IH]; intros es' w w'; simpl.
  - by intros [= <- _].
  - destruct (enemyStep t e w) as [[e1 w1]|] eqn:Hstep; [|done]. simpl.
    destruct (stepEnemies t es w1) as [[es2 w2]|] eqn:Hrec; [|done]. simpl.
    intros [= <- _]. apply IH in Hrec as ->.
    apply enemyStep_cases in Hstep as [-> [->| ->]]; [done|].
    f_equal. rewrite handleDeath_grid.
    apply list_fmap_ext. intros _ e' _. apply moveEnemy_clearTrail.
Qed.

Lemma filter_PlayDie_nil (l : list Sound) :
  Forall (λ s, s ≠ PlayDie) l → filter (λ s, s = PlayDie) l = [].
Proof.
  induction 1 as [|s l Hs _ IH]; [done|].
  rewrite filter_cons, decide_False by done. done.
Qed.

Section EnemyPhase.

Variable Math_pow : Q → Q → Q.

Lemma quiet_resolveFill (t : Z) (cp : Q) (w w' : World) :
  resolveFill Math_pow t cp w = Some w' → quiet w w'.
Proof.
  unfold resolveFill. destruct (find _ _) as [b|]; [|intros [= <-]; apply quiet_refl].
  destruct (_ && _); [|done].
  destruct (floodFill _ _ _ _ _) as [filled|]; [|done]. cbn [mbind option_bind].
  destruct (captureRest filled.1 (grid w)) as [[g n] pts] eqn:Hcap.
  destruct (collectPowerUps _ _ _) as [[kept w1]|] eqn:Hcol; [|done].
  cbn [mbind option_bind]. apply quiet_collectPowerUps in Hcol.
  assert (quiet w w1) as Hq.
  { eapply quiet_trans; [|exact Hcol]. by apply quiet_same. }
  destruct (0 <? n); intros [= <-].
  - eapply quiet_trans; [exact Hq|].
    eapply (quiet_trans _ (play PlayClaim (set_powerUps kept w1))).
    + eapply quiet_trans; [|by apply quiet_play]. by apply quiet_same.
    + by apply quiet_same.
  - eapply quiet_trans; [exact Hq|]. by apply quiet_same.
Qed.

Lemma quiet_movePlayer (i : Input) (w w' : World) :
  movePlayer Math_pow i w = Some w' → quiet w w'.
Proof.
  unfold movePlayer. destruct (inputDir i) as [dx dy].
  set (moving := negb (dx =? 0) || negb (dy =? 0)).
  destruct moving; [|intros [= <-]; apply quiet_refl].
  cbn [grid set_player player].
  destruct (_ && _ && _ && _); [|intros [= <-]; by apply quiet_same].
  case_bool_decide as Hsafe.
  - destruct (bool_decide (cellAt (grid w) _ _ = Some 2)).
    + destruct (claimTrail (grid w)) as [g tr] eqn:Hct.
      destruct tr.
      * intros Hr%quiet_resolveFill.
        eapply quiet_trans; [|exact Hr]. by apply quiet_same.
      * intros [= <-]. by apply quiet_same.
    + intros [= <-]. by apply quiet_same.
  - destruct (_ || _); intros [= <-]; [|by apply quiet_same].
    eapply quiet_trans; [|by apply quiet_play]. by apply quiet_same.
Qed.

Lemma quiet_spawnPowerUp (i : Input) (w : World) : quiet w (spawnPowerUp i w).
Proof.
  unfold spawnPowerUp. destruct (Qltb _ _); [apply quiet_refl|].
  destruct (_ <? _); [apply quiet_refl|].
  case_bool_decide; [by apply quiet_same|apply quiet_refl].
Qed.

Lemma quiet_calcPercent (w : World) : quiet w (calcPercent w).
Proof.
  unfold calcPercent. set (w1 := set_percent _ w).
  destruct (Qle_bool _ _); [|by apply quiet_same].
  apply (quiet_trans _ (play PlayWin w1)); [|by apply quiet_same].
  apply (quiet_trans _ w1); [by apply quiet_same|by apply quiet_play].
Qed.

(** C10. With the spawn cell owned, a frame makes at most one death: it
    requests the death sound at most once and takes at most one life. *)
Theorem one_death_per_frame (i : Input) (w w' : World) :
  spawnOwned (grid w) →
  update Math_pow i w = Some w' →
  ∃ new, sounds w' = new ++ sounds w ∧
         (length (filter (λ s, s = PlayDie) new) ≤ 1)%nat ∧
         lives w - 1 ≤ lives w'.
Proof.
  intros Hsp. unfold update.
  destruct (Qle_bool _ _).
  { intros [= <-]. exists []. cbn. split; [done|]. split; lia. }
  set (w0 := spawnPowerUp i _).
  assert (quiet w w0) as Hq0.
  { eapply quiet_trans; [|apply quiet_spawnPowerUp]. by apply quiet_same. }
  assert (spawnOwned (grid w0)) as Hsp0.
  { unfold w0. by rewrite spawnPowerUp_grid. }
  destruct (movePlayer Math_pow i w0) as [w1|] eqn:Hmove; [|done].
  cbn [mbind option_bind].
  assert (quiet w w1) as Hq1.
  { eapply quiet_trans; [exact Hq0|]. by eapply quiet_movePlayer. }
  assert (spawnOwned (grid w1)) as Hsp1.
  { by apply (movePlayer_ownedKept Math_pow i w0 w1 Hmove). }
  assert (∀ w2, quiet w w2 →
    ∃ new, sounds (calcPercent w2) = new ++ sounds w ∧
           (length (filter (λ s, s = PlayDie) new) ≤ 1)%nat ∧
           lives w - 1 ≤ lives (calcPercent w2)) as Hquiet.
  { intros w2 Hq2.
    destruct (quiet_trans _ _ _ Hq2 (quiet_calcPercent w2)) as [(new & Hs & Hf) Hl].
    exists new. split; [done|]. rewrite (filter_PlayDie_nil _ Hf).
    split; [cbn [length]; lia|lia]. }
  destruct (negb _); cbn [mbind option_bind].
  2: { intros [= <-]. by apply Hquiet. }
  unfold updateEnemies.
  destruct (stepEnemies (now i) (enemies w1) w1) as [[es w2]|] eqn:Hen; [|done].
  cbn [mbind option_bind]. intros [= <-].
  apply stepEnemies_one_death in Hen as [Hw2 _]; [|done].
  destruct Hw2 as [->| ->].
  - apply Hquiet. eapply quiet_trans; [exact Hq1|]. by apply quiet_same.
  - destruct Hq1 as [(n1 & Hs1 & Hf1) Hl1].
    destruct (quiet_calcPercent (set_enemies es (handleDeath w1)))
      as [(n2 & Hs2 & Hf2) Hl2].
    exists (n2 ++ PlayDie :: n1). split; [|split].
    + rewrite Hs2.
      change (sounds (set_enemies es (handleDeath w1)))
        with (sounds (handleDeath w1)).
      rewrite handleDeath_sounds, Hs1. by rewrite <- app_assoc.
    + rewrite filter_app, filter_cons, decide_True by done.
      rewrite (filter_PlayDie_nil _ Hf1), (filter_PlayDie_nil _ Hf2).
      cbn [length app]. lia.
    + change (lives (set_enemies es (handleDeath w1)))
        with (lives (handleDeath w1)) in Hl2.
      rewrite handleDeath_lives in Hl2. lia.
Qed.

End EnemyPhase.

(** C5, as the code has it.  In the enemy phase of a tick ([updateEnemies],
    reached only when the timer has not run out and the enemies are not
    frozen) each enemy first advances by its velocity; then the velocity
    component of an axis is inverted exactly when the cell one more step
    along that axis is owned or outside the grid, independently of the other
    axis. *)
Theorem enemies_bounce_per_axis (t : Z) (w w' : World) :
  updateEnemies t w = Some w' →
  Forall2 (λ e e',
      e_x e' = Qred (e_x e + e_vx e) ∧
      e_y e' = Qred (e_y e + e_vy e) ∧
      e_vx e' = (if blocked (grid w) (Qfloor (e_x e' + e_vx e)) (Qfloor (e_y e'))
                 then e_vx e * -1 else e_vx e)%Q ∧
      e_vy e' = (if blocked (grid w) (Qfloor (e_x e')) (Qfloor (e_y e' + e_vy e))
                 then e_vy e * -1 else e_vy e)%Q)
    (enemies w) (enemies w').
Proof.
  unfold updateEnemies.
  destruct (stepEnemies t (enemies w) w) as [[es w1]|] eqn:Hen; [|done].
  cbn [mbind option_bind]. intros [= <-]. simpl.
  apply stepEnemies_moves in Hen as ->.
  apply Forall2_fmap_r, Forall_Forall2_diag, Forall_forall.
  intros e _. unfold moveEnemy. simpl.
  by rewrite !checkCollision_blocked.
Qed.

(** ** Scoring *)

(** Up to 80% owned the multiplier is 1: ten points per captured cell,
    whatever [Math.pow] is.  Above 80% the score is the floor of a product
    with [Math.pow 4 e] at a fractional exponent [e], a value the language
    only approximates. *)
Lemma addedScore_at_most_80 (Math_pow : Q → Q → Q) (capturedCount : Z)
    (currentPercent : Q) :
  (currentPercent <= 0.8)%Q →
  addedScore Math_pow capturedCount currentPercent = 10 * capturedCount.
Proof.
  intros Hp. unfold addedScore, Qltb.
  rewrite (proj2 (Qle_bool_iff _ _) Hp). cbn [negb].
  unfold Qfloor, Qmult, inject_Z. cbn [Qnum Qden].
  change (Z.pos (1 * 1 * 1)) with 1. rewrite Z.div_1_r. lia.
Qed.

Example addedScore_ten_cells_at_half :
  ∀ Math_pow, addedScore Math_pow 10 0.5 = 100.
Proof. intros Math_pow. by apply addedScore_at_most_80. Qed.


(** ** Level entry *)

Lemma mountGameCanvas_fields (rnd : nat → Q) (t : Z) (w : World) :
  lives (mountGameCanvas rnd t w) = 3 ∧
  score (mountGameCanvas rnd t w) = score w ∧
  level (mountGameCanvas rnd t w) = level w ∧
  gameState (mountGameCanvas rnd t w) = gameState w.
Proof. done. Qed.

(** C4, as the code has it.  Every entry into [PLAYING], the first of a
    session and each one after a victory, starts with three lives; the score
    and the level index are what the shell carries over. *)
Theorem level_entry_sets_three_lives (Math_pow : Q → Q → Q) (rnd : nat → Q)
    (t : Z) (w : World) :
  (gameState w = MENU →
   ∃ w', run Math_pow [StartGame; AssetsReady rnd t] w = Some w' ∧
         gameState w' = PLAYING ∧ lives w' = 3 ∧ score w' = 0 ∧ level w' = 0) ∧
  (gameState w = VICTORY →
   ∃ w', run Math_pow [NextLevel; AssetsReady rnd t] w = Some w' ∧
         gameState w' = PLAYING ∧ lives w' = 3 ∧ score w' = score w ∧
         level w' = level w + 1).
Proof.
  split; intros Hst; eexists; (split; [cbn [run step]; rewrite Hst; reflexivity|]);
    done.
Qed.

(** A Boss on an unowned cell has one region around it. *)
Lemma oneBossRegion_void (g : Grid) (bc : Point) :
  holds g 0 bc → oneBossRegion g bc.
Proof.
  intros Hbc.
  assert (∀ p, bossConnected g bc p → connected g 0 bc p) as Hto.
  { intros p (s & [->|Hadj] & Hc); [done|].
    eapply connected_trans; [|exact Hc].
    eapply connected_step; [by constructor|done|].
    by eapply connected_holds_start. }
  split.
  - exists bc, bc. split; [by left|by constructor].
  - intros p q Hp%Hto Hq%Hto.
    eapply connected_trans; [|exact Hq]. by apply connected_sym.
Qed.

(** ** The claims at the sample sessions *)

Lemma resolveFill_captures_enclosed_witness :
  wf_grid (grid enclosedLevel) ∧
  oneBossRegion (grid enclosedLevel) (mkPoint 32 24) ∧
  ∃ w', resolveFill sample_pow 2000 0.1 enclosedLevel = Some w' ∧
        cellAt (grid w') 32 24 = Some 0.
Proof.
  assert (wf_grid (grid enclosedLevel)) as Hwf.
  { apply (bool_decide_eq_true_1 _). vm_compute. reflexivity. }
  assert (holds (grid enclosedLevel) 0 (mkPoint 32 24)) as Hbc.
  { split; vm_compute; reflexivity. }
  assert (oneBossRegion (grid enclosedLevel) (mkPoint 32 24)) as Hone.
  { by apply oneBossRegion_void. }
  split; [exact Hwf|]. split; [exact Hone|].
  destruct (resolveFill_captures_enclosed sample_pow 2000 0.1 enclosedLevel
              (initBoss sampleSeed)) as (w' & Hres & _ & Hkeep & _).
  - exact Hwf.
  - by_evaluation.
  - by_evaluation.
  - repeat constructor; by_evaluation.
  - exact Hone.
  - exists w'. split; [exact Hres|].
    apply (Hkeep (mkPoint 32 24)). exists (mkPoint 32 24).
    split; [by left|by constructor].
Defined.

(** The situation of C3 arises in play.  At the end of the walled session
    the Boss is in the cell (54, 1), on the trail; the next frame closes the
    cut, and at its resolution that cell and its four neighbours are owned.
    The resolution then claims every unowned cell of the grid, applies the
    extra life that was live at (10, 10) and scores the 2847 cells: the level
    is won. *)
Example walled_boss_resolution_claims_all :
  match run sample_pow walledSession initialWorld with
  | Some w =>
      let g := (claimTrail (grid w)).1 in
      bossCell <$> find (λ e, bool_decide (e_type e = boss)) (enemies w)
      = Some (mkPoint 54 1) ∧
      cellAt g 54 1 = Some 1 ∧
      cellAt g 54 2 = Some 1 ∧ cellAt g 54 0 = Some 1 ∧
      cellAt g 55 1 = Some 1 ∧ cellAt g 53 1 = Some 1 ∧
      cellAt g 10 10 = Some 0 ∧
      pu_type <$> powerUps w = [EXTRA_LIFE] ∧ lives w = 3 ∧ score w = 0 ∧
      match step sample_pow (walledFrame 151) w with
      | Some w' =>
          cellAt (grid w') 10 10 = Some 1 ∧
          countOwned (grid w') = GRID_WIDTH * GRID_HEIGHT ∧
          powerUps w' = [] ∧ lives w' = 4 ∧ score w' = 28470 ∧
          gameState w' = VICTORY
      | None => False
      end
  | None => False
  end.
Proof. by_evaluation. Qed.

(** C3 fails on the code: on a grid on which the Boss's cell and its four
    neighbours are owned, [resolveFill] claims the 2847 unowned cells,
    applies the extra life at (10, 10) and scores. *)
Lemma resolveFill_walled_boss_not_noop :
  cellAt (grid walledLevel) 32 24 = Some 1 ∧
  cellAt (grid walledLevel) 32 25 = Some 1 ∧
  cellAt (grid walledLevel) 32 23 = Some 1 ∧
  cellAt (grid walledLevel) 33 24 = Some 1 ∧
  cellAt (grid walledLevel) 31 24 = Some 1 ∧
  cellAt (grid walledLevel) 10 10 = Some 0 ∧
  match resolveFill sample_pow 2000 0.1 walledLevel with
  | Some w' =>
      cellAt (grid w') 10 10 = Some 1 ∧
      countOwned (grid w') = countOwned (grid walledLevel) + 2847 ∧
      powerUps w' = [] ∧
      lives w' = lives walledLevel + 1 ∧
      score w' = score walledLevel + 28470
  | None => False
  end.
Proof. by_evaluation. Qed.

Lemma resolveFill_boss_walled_in_witness :
  wf_grid (grid walledLevel) ∧
  cellAt (grid walledLevel) 32 24 ≠ Some 0 ∧
  ∃ w', resolveFill sample_pow 2000 0.1 walledLevel = Some w' ∧
        cellAt (grid w') 10 10 = Some 1.
Proof.
  assert (wf_grid (grid walledLevel)) as Hwf.
  { apply (bool_decide_eq_true_1 _). vm_compute. reflexivity. }
  split; [exact Hwf|]. split; [by_evaluation|].
  destruct (resolveFill_boss_walled_in sample_pow 2000 0.1 walledLevel
              (initBoss sampleSeed)) as (w' & Hres & Hcells & _).
  - exact Hwf.
  - by_evaluation.
  - by_evaluation.
  - repeat constructor; by_evaluation.
  - by_evaluation.
  - intros d Hd. unfold dirs in Hd.
    repeat (apply elem_of_cons in Hd as [->|Hd]); [by_evaluation..|].
    by apply elem_of_nil in Hd.
  - exists w'. split; [exact Hres|]. rewrite Hcells.
    apply (f_equal (λ c : bool, if c then Some 1 else cellAt (grid walledLevel) 10 10)
             (x := bool_decide (cellAt (grid walledLevel) 10 10 = Some 0)) (y := true)).
    by_evaluation.
Defined.

Lemma resolveFill_powerUps_witness :
  wf_grid (grid enclosedLevel) ∧
  ∃ w', resolveFill sample_pow 2000 0.1 enclosedLevel = Some w' ∧
        powerUps w'
        = filter (λ p, onOwned (grid w') p = false) (powerUps enclosedLevel).
Proof.
  assert (wf_grid (grid enclosedLevel)) as Hwf.
  { apply (bool_decide_eq_true_1 _). vm_compute. reflexivity. }
  split; [exact Hwf|].
  destruct (resolveFill_powerUps sample_pow 2000 0.1 enclosedLevel
              (initBoss sampleSeed)) as (w' & Hres & _ & _ & Hkept & _).
  - exact Hwf.
  - by_evaluation.
  - by_evaluation.
  - repeat constructor; by_evaluation.
  - exists w'. split; [exact Hres|exact Hkept].
Defined.

(** The extra life of [enclosedLevel] lies on a captured cell: it is applied
    once and leaves the live set. *)
Example resolveFill_powerUps_enclosed :
  match resolveFill sample_pow 2000 0.1 enclosedLevel with
  | Some w' =>
      cellAt (grid enclosedLevel) 55 10 = Some 0 ∧
      cellAt (grid w') 55 10 = Some 1 ∧
      powerUps w' = [] ∧ lives w' = lives enclosedLevel + 1
  | None => False
  end.
Proof. by_evaluation. Qed.

(** C4 fails on the code: the winning session ends the first level with four
    lives, and the next level starts with three. *)
Lemma lives_not_kept_on_next_level :
  match run sample_pow winningSession initialWorld with
  | Some w =>
      gameState w = VICTORY ∧ level w = 0 ∧ lives w = 4 ∧ score w = 22540 ∧
      match run sample_pow [NextLevel; AssetsReady sampleSeed 6000] w with
      | Some w' =>
          gameState w' = PLAYING ∧ level w' = 1 ∧ lives w' = 3 ∧ score w' = 22540
      | None => False
      end
  | None => False
  end.
Proof. by_evaluation. Qed.

Lemma level_entry_sets_three_lives_witness :
  gameState (set_gameState VICTORY sampleLevel) = VICTORY ∧
  ∃ w', run sample_pow [NextLevel; AssetsReady sampleSeed 6000]
            (set_gameState VICTORY sampleLevel) = Some w' ∧
        gameState w' = PLAYING ∧ lives w' = 3 ∧
        score w' = score (set_gameState VICTORY sampleLevel) ∧
        level w' = level (set_gameState VICTORY sampleLevel) + 1.
Proof.
  split; [reflexivity|].
  apply (level_entry_sets_three_lives sample_pow sampleSeed 6000
           (set_gameState VICTORY sampleLevel)).
  reflexivity.
Defined.

(** C5 fails on the code: the cut of the winning session encloses the three
    minions, which stay where they are, on cells that are owned from then
    on. *)
Lemma enclosed_minions_on_owned_cells :
  match run sample_pow winningSession initialWorld with
  | Some w =>
      (λ e, (e_type e, Qfloor (e_x e), Qfloor (e_y e),
             cellAt (grid w) (Qfloor (e_x e)) (Qfloor (e_y e)))) <$> enemies w
      = [(boss, 55, 31, Some 0); (minion, 43, 35, Some 1);
         (minion, 43, 35, Some 1); (minion, 43, 35, Some 1)]
  | None => False
  end.
Proof. by_evaluation. Qed.

(** The bounce tests look one step ahead along each axis only: in the corner
    session a minion steps diagonally into the owned cell (32, 1). *)
Example minion_steps_diagonally_into_owned_cell :
  match run sample_pow cornerSession initialWorld with
  | Some w =>
      gameState w = PLAYING ∧
      match enemies w !! 1%nat with
      | Some e =>
          e_type e = minion ∧
          Qfloor (e_x e) = 32 ∧ Qfloor (e_y e) = 1 ∧
          cellAt (grid w) (Qfloor (e_x e)) (Qfloor (e_y e)) = Some 1
      | None => False
      end
  | None => False
  end.
Proof. by_evaluation. Qed.

Lemma enemies_bounce_per_axis_witness :
  ∃ w', updateEnemies 1016 sampleLevel = Some w' ∧
        length (enemies w') = length (enemies sampleLevel).
Proof.
  destruct (updateEnemies 1016 sampleLevel) as [w'|] eqn:Hup.
  - exists w'. split; [reflexivity|].
    symmetry. eapply Forall2_length.
    exact (enemies_bounce_per_axis 1016 sampleLevel w' Hup).
  - exfalso. vm_compute in Hup. discriminate.
Defined.

Lemma update_owned_monotone_witness :
  ∃ w', update sample_pow (mkInput 1016 (list_to_set ["ArrowDown"]) noSpawn)
               cuttingLevel = Some w' ∧
        countOwned (grid cuttingLevel) ≤ countOwned (grid w').
Proof.
  destruct (update sample_pow (mkInput 1016 (list_to_set ["ArrowDown"]) noSpawn)
              cuttingLevel) as [w'|] eqn:Hup.
  - exists w'. split; [reflexivity|].
    exact (update_owned_monotone sample_pow _ cuttingLevel w' Hup).
  - exfalso. vm_compute in Hup. discriminate.
Defined.

Lemma movePlayer_into_unowned_witness :
  wf_grid (grid cuttingLevel) ∧
  ∃ w', movePlayer sample_pow (mkInput 1016 (list_to_set ["ArrowDown"]) noSpawn)
                   cuttingLevel = Some w' ∧
        cellAt (grid w') 32 1 = Some 2.
Proof.
  assert (wf_grid (grid cuttingLevel)) as Hwf.
  { apply (bool_decide_eq_true_1 _). vm_compute. reflexivity. }
  split; [exact Hwf|].
  destruct (movePlayer_into_unowned sample_pow
              (mkInput 1016 (list_to_set ["ArrowDown"]) noSpawn) cuttingLevel 0 1)
    as (w' & Hres & Hcut & _).
  - exact Hwf.
  - by_evaluation.
  - discriminate.
  - by_evaluation.
  - by_evaluation.
  - by_evaluation.
  - by_evaluation.
  - by_evaluation.
  - exists w'. split; [exact Hres|].
    destruct Hcut as (_ & _ & _ & Hcell); [by left|]. exact Hcell.
Defined.

Lemma handleDeath_resets_witness :
  wf_grid (grid cuttingLevel) ∧
  player (handleDeath cuttingLevel) = spawnPlayer ∧
  lives (handleDeath cuttingLevel) = lives cuttingLevel - 1.
Proof.
  assert (wf_grid (grid cuttingLevel)) as Hwf.
  { apply (bool_decide_eq_true_1 _). vm_compute. reflexivity. }
  split; [exact Hwf|].
  destruct (handleDeath_resets cuttingLevel Hwf) as (_ & Hpl & _ & _ & Hl & _).
  by split.
Defined.

Lemma one_death_per_frame_witness :
  spawnOwned (grid ambushLevel) ∧
  ∃ w', update sample_pow (mkInput 1016 ∅ noSpawn) ambushLevel = Some w' ∧
        lives ambushLevel - 1 ≤ lives w'.
Proof.
  assert (spawnOwned (grid ambushLevel)) as Hsp by by_evaluation.
  split; [exact Hsp|].
  destruct (update sample_pow (mkInput 1016 ∅ noSpawn) ambushLevel)
    as [w'|] eqn:Hup.
  - exists w'. split; [reflexivity|].
    destruct (one_death_per_frame sample_pow _ ambushLevel w' Hsp Hup)
      as (new & _ & _ & Hl).
    exact Hl.
  - exfalso. vm_compute in Hup. discriminate.
Defined.

(** In the ambush both minions reach the trail cell in the same frame; the
    frame takes one life, not two, clears the trail and respawns the player. *)
Example one_death_in_ambush :
  match update sample_pow (mkInput 1016 ∅ noSpawn) ambushLevel with
  | Some w' =>
      lives ambushLevel = 3 ∧ lives w' = 2 ∧
      sounds w' = PlayDie :: sounds ambushLevel ∧
      cellAt (grid ambushLevel) 32 1 = Some 2 ∧ cellAt (grid w') 32 1 = Some 0 ∧
      player w' = spawnPlayer ∧ isCuttingMode w' = false ∧
      (λ e, (Qfloor (e_x e), Qfloor (e_y e))) <$> enemies w'
      = [(32, 24); (32, 1); (32, 1)]
  | None => False
  end.
Proof. by_evaluation. Qed.

(** * Invariants of a level *)

(** ** The grid *)

Lemma forCells_preserves {A : Type} (P : A → Prop) (body : Z → Z → A → A) (a : A) :
  (∀ x y a', inGrid x y = true → P a' → P (body x y a')) →
  P a → P (forCells body a).
Proof.
  intros Hbody Ha.
  destruct (forCells_ind body (λ _ a', P a') a Ha) as (l & _ & Hl); [|done].
  intros pre p a' _ Hin _ HP. by apply Hbody.
Qed.

Lemma validCells_setCell (g : Grid) (x y v : Z) :
  v = 0 ∨ v = 1 ∨ v = 2 → validCells g → validCells (setCell g x y v).
Proof.
  intros Hv Hg x' y' Hin.
  destruct (decide ((x', y') = (x, y))) as [[= -> ->]|Hne].
  - destruct (Hg x y Hin) as [Hc|[Hc|Hc]];
      rewrite cellAt_setCell_eq by (rewrite Hc; by eexists);
      destruct Hv as [->|[->| ->]]; auto.
  - rewrite cellAt_setCell_ne by done. by apply Hg.
Qed.

Lemma borderOwned_ownedKept (g g' : Grid) :
  ownedKept g g' → borderOwned g → borderOwned g'.
Proof. intros Hk Hb x y Hin Hbd. by apply Hk, Hb. Qed.

Lemma gridInv_setCell (g : Grid) (x y v : Z) :
  v = 0 ∨ v = 1 ∨ v = 2 → (cellAt g x y ≠ Some 1 ∨ v = 1) →
  gridInv g → gridInv (setCell g x y v).
Proof.
  intros Hv Hfree (Hwf & Hval & Hbd). split; [|split].
  - by apply wf_grid_setCell.
  - by apply validCells_setCell.
  - intros x' y' Hin Hb.
    destruct (decide ((x', y') = (x, y))) as [[= -> ->]|Hne].
    + destruct Hfree as [Hfree| ->]; [by destruct Hfree; apply Hbd|].
      apply cellAt_setCell_eq. by apply wf_grid_cellAt.
    + rewrite cellAt_setCell_ne by done. by apply Hbd.
Qed.

Lemma gridInv_clearTrail (g : Grid) : gridInv g → gridInv (clearTrail g).
Proof.
  intros Hg. unfold clearTrail.
  apply (forCells_preserves gridInv); [|done].
  intros x y g' _ Hg'. case_bool_decide as Hc; [|done].
  apply gridInv_setCell; [auto|left; congruence|done].
Qed.

Lemma gridInv_claimTrail (g : Grid) : gridInv g → gridInv (claimTrail g).1.
Proof.
  intros Hg. unfold claimTrail.
  apply (forCells_preserves (λ a : Grid * bool, gridInv a.1)); [|done].
  intros x y [g' t] _ Hg'. cbn [fst] in *. case_bool_decide as Hc; [|done].
  cbn [fst]. apply gridInv_setCell; auto.
Qed.

Lemma gridInv_captureRest (tempGrid g : Grid) :
  gridInv g → gridInv (captureRest tempGrid g).1.1.
Proof.
  intros Hg. unfold captureRest.
  apply (forCells_preserves (λ a : Grid * Z * list Point, gridInv a.1.1)); [|done].
  intros x y [[g' c] pts] _ Hg'. cbn [fst] in *. case_bool_decide as Hc; [|done].
  cbn [fst]. apply gridInv_setCell; auto.
Qed.

Lemma cellAt_replicate (x y : Z) :
  cellAt (replicate (Z.to_nat GRID_HEIGHT) (replicate (Z.to_nat GRID_WIDTH) 0)) x y
  = if inGrid x y then Some 0 else None.
Proof.
  unfold cellAt, inGrid.
  destruct (Z.leb_spec 0 x), (Z.leb_spec 0 y); cbn [andb];
    rewrite ?andb_false_r; try done.
  destruct (Z.ltb_spec y GRID_HEIGHT).
  - rewrite lookup_replicate_2 by lia. cbn [mbind option_bind].
    rewrite andb_true_r.
    destruct (Z.ltb_spec x GRID_WIDTH).
    + by rewrite lookup_replicate_2 by lia.
    + apply lookup_replicate_None. lia.
  - rewrite andb_false_r.
    assert (replicate (Z.to_nat GRID_HEIGHT) (replicate (Z.to_nat GRID_WIDTH) 0)
              !! Z.to_nat y = None) as ->; [|done].
    apply lookup_replicate_None. lia.
Qed.

Lemma newGrid_cellAt (x y : Z) :
  cellAt newGrid x y
  = if inGrid x y then (if onBorder x y then Some 1 else Some 0) else None.
Proof.
  unfold newGrid.
  pose proof (scan_cells (λ x y _, onBorder x y) 1
    (replicate (Z.to_nat GRID_HEIGHT) (replicate (Z.to_nat GRID_WIDTH) 0)) x y) as H.
  cbv beta in H. unfold onBorder in H at 1. rewrite H, cellAt_replicate.
  destruct (inGrid x y); [|done]. cbn [andb].
  destruct (onBorder x y); [|done].
  by rewrite bool_decide_eq_true_2 by (by eexists).
Qed.

Lemma gridInv_newGrid : gridInv newGrid.
Proof.
  split; [|split].
  - apply (bool_decide_eq_true_1 _). vm_compute. reflexivity.
  - intros x y Hin. rewrite newGrid_cellAt, Hin. destruct (onBorder x y); auto.
  - intros x y Hin Hb. by rewrite newGrid_cellAt, Hin, Hb.
Qed.

(** ** Enemies stay inside the border *)

Lemma Qfloor_ge (a : Z) (v : Q) : (inject_Z a <= v)%Q → a ≤ Qfloor v.
Proof. intros H. rewrite <- (Qfloor_Z a). by apply Qfloor_resp_le. Qed.

Lemma Qfloor_lt (b : Z) (v : Q) : (v < inject_Z b)%Q → Qfloor v < b.
Proof.
  intros H. rewrite Zlt_Qlt. eapply Qle_lt_trans; [apply Qfloor_le|done].
Qed.

Lemma Qfloor_ge_inv (a : Z) (v : Q) : a ≤ Qfloor v → (inject_Z a <= v)%Q.
Proof.
  intros H. eapply Qle_trans; [|apply Qfloor_le]. by rewrite <- Zle_Qle.
Qed.

Lemma Qfloor_lt_inv (b : Z) (v : Q) : Qfloor v < b → (v < inject_Z b)%Q.
Proof.
  intros H. eapply Qlt_le_trans; [apply Qlt_floor|]. rewrite <- Zle_Qle. lia.
Qed.

Lemma inside_Qeq (n : Z) (v v' : Q) : (v == v')%Q → inside n v → inside n v'.
Proof. intros Heq [H1 H2]. split; by rewrite <- Heq. Qed.

Lemma inside_floor (n : Z) (v : Q) : inside n v ↔ 1 ≤ Qfloor v ≤ n - 2.
Proof.
  unfold inside. split.
  - intros [H1 H2]. split.
    + by apply (Qfloor_ge 1).
    + apply Qfloor_lt in H2. lia.
  - intros [H1 H2]. split.
    + by apply (Qfloor_ge_inv 1).
    + apply Qfloor_lt_inv. lia.
Qed.

Lemma blocked_border (g : Grid) (x y : Z) :
  borderOwned g → blocked g x y = false →
  1 ≤ x ≤ GRID_WIDTH - 2 ∧ 1 ≤ y ≤ GRID_HEIGHT - 2.
Proof.
  intros Hbd Hb. unfold blocked in Hb. apply orb_false_elim in Hb as [Hin Hc].
  apply negb_false_iff in Hin. apply bool_decide_eq_false in Hc.
  destruct (onBorder x y) eqn:Hon; [by destruct Hc; apply Hbd|].
  apply inGrid_spec in Hin. unfold onBorder in Hon.
  repeat (apply orb_false_elim in Hon as [Hon ?]).
  rewrite Z.eqb_neq in *. lia.
Qed.

Lemma moveEnemy_inside (g : Grid) (e : Enemy) :
  borderOwned g → enemyInside e → enemyInside (moveEnemy g e).
Proof.
  intros Hbd (Hx & Hy & Hnx & Hny). unfold moveEnemy, enemyInside.
  cbn [e_x e_y e_vx e_vy].
  set (x' := Qred (e_x e + e_vx e)). set (y' := Qred (e_y e + e_vy e)).
  assert (x' == e_x e + e_vx e)%Q as Hx' by apply Qred_correct.
  assert (y' == e_y e + e_vy e)%Q as Hy' by apply Qred_correct.
  assert (inside GRID_WIDTH x') as Hix by (by apply (inside_Qeq _ (e_x e + e_vx e))).
  assert (inside GRID_HEIGHT y') as Hiy by (by apply (inside_Qeq _ (e_y e + e_vy e))).
  split; [done|]. split; [done|]. rewrite !checkCollision_blocked. split.
  - destruct (blocked g (Qfloor (x' + e_vx e)) (Qfloor y')) eqn:Hb.
    + apply (inside_Qeq _ (e_x e)); [|done]. rewrite Hx'. ring.
    + apply inside_floor. by apply (blocked_border g _ (Qfloor y')).
  - destruct (blocked g (Qfloor x') (Qfloor (y' + e_vy e))) eqn:Hb.
    + apply (inside_Qeq _ (e_y e)); [|done]. rewrite Hy'. ring.
    + apply inside_floor. by apply (blocked_border g (Qfloor x')).
Qed.

Lemma moveEnemy_type (g : Grid) (e : Enemy) : e_type (moveEnemy g e) = e_type e.
Proof. done. Qed.

Lemma initBoss_inside (rnd : nat → Q) : enemyInside (initBoss rnd).
Proof.
  unfold enemyInside, initBoss, inside. cbn [e_x e_y e_vx e_vy].
  destruct (Qltb 0.5 (rnd 0%nat)), (Qltb 0.5 (rnd 1%nat));
    repeat split; by vm_compute.
Qed.

Lemma initMinion_inside (rnd : nat → Q) (i : nat) :
  unitDraws rnd → enemyInside (initMinion rnd i).
Proof.
  intros Hrnd. unfold enemyInside, initMinion, inside. cbn [e_x e_y e_vx e_vy].
  destruct (Hrnd (2 + 4 * i)%nat) as [Hx0 Hx1].
  destruct (Hrnd (3 + 4 * i)%nat) as [Hy0 Hy1].
  change (inject_Z (GRID_WIDTH - 4)) with 60%Q.
  change (inject_Z (GRID_HEIGHT - 4)) with 44%Q.
  change (inject_Z (GRID_WIDTH - 1)) with 63%Q.
  change (inject_Z (GRID_HEIGHT - 1)) with 47%Q.
  unfold ENEMY_SPEED.
  destruct (Qltb 0.5 (rnd (4 + 4 * i)%nat)), (Qltb 0.5 (rnd (5 + 4 * i)%nat));
    repeat split; lra.
Qed.

(** ** The invariant along a frame *)

Lemma levelInv_ext (w w' : World) :
  grid w' = grid w →
  pl_x (player w') = pl_x (player w) → pl_y (player w') = pl_y (player w) →
  enemies w' = enemies w → powerUps w' = powerUps w →
  levelInv w → levelInv w'.
Proof.
  intros Hg Hx Hy He Hp [H1 H2 H3 H4 H5 H6 H7 H8].
  split; unfold playerInside, trailAnchored in *; rewrite ?Hg, ?Hx, ?Hy, ?He, ?Hp;
    done.
Qed.

Lemma noTrail_anchored (g : Grid) (p : Player) : noTrail g → trailAnchored g p.
Proof. intros Hnt (x & y & Hin & Hc). by destruct (Hnt x y Hin). Qed.

Lemma claimTrail_noTrail (g : Grid) : noTrail (claimTrail g).1.
Proof.
  intros x y Hin. rewrite claimTrail_cellAt, Hin. cbn [andb].
  destruct (bool_decide (cellAt g x y = Some 2)) eqn:Hc; [done|].
  by apply bool_decide_eq_false in Hc.
Qed.

Lemma captureRest_noTrail (tempGrid g : Grid) :
  noTrail g → noTrail (captureRest tempGrid g).1.1.
Proof.
  intros Hnt x y Hin. rewrite captureRest_cellAt.
  destruct (_ && _ && _); [done|]. by apply Hnt.
Qed.

Lemma onOwned_clearTrail (g : Grid) (p : PowerUp) :
  onOwned (clearTrail g) p = onOwned g p.
Proof.
  unfold onOwned. rewrite clearTrail_cellAt.
  destruct (inGrid _ _); [|done]. cbn [andb].
  destruct (bool_decide (cellAt g (pu_x p) (pu_y p) = Some 2)) eqn:Hc; [|done].
  apply bool_decide_eq_true in Hc. rewrite Hc.
  by rewrite !bool_decide_eq_false_2.
Qed.

Lemma applyPowerUp_player (t : Z) (ty : PowerUpType) (w : World) :
  player (applyPowerUp t ty w) = player w.
Proof. by destruct ty. Qed.

Lemma applyPowerUp_enemies (t : Z) (ty : PowerUpType) (w : World) :
  enemies (applyPowerUp t ty w) = enemies w.
Proof. by destruct ty. Qed.

Lemma applyAll_player (t : Z) (ps : list PowerUp) (w : World) :
  player (applyAll t ps w) = player w.
Proof.
  induction ps as [|p ps IH] using rev_ind; [done|].
  by rewrite applyAll_snoc, applyPowerUp_player.
Qed.

Lemma applyAll_enemies (t : Z) (ps : list PowerUp) (w : World) :
  enemies (applyAll t ps w) = enemies w.
Proof.
  induction ps as [|p ps IH] using rev_ind; [done|].
  by rewrite applyAll_snoc, applyPowerUp_enemies.
Qed.

Lemma resolveWith_player (Math_pow : Q → Q → Q) (t : Z) (cp : Q)
    (tempGrid : Grid) (w : World) :
  player (resolveWith Math_pow t cp tempGrid w) = player w.
Proof.
  unfold resolveWith.
  destruct (0 <? _); cbn [player set_score play set_powerUps];
    by rewrite applyAll_player.
Qed.

Lemma resolveWith_enemies (Math_pow : Q → Q → Q) (t : Z) (cp : Q)
    (tempGrid : Grid) (w : World) :
  enemies (resolveWith Math_pow t cp tempGrid w) = enemies w.
Proof.
  unfold resolveWith.
  destruct (0 <? _); cbn [enemies set_score play set_powerUps];
    by rewrite applyAll_enemies.
Qed.

Lemma hasBoss_find (es : list Enemy) :
  hasBoss es →
  ∃ b, find (λ e, bool_decide (e_type e = boss)) es = Some b ∧ b ∈ es.
Proof.
  unfold hasBoss. intros (b & Hb & Hin)%list_elem_of_fmap.
  destruct (find _ es) as [b'|] eqn:Hfind.
  - exists b'. split; [done|]. apply find_some in Hfind as [Hin' _].
    by apply list_elem_of_In.
  - apply list_elem_of_In in Hin.
    pose proof (find_none _ _ Hfind b Hin) as Hc. cbv beta in Hc.
    by rewrite bool_decide_eq_true_2 in Hc.
Qed.

(** Cut resolution on a grid without trail: it returns, and the invariant
    holds afterwards whatever cells the live power-ups were on. *)
Lemma levelInv_resolveFill (Math_pow : Q → Q → Q) (t : Z) (cp : Q) (w : World) :
  gridInv (grid w) → noTrail (grid w) → playerInside (player w) →
  Forall enemyInside (enemies w) → hasBoss (enemies w) →
  Forall powerUpInside (powerUps w) → (length (powerUps w) ≤ 3)%nat →
  ∃ w', resolveFill Math_pow t cp w = Some w' ∧ levelInv w'.
Proof.
  intros Hg Hnt Hpl Hen Hboss Hpu Hlen.
  destruct (hasBoss_find _ Hboss) as (b & Hfind & Hb).
  rewrite Forall_forall in Hen. destruct (Hen b Hb) as (_ & Hby & _).
  apply inside_floor in Hby.
  destruct (resolveFill_unfold Math_pow t cp w b) as (temp & Hres & _).
  - apply Hg.
  - done.
  - unfold bossCell. cbn [pt_y]. lia.
  - eapply Forall_impl; [exact Hpu|]. intros p [_ Hy]. lia.
  - exists (resolveWith Math_pow t cp temp w). split; [done|].
    destruct (resolveWith_effects Math_pow t cp temp w) as (Hkept & _).
    split; rewrite ?resolveWith_player, ?resolveWith_enemies, ?Hkept.
    + rewrite resolveWith_grid. by apply gridInv_captureRest.
    + done.
    + apply noTrail_anchored. rewrite resolveWith_grid.
      by apply captureRest_noTrail.
    + by apply Forall_forall.
    + done.
    + rewrite Forall_forall in Hpu. apply Forall_forall.
      intros p [_ Hp]%list_elem_of_filter. by apply Hpu.
    + etrans; [apply length_filter|done].
    + apply Forall_forall. by intros p [Hp _]%list_elem_of_filter.
Qed.

Lemma claimTrail_flag_false (g : Grid) :
  (claimTrail g).2 = false → noTrail g.
Proof.
  unfold claimTrail.
  destruct (forCells_ind
    (λ x y '(g, trailExists),
       if bool_decide (cellAt g x y = Some 2)
       then (setCell g x y 1, true) else (g, trailExists))
    (λ pre a,
       (∀ x y, mkPoint x y ∉ pre → cellAt a.1 x y = cellAt g x y) ∧
       (a.2 = false → ∀ x y, mkPoint x y ∈ pre → cellAt g x y ≠ Some 2))
    (g, false)) as (l & Hl & Hsame & Hflag).
  - split; [done|]. intros _ x y Hin. by apply elem_of_nil in Hin.
  - intros pre [px py] [g' t] Hfresh Hin _ [Hsame Hflag]. cbn [pt_x pt_y fst snd] in *.
    rewrite (Hsame px py Hfresh).
    destruct (bool_decide (cellAt g px py = Some 2)) eqn:Hc; cbn [fst snd].
    + split; [|done]. intros x y Hnot.
      rewrite cellAt_setCell_ne.
      * apply Hsame. intros Hpre. apply Hnot. apply elem_of_app. by left.
      * intros [= -> ->]. apply Hnot. apply elem_of_app. right. left.
    + split.
      * intros x y Hnot. apply Hsame. intros Hpre. apply Hnot.
        apply elem_of_app. by left.
      * intros Ht x y [Hpre|Hp]%elem_of_app; [by apply Hflag|].
        apply list_elem_of_singleton in Hp as [= -> ->].
        by apply bool_decide_eq_false in Hc.
  - intros Ht x y Hin. apply Hflag; [done|]. by apply (Hl (mkPoint x y)).
Qed.

Lemma onOwned_setCell_trail (g : Grid) (x y : Z) (p : PowerUp) :
  onOwned g p = false → onOwned (setCell g x y 2) p = false.
Proof.
  unfold onOwned. intros Hp%bool_decide_eq_false. apply bool_decide_eq_false_2.
  destruct (decide ((pu_x p, pu_y p) = (x, y))) as [[= <- <-]|Hne].
  - intros Hc. destruct (cellAt g (pu_x p) (pu_y p)) as [c|] eqn:Hold.
    + rewrite cellAt_setCell_eq in Hc by (rewrite Hold; by eexists). done.
    + assert (is_Some (cellAt (setCell g (pu_x p) (pu_y p) 2) (pu_x p) (pu_y p)))
        as Hs by (rewrite Hc; by eexists).
      apply cellAt_setCell_is_Some in Hs. rewrite Hold in Hs. by destruct Hs.
  - by rewrite cellAt_setCell_ne.
Qed.

Lemma playerInside_cell (g : Grid) (p : Player) :
  wf_grid g → playerInside p →
  inGrid (Math_round (pl_x p)) (Math_round (pl_y p)) = true ∧
  is_Some (cellAt g (Math_round (pl_x p)) (Math_round (pl_y p))).
Proof.
  intros Hwf (HX0 & HX1 & HY0 & HY1).
  assert (inGrid (Math_round (pl_x p)) (Math_round (pl_y p)) = true) as Hin.
  { apply inGrid_spec.
    pose proof (Math_round_bounds _ _ HX0 HX1).
    pose proof (Math_round_bounds _ _ HY0 HY1). lia. }
  split; [done|]. by apply wf_grid_cellAt.
Qed.

Section FrameInvariant.

Variable Math_pow : Q → Q → Q.

(** The player's step returns and keeps the invariant. *)
Lemma levelInv_movePlayer (i : Input) (w : World) :
  levelInv w → ∃ w', movePlayer Math_pow i w = Some w' ∧ levelInv w'.
Proof.
  intros Hinv. unfold movePlayer. destruct (inputDir i) as [dx dy].
  destruct (negb (dx =? 0) || negb (dy =? 0)); [|by exists w].
  cbn [player set_player grid pl_x pl_y pl_dir isCuttingMode].
  set (nextX := Qred (pl_x (player w) + inject_Z dx * PLAYER_SPEED)).
  set (nextY := Qred (pl_y (player w) + inject_Z dy * PLAYER_SPEED)).
  set (w1 := set_player (mkPlayer (pl_x (player w)) (pl_y (player w)) (mkPoint dx dy)) w).
  assert (levelInv w1) as Hinv1 by (by apply (levelInv_ext w)).
  destruct (Qle_bool 0 nextX && Qle_bool nextX (inject_Z (GRID_WIDTH - 1))
            && Qle_bool 0 nextY && Qle_bool nextY (inject_Z (GRID_HEIGHT - 1)))
    eqn:Hb; [|by exists w1].
  repeat (apply andb_prop in Hb as [Hb ?]).
  assert (playerInside (mkPlayer nextX nextY (mkPoint dx dy))) as Hnext.
  { repeat split; by apply Qle_bool_iff. }
  set (w2 := set_player (mkPlayer nextX nextY (mkPoint dx dy)) w1).
  destruct Hinv as [Hg Hpl Htr Hen Hboss Hpu Hlen Hun].
  destruct (playerInside_cell (grid w) _ (proj1 Hg) Hnext) as [Hin Hcell].
  cbn [pl_x pl_y] in Hin, Hcell.
  destruct (playerInside_cell (grid w) _ (proj1 Hg) Hpl) as [Hin0 _].
  case_bool_decide as Hsafe.
  - destruct (bool_decide (cellAt (grid w) (Math_round (pl_x (player w)))
                             (Math_round (pl_y (player w))) = Some 2)) eqn:Hdraw.
    + apply bool_decide_eq_true in Hdraw.
      destruct (claimTrail (grid w)) as [g tr] eqn:Hct.
      assert (g = (claimTrail (grid w)).1) as -> by (by rewrite Hct).
      destruct tr.
      * apply levelInv_resolveFill; cbn [grid set_grid player set_player enemies
                                           powerUps]; try done.
        -- by apply gridInv_claimTrail.
        -- apply claimTrail_noTrail.
      * exfalso. apply (claimTrail_flag_false (grid w)) in Hin0; [done|].
        by rewrite Hct.
    + apply bool_decide_eq_false in Hdraw. exists w2. split; [done|].
      split; try done. intros Hex. destruct Hdraw. by apply Htr.
  - destruct (isCuttingMode w || _).
    + eexists. split; [done|]. split; cbn [grid set_grid play player set_player
                                            enemies powerUps]; try done.
      * apply gridInv_setCell; auto.
      * intros _. cbn [pl_x pl_y]. by apply cellAt_setCell_eq.
      * eapply Forall_impl; [exact Hun|]. intros p Hp.
        by apply onOwned_setCell_trail.
    + by exists w1.
Qed.

(** A spawned power-up lands strictly inside the border, on an unowned
    cell, and only while fewer than three are live. *)
Lemma levelInv_spawnPowerUp (i : Input) (w : World) :
  unitDraws (random i) → levelInv w → levelInv (spawnPowerUp i w).
Proof.
  intros Hrnd Hinv. unfold spawnPowerUp.
  destruct (Qltb 0.005 (random i 0%nat)); [done|].
  destruct (2 <? Z.of_nat (length (powerUps w))) eqn:Hlen; [done|].
  apply Z.ltb_ge in Hlen.
  set (px := Qfloor (random i 2%nat * inject_Z (GRID_WIDTH - 2)) + 1).
  set (py := Qfloor (random i 3%nat * inject_Z (GRID_HEIGHT - 2)) + 1).
  case_bool_decide as Hcell; [|done].
  destruct Hinv as [Hg Hpl Htr Hen Hboss Hpu Hlive Hun].
  split; cbn [grid player enemies powerUps set_powerUps]; try done.
  - apply Forall_app. split; [done|]. apply Forall_singleton.
    unfold powerUpInside. cbn [pu_x pu_y].
    destruct (Hrnd 2%nat) as [Hx0 Hx1]. destruct (Hrnd 3%nat) as [Hy0 Hy1].
    assert (0 ≤ Qfloor (random i 2%nat * inject_Z (GRID_WIDTH - 2)) < GRID_WIDTH - 2).
    { change (inject_Z (GRID_WIDTH - 2)) with 62%Q.
      split; [apply Qfloor_ge; change (inject_Z 0) with 0%Q
             |apply Qfloor_lt; change (inject_Z (GRID_WIDTH - 2)) with 62%Q]; lra. }
    assert (0 ≤ Qfloor (random i 3%nat * inject_Z (GRID_HEIGHT - 2)) < GRID_HEIGHT - 2).
    { change (inject_Z (GRID_HEIGHT - 2)) with 46%Q.
      split; [apply Qfloor_ge; change (inject_Z 0) with 0%Q
             |apply Qfloor_lt; change (inject_Z (GRID_HEIGHT - 2)) with 46%Q]; lra. }
    unfold px, py. lia.
  - rewrite length_app. cbn [length]. lia.
  - apply Forall_app. split; [done|]. apply Forall_singleton.
    unfold onOwned. cbn [pu_x pu_y]. apply bool_decide_eq_false_2.
    rewrite Hcell. done.
Qed.

Lemma playerInside_spawn : playerInside spawnPlayer.
Proof. unfold playerInside, spawnPlayer. cbn [pl_x pl_y]. by_evaluation. Qed.

Lemma handleDeath_enemies (w : World) : enemies (handleDeath w) = enemies w.
Proof. unfold handleDeath. by destruct (_ <=? 0). Qed.

Lemma handleDeath_powerUps (w : World) : powerUps (handleDeath w) = powerUps w.
Proof. unfold handleDeath. by destruct (_ <=? 0). Qed.

Lemma levelInv_handleDeath (w : World) : levelInv w → levelInv (handleDeath w).
Proof.
  intros [Hg Hpl Htr Hen Hboss Hpu Hlive Hun].
  split; rewrite ?handleDeath_grid, ?handleDeath_player, ?handleDeath_enemies,
           ?handleDeath_powerUps.
  - by apply gridInv_clearTrail.
  - apply playerInside_spawn.
  - apply noTrail_anchored, clearTrail_noTrail.
  - exact Hen.
  - exact Hboss.
  - exact Hpu.
  - exact Hlive.
  - eapply Forall_impl; [exact Hun|]. intros p Hp. by rewrite onOwned_clearTrail.
Qed.

(** One enemy's step returns: the row [grid[playerGy]] it reads exists. *)
Lemma levelInv_enemyStep (t : Z) (e : Enemy) (w : World) :
  levelInv w → enemyInside e →
  ∃ e' w', enemyStep t e w = Some (e', w') ∧ levelInv w' ∧
           enemyInside e' ∧ e_type e' = e_type e.
Proof.
  intros Hinv He.
  assert (enemyInside (moveEnemy (grid w) e)) as He'.
  { apply moveEnemy_inside; [|done]. apply Hinv. }
  pose proof (levelInv_handleDeath w Hinv) as Hdead.
  destruct (playerInside_cell (grid w) (player w)) as [Hin _];
    [apply Hinv|apply Hinv|].
  apply inGrid_spec in Hin as [_ Hy].
  unfold enemyStep.
  replace (0 <=? Math_round (pl_y (player w))) with true
    by (symmetry; apply Z.leb_le; lia).
  rewrite (bool_decide_eq_true_2 _ (wf_grid_row (grid w) _ (proj1 (inv_grid w Hinv)) Hy)).
  cbn [andb].
  repeat match goal with
         | |- context [if ?b then _ else _] => destruct b
         end; eauto 10 using moveEnemy_type.
Qed.

Lemma levelInv_stepEnemies (t : Z) (es : list Enemy) (w : World) :
  levelInv w → Forall enemyInside es →
  ∃ es' w', stepEnemies t es w = Some (es', w') ∧ levelInv w' ∧
            Forall enemyInside es' ∧ e_type <$> es' = e_type <$> es.
Proof.
  revert w. induction es as [|e es IH]; intros w Hinv Hes.
  - exists [], w. split; [done|]. split; [done|]. split; [constructor|done].
  - apply Forall_cons in Hes as [He Hes].
    destruct (levelInv_enemyStep t e w Hinv He) as (e' & w1 & Hstep & Hinv1 & He' & Hty).
    destruct (IH w1 Hinv1 Hes) as (es' & w2 & Hrest & Hinv2 & Hes' & Htys).
    exists (e' :: es'), w2. cbn [stepEnemies mbind option_bind].
    rewrite Hstep. cbn [mbind option_bind]. rewrite Hrest. cbn [mbind option_bind].
    split; [done|]. split; [done|]. split; [by apply Forall_cons|].
    cbn [fmap list_fmap]. by f_equal.
Qed.

Lemma stepEnemies_enemies (t : Z) (es es' : list Enemy) (w w' : World) :
  stepEnemies t es w = Some (es', w') → enemies w' = enemies w.
Proof.
  revert w w' es'. induction es as [|e es IH]; intros w w' es' Hstep.
  - by injection Hstep as <- <-.
  - cbn [stepEnemies mbind option_bind] in Hstep.
    destruct (enemyStep t e w) as [[e1 wa]|] eqn:He; [|done].
    cbn [mbind option_bind] in Hstep.
    destruct (stepEnemies t es wa) as [[es1 wb]|] eqn:Hes; [|done].
    injection Hstep as <- <-. rewrite (IH _ _ _ Hes).
    apply enemyStep_cases in He as [_ [->| ->]]; [done|apply handleDeath_enemies].
Qed.

Lemma levelInv_updateEnemies (t : Z) (w : World) :
  levelInv w → ∃ w', updateEnemies t w = Some w' ∧ levelInv w'.
Proof.
  intros Hinv.
  destruct (levelInv_stepEnemies t (enemies w) w Hinv) as
    (es' & w1 & Hstep & Hinv1 & Hes' & Htys); [apply Hinv|].
  exists (set_enemies es' w1). unfold updateEnemies. rewrite Hstep.
  split; [done|].
  pose proof (stepEnemies_enemies _ _ _ _ _ Hstep) as Hsame.
  destruct Hinv1 as [Hg Hpl Htr Hen Hboss Hpu Hlive Hun].
  split; cbn [grid player enemies powerUps set_enemies]; try done.
  unfold hasBoss in *. rewrite Htys. by rewrite <- Hsame.
Qed.

Lemma levelInv_calcPercent (w : World) : levelInv w → levelInv (calcPercent w).
Proof.
  intros Hinv. unfold calcPercent.
  destruct (Qle_bool WIN_THRESHOLD _); by apply (levelInv_ext w).
Qed.

Lemma levelInv_update (i : Input) (w : World) :
  unitDraws (random i) → levelInv w →
  ∃ w', update Math_pow i w = Some w' ∧ levelInv w'.
Proof.
  intros Hrnd Hinv. unfold update.
  set (w1 := set_timeLeft _ (set_lastTime (now i) w)).
  assert (levelInv w1) as Hinv1 by (by apply (levelInv_ext w)).
  destruct (Qle_bool (timeLeft w1) 0).
  - eexists. split; [done|]. by apply (levelInv_ext w1).
  - pose proof (levelInv_spawnPowerUp i w1 Hrnd Hinv1) as Hinv2.
    destruct (levelInv_movePlayer i _ Hinv2) as (w3 & -> & Hinv3).
    cbn [mbind option_bind].
    destruct (negb (now i <? frozen w1)).
    + destruct (levelInv_updateEnemies (now i) w3 Hinv3) as (w4 & -> & Hinv4).
      cbn [mbind option_bind]. eexists. split; [done|].
      by apply levelInv_calcPercent.
    + cbn [mbind option_bind]. eexists. split; [done|].
      by apply levelInv_calcPercent.
Qed.

End FrameInvariant.

(** ** The invariant along a session *)

Lemma noTrail_newGrid : noTrail newGrid.
Proof.
  intros x y Hin. rewrite newGrid_cellAt, Hin. by destruct (onBorder x y).
Qed.

Lemma levelInv_initLevel (rnd : nat → Q) (w : World) :
  unitDraws rnd → levelInv (initLevel rnd w).
Proof.
  intros Hrnd. unfold initLevel.
  split; cbn [grid player enemies powerUps set_grid set_player set_isCuttingMode
              set_invincible set_frozen set_enemies set_powerUps set_timeLeft
              set_percent].
  - apply gridInv_newGrid.
  - apply playerInside_spawn.
  - apply noTrail_anchored, noTrail_newGrid.
  - apply Forall_cons. split; [apply initBoss_inside|].
    apply Forall_fmap, Forall_forall. intros k _. by apply initMinion_inside.
  - unfold hasBoss. cbn [fmap list_fmap initBoss e_type]. left.
  - constructor.
  - cbn [length]. lia.
  - constructor.
Qed.

Lemma levelInv_set_lives (v : Z) (w : World) :
  levelInv w → levelInv (set_lives v w).
Proof. by apply levelInv_ext. Qed.

Lemma levelInv_play (s : Sound) (w : World) : levelInv w → levelInv (play s w).
Proof. by apply levelInv_ext. Qed.

Lemma levelInv_set_isCuttingMode (b : bool) (w : World) :
  levelInv w → levelInv (set_isCuttingMode b w).
Proof. by apply levelInv_ext. Qed.

Lemma levelInv_mountGameCanvas (rnd : nat → Q) (t : Z) (w : World) :
  unitDraws rnd → levelInv (mountGameCanvas rnd t w).
Proof.
  intros Hrnd. unfold mountGameCanvas.
  by apply levelInv_set_lives, levelInv_initLevel.
Qed.

Lemma borderOwned_spawnOwned (g : Grid) : borderOwned g → spawnOwned g.
Proof.
  intros Hb.
  apply (Hb (Math_round (pl_x spawnPlayer)) (Math_round (pl_y spawnPlayer)));
    by_evaluation.
Qed.

Lemma applyPowerUp_gameState (t : Z) (ty : PowerUpType) (w : World) :
  gameState (applyPowerUp t ty w) = gameState w.
Proof. by destruct ty. Qed.

Lemma collectPowerUps_gameState (t : Z) (ps kept : list PowerUp) (w w' : World) :
  collectPowerUps t ps w = Some (kept, w') → gameState w' = gameState w.
Proof.
  revert kept w w'. induction ps as [|p ps IH]; intros kept w w'; simpl.
  - by intros [= _ <-].
  - destruct (_ && _); [|done]. case_bool_decide.
    + intros Hc%IH. by rewrite Hc, applyPowerUp_gameState.
    + destruct (collectPowerUps t ps w) as [[k w1]|] eqn:Hrec; [|done].
      simpl. intros [= _ <-]. by eapply IH.
Qed.

Lemma spawnPowerUp_gameState (i : Input) (w : World) :
  gameState (spawnPowerUp i w) = gameState w.
Proof.
  unfold spawnPowerUp.
  destruct (Qltb _ _); [done|]. destruct (_ <? _); [done|].
  by case_bool_decide.
Qed.

Lemma spawnPowerUp_lives (i : Input) (w : World) :
  lives (spawnPowerUp i w) = lives w.
Proof.
  unfold spawnPowerUp.
  destruct (Qltb _ _); [done|]. destruct (_ <? _); [done|].
  by case_bool_decide.
Qed.

Lemma handleDeath_still_playing (w : World) :
  gameState (handleDeath w) = PLAYING →
  gameState w = PLAYING ∧ 1 ≤ lives (handleDeath w).
Proof.
  unfold handleDeath.
  cbn [lives set_isCuttingMode set_player set_grid set_lives play].
  destruct (lives w - 1 <=? 0) eqn:Hl; [done|].
  apply Z.leb_gt in Hl. cbn [gameState lives set_isCuttingMode set_player
    set_grid set_lives play]. intros ->. split; [done|lia].
Qed.

Section SessionInvariant.

Variable Math_pow : Q → Q → Q.

Lemma resolveFill_gameState (t : Z) (cp : Q) (w w' : World) :
  resolveFill Math_pow t cp w = Some w' → gameState w' = gameState w.
Proof.
  unfold resolveFill. destruct (find _ _) as [b|]; [|by intros [= <-]].
  destruct (_ && _); [|done].
  destruct (floodFill _ _ _ _ _) as [filled|]; [|done]. cbn [mbind option_bind].
  destruct (captureRest filled.1 (grid w)) as [[g n] pts] eqn:Hcap.
  destruct (collectPowerUps _ _ _) as [[kept w1]|] eqn:Hcol; [|done].
  cbn [mbind option_bind]. apply collectPowerUps_gameState in Hcol.
  destruct (0 <? n); intros [= <-]; exact Hcol.
Qed.

Lemma movePlayer_gameState (i : Input) (w w' : World) :
  movePlayer Math_pow i w = Some w' → gameState w' = gameState w.
Proof.
  unfold movePlayer. destruct (inputDir i) as [dx dy].
  set (moving := negb (dx =? 0) || negb (dy =? 0)).
  destruct moving; [|by intros [= <-]].
  cbn [grid set_player player].
  destruct (_ && _ && _ && _); [|by intros [= <-]].
  case_bool_decide as Hsafe.
  - destruct (bool_decide (cellAt (grid w) _ _ = Some 2)).
    + destruct (claimTrail (grid w)) as [g tr] eqn:Hct.
      destruct tr.
      * by intros Hr%resolveFill_gameState.
      * by intros [= <-].
    + by intros [= <-].
  - destruct (_ || _); by intros [= <-].
Qed.

(** A frame that leaves the level in play has left the player a life and the
    owned fraction under the threshold. *)
Lemma update_still_playing (i : Input) (w w' : World) :
  spawnOwned (grid w) → update Math_pow i w = Some w' →
  gameState w' = PLAYING → 1 ≤ lives w →
  1 ≤ lives w' ∧ (ownedFraction (grid w') < WIN_THRESHOLD)%Q.
Proof.
  intros Hsp. unfold update.
  destruct (Qle_bool _ _); [by intros [= <-]|].
  set (w0 := spawnPowerUp i _).
  assert (lives w0 = lives w) as Hl0 by (unfold w0; by rewrite spawnPowerUp_lives).
  assert (spawnOwned (grid w0)) as Hsp0.
  { unfold w0. by rewrite spawnPowerUp_grid. }
  destruct (movePlayer Math_pow i w0) as [w1|] eqn:Hmove; [|done].
  cbn [mbind option_bind].
  pose proof (quiet_movePlayer Math_pow i w0 w1 Hmove) as [_ Hl1].
  assert (spawnOwned (grid w1)) as Hsp1.
  { by apply (movePlayer_ownedKept Math_pow i w0 w1 Hmove). }
  assert (∀ w2, (gameState w2 = PLAYING → 1 ≤ lives w2) →
    calcPercent w2 = w' → gameState w' = PLAYING →
    1 ≤ lives w' ∧ (ownedFraction (grid w') < WIN_THRESHOLD)%Q) as Hlast.
  { intros w2 Hl2. unfold calcPercent.
    destruct (Qle_bool WIN_THRESHOLD _) eqn:Hwin; [by intros <-|].
    intros <-. cbn [gameState lives grid set_percent]. intros Hpl.
    split; [by apply Hl2|].
    apply Qnot_le_lt. intros Hle%Qle_bool_iff.
    unfold ownedFraction in Hle. by rewrite Hle in Hwin. }
  destruct (negb _); cbn [mbind option_bind].
  2: { intros [= Hw'] Hpl Hl. apply (Hlast w1); [|done..]. lia. }
  unfold updateEnemies.
  destruct (stepEnemies (now i) (enemies w1) w1) as [[es w2]|] eqn:Hen; [|done].
  cbn [mbind option_bind]. intros [= Hw'] Hpl Hl.
  apply stepEnemies_one_death in Hen as [Hw2 _]; [|done].
  apply (Hlast (set_enemies es w2)); [|done..].
  cbn [gameState lives set_enemies].
  destruct Hw2 as [->| ->]; [lia|].
  by intros [_ ?]%handleDeath_still_playing.
Qed.

Lemma playInv_update (i : Input) (w : World) :
  unitDraws (random i) → playInv w →
  ∃ w', update Math_pow i w = Some w' ∧ (gameState w' = PLAYING → playInv w').
Proof.
  intros Hrnd (Hinv & Hl & _).
  destruct (levelInv_update Math_pow i w Hrnd Hinv) as (w' & Hup & Hinv').
  exists w'. split; [done|]. intros Hpl. split; [done|].
  eapply update_still_playing; [|exact Hup|done..].
  apply borderOwned_spawnOwned, Hinv.
Qed.

Lemma playInv_mountGameCanvas (rnd : nat → Q) (t : Z) (w : World) :
  unitDraws rnd → playInv (mountGameCanvas rnd t w).
Proof.
  intros Hrnd. split; [by apply levelInv_mountGameCanvas|].
  split; [by_evaluation|].
  change (grid (mountGameCanvas rnd t w)) with newGrid. by_evaluation.
Qed.

Lemma playInv_play (s : Sound) (w : World) : playInv w → playInv (play s w).
Proof. intros (Hl & Hlives & Hfrac). split; [by apply levelInv_play|done]. Qed.

Lemma playInv_set_isCuttingMode (b : bool) (w : World) :
  playInv w → playInv (set_isCuttingMode b w).
Proof.
  intros (Hl & Hlives & Hfrac). split; [by apply levelInv_set_isCuttingMode|done].
Qed.

Lemma playInv_step (ev : Event) (w : World) :
  validEvent ev → (gameState w = PLAYING → playInv w) →
  ∃ w', step Math_pow ev w = Some w' ∧ (gameState w' = PLAYING → playInv w').
Proof.
  intros Hev Hinv. unfold step.
  destruct ev as [|rnd t| | | |i]; destruct (gameState w) eqn:Hst;
    try (by exists w; split; [done|rewrite Hst]);
    try (by eexists; split; [done|]).
  - eexists. split; [done|]. intros _.
    by apply playInv_play, playInv_mountGameCanvas.
  - eexists. split; [done|]. intros _.
    by apply playInv_set_isCuttingMode, Hinv.
  - by apply playInv_update, Hinv.
Qed.

End SessionInvariant.

(** ** What a frame leaves alone *)

(** A relation between worlds that every elementary change of the player's
    step respects is respected by the step. *)
Section Respects.

Variable Math_pow : Q → Q → Q.
Variable R : World → World → Prop.
Variable t : Z.

Hypothesis R_refl : ∀ w, R w w.
Hypothesis R_trans : ∀ w1 w2 w3, R w1 w2 → R w2 w3 → R w1 w3.
Hypothesis R_player : ∀ p w, R w (set_player p w).
Hypothesis R_grid : ∀ g w, R w (set_grid g w).
Hypothesis R_powerUps : ∀ ps w, R w (set_powerUps ps w).
Hypothesis R_draw : ∀ w, R w (play PlayDraw w).
Hypothesis R_claim : ∀ w, R w (play PlayClaim w).
Hypothesis R_apply : ∀ ty w, R w (applyPowerUp t ty w).
Hypothesis R_score : ∀ n cp w,
  0 < n → R w (set_score (score w + addedScore Math_pow n cp) w).

Lemma collectPowerUps_respects (ps kept : list PowerUp) (w w' : World) :
  collectPowerUps t ps w = Some (kept, w') → R w w'.
Proof.
  revert kept w w'. induction ps as [|p ps IH]; intros kept w w'; simpl.
  - intros [= _ <-]. apply R_refl.
  - destruct (_ && _); [|done]. case_bool_decide.
    + intros Hc%IH. eapply R_trans; [apply R_apply|exact Hc].
    + destruct (collectPowerUps t ps w) as [[k w1]|] eqn:Hrec; [|done].
      simpl. intros [= _ <-]. by eapply IH.
Qed.

Lemma resolveFill_respects (cp : Q) (w w' : World) :
  resolveFill Math_pow t cp w = Some w' → R w w'.
Proof.
  unfold resolveFill. destruct (find _ _) as [b|]; [|intros [= <-]; apply R_refl].
  destruct (_ && _); [|done].
  destruct (floodFill _ _ _ _ _) as [filled|]; [|done]. cbn [mbind option_bind].
  destruct (captureRest filled.1 (grid w)) as [[g n] pts] eqn:Hcap.
  destruct (collectPowerUps _ _ _) as [[kept w1]|] eqn:Hcol; [|done].
  cbn [mbind option_bind]. apply collectPowerUps_respects in Hcol.
  assert (R w (set_powerUps kept w1)) as Hq.
  { eapply R_trans; [apply (R_grid g)|]. eapply R_trans; [exact Hcol|].
    apply R_powerUps. }
  destruct (0 <? n) eqn:Hn; intros [= <-]; [|exact Hq].
  apply Z.ltb_lt in Hn.
  eapply R_trans; [exact Hq|]. eapply R_trans; [apply R_claim|].
  apply (R_score n cp (play PlayClaim (set_powerUps kept w1)) Hn).
Qed.

Lemma movePlayer_respects (i : Input) (w w' : World) :
  now i = t → movePlayer Math_pow i w = Some w' → R w w'.
Proof.
  intros Ht. unfold movePlayer. destruct (inputDir i) as [dx dy].
  set (moving := negb (dx =? 0) || negb (dy =? 0)).
  destruct moving; [|intros [= <-]; apply R_refl].
  cbn [grid set_player player].
  set (w1 := set_player _ w).
  assert (R w w1) as H1 by apply R_player.
  destruct (_ && _ && _ && _); [|by intros [= <-]].
  set (w2 := set_player _ w1).
  assert (R w w2) as H2 by (eapply R_trans; [exact H1|apply R_player]).
  case_bool_decide as Hsafe.
  - destruct (bool_decide (cellAt (grid w) _ _ = Some 2)); [|by intros [= <-]].
    destruct (claimTrail (grid w)) as [g tr] eqn:Hct.
    assert (R w (set_grid g w2)) as H3 by (eapply R_trans; [exact H2|apply R_grid]).
    destruct tr; [|by intros [= <-]].
    rewrite Ht. intros Hr%resolveFill_respects. by eapply R_trans.
  - destruct (_ || _); [|by intros [= <-]].
    intros [= <-]. eapply R_trans; [exact H2|].
    eapply R_trans; [apply R_grid|apply R_draw].
Qed.

Lemma spawnPowerUp_respects (i : Input) (w : World) : R w (spawnPowerUp i w).
Proof.
  unfold spawnPowerUp.
  destruct (Qltb _ _); [apply R_refl|]. destruct (_ <? _); [apply R_refl|].
  case_bool_decide; [apply R_powerUps|apply R_refl].
Qed.

End Respects.

Section Unchanged.

Variable Math_pow : Q → Q → Q.

Lemma movePlayer_enemies (i : Input) (w w' : World) :
  movePlayer Math_pow i w = Some w' → enemies w' = enemies w.
Proof.
  apply (movePlayer_respects Math_pow (λ w w', enemies w' = enemies w) (now i));
    try done.
  - intros w1 w2 w3 H1 H2. by rewrite H2.
  - by intros [] w0.
Qed.

Lemma spawnPowerUp_enemies (i : Input) (w : World) :
  enemies (spawnPowerUp i w) = enemies w.
Proof. by apply (spawnPowerUp_respects (λ w w', enemies w' = enemies w)). Qed.

Lemma calcPercent_enemies (w : World) : enemies (calcPercent w) = enemies w.
Proof. unfold calcPercent. by destruct (Qle_bool _ _). Qed.

Lemma moveEnemy_roster (g : Grid) (e : Enemy) :
  e_type (moveEnemy g e) = e_type e ∧ e_radius (moveEnemy g e) = e_radius e ∧
  (e_vx (moveEnemy g e) = e_vx e ∨ e_vx (moveEnemy g e) = (e_vx e * -1)%Q) ∧
  (e_vy (moveEnemy g e) = e_vy e ∨ e_vy (moveEnemy g e) = (e_vy e * -1)%Q).
Proof.
  unfold moveEnemy. cbn [e_type e_radius e_vx e_vy].
  repeat split; destruct (checkCollision _ _ _); auto.
Qed.

(** The player's step keeps an immunity that has not run out. *)
Lemma movePlayer_invincible (i : Input) (w w' : World) :
  movePlayer Math_pow i w = Some w' →
  now i < invincible w → now i < invincible w'.
Proof.
  apply (movePlayer_respects Math_pow
           (λ w w', now i < invincible w → now i < invincible w') (now i));
    try done; try (intros; assumption).
  - intros w1 w2 w3 H1 H2 H. auto.
  - intros [] w0 H; cbn [applyPowerUp invincible play set_frozen set_invincible
                           set_lives set_timeLeft]; lia.
Qed.

Lemma enemyStep_immune (t : Z) (e e' : Enemy) (w w' : World) :
  t < invincible w → enemyStep t e w = Some (e', w') → w' = w.
Proof.
  intros Hinv%Z.ltb_lt. unfold enemyStep. rewrite Hinv.
  destruct (_ && _); [|done]. rewrite !andb_false_r.
  by intros [= _ <-].
Qed.

Lemma stepEnemies_immune (t : Z) (es es' : list Enemy) (w w' : World) :
  t < invincible w → stepEnemies t es w = Some (es', w') → w' = w.
Proof.
  intros Hinv. revert es'. induction es as [|e es IH]; intros es'.
  - by intros [= _ <-].
  - cbn [stepEnemies mbind option_bind].
    destruct (enemyStep t e w) as [[e1 w1]|] eqn:He; [|done].
    apply enemyStep_immune in He as ->; [|done]. cbn [mbind option_bind].
    destruct (stepEnemies t es w) as [[es1 w2]|] eqn:Hes; [|done].
    intros [= _ <-]. by eapply IH.
Qed.

Lemma handleDeath_gameState (w : World) :
  gameState (handleDeath w) = gameState w ∨ gameState (handleDeath w) = GAME_OVER.
Proof. unfold handleDeath. destruct (_ <=? 0); auto. Qed.

Lemma stepEnemies_gameState (t : Z) (es es' : list Enemy) (w w' : World) :
  stepEnemies t es w = Some (es', w') →
  gameState w' = gameState w ∨ gameState w' = GAME_OVER.
Proof.
  revert w w' es'. induction es as [|e es IH]; intros w w' es'.
  - intros [= _ <-]. by left.
  - cbn [stepEnemies mbind option_bind].
    destruct (enemyStep t e w) as [[e1 w1]|] eqn:He; [|done].
    cbn [mbind option_bind].
    destruct (stepEnemies t es w1) as [[es1 w2]|] eqn:Hes; [|done].
    intros [= _ <-]. apply IH in Hes.
    apply enemyStep_cases in He as [_ [->| ->]]; [done|].
    destruct (handleDeath_gameState w) as [Hs|Hs]; rewrite Hs in Hes;
      destruct Hes; auto.
Qed.

Lemma handleDeath_score (w : World) : score (handleDeath w) = score w.
Proof. unfold handleDeath. by destruct (_ <=? 0). Qed.

Lemma stepEnemies_score (t : Z) (es es' : list Enemy) (w w' : World) :
  stepEnemies t es w = Some (es', w') → score w' = score w.
Proof.
  revert w w' es'. induction es as [|e es IH]; intros w w' es'.
  - by intros [= _ <-].
  - cbn [stepEnemies mbind option_bind].
    destruct (enemyStep t e w) as [[e1 w1]|] eqn:He; [|done].
    cbn [mbind option_bind].
    destruct (stepEnemies t es w1) as [[es1 w2]|] eqn:Hes; [|done].
    intros [= _ <-]. rewrite (IH _ _ _ Hes).
    apply enemyStep_cases in He as [_ [->| ->]]; [done|apply handleDeath_score].
Qed.

Lemma spawnPowerUp_score (i : Input) (w : World) :
  score (spawnPowerUp i w) = score w.
Proof. by apply (spawnPowerUp_respects (λ w w', score w' = score w)). Qed.

Lemma calcPercent_score (w : World) : score (calcPercent w) = score w.
Proof. unfold calcPercent. by destruct (Qle_bool _ _). Qed.

Lemma addedScore_nonneg (n : Z) (cp : Q) :
  (∀ a b, (0 <= Math_pow a b)%Q) → 0 < n → 0 ≤ addedScore Math_pow n cp.
Proof.
  intros Hpow Hn. unfold addedScore.
  apply Qfloor_ge. change (inject_Z 0) with 0%Q.
  assert (0 <= inject_Z n)%Q as Hn'.
  { change 0%Q with (inject_Z 0). rewrite <- Zle_Qle. lia. }
  destruct (Qltb 0.8 cp).
  - pose proof (Hpow 4%Q ((cp - 0.8) * 10)%Q) as Hp.
    apply Qmult_le_0_compat; [|done].
    apply Qmult_le_0_compat; [done|]. done.
  - apply Qmult_le_0_compat; [|done].
    apply Qmult_le_0_compat; [done|]. done.
Qed.

Lemma movePlayer_score (i : Input) (w w' : World) :
  (∀ a b, (0 <= Math_pow a b)%Q) →
  movePlayer Math_pow i w = Some w' → score w ≤ score w'.
Proof.
  intros Hpow.
  apply (movePlayer_respects Math_pow (λ w w', score w ≤ score w') (now i));
    try done; try (intros; cbn [score set_player set_grid set_powerUps play]; lia).
  - intros [] w0; cbn [applyPowerUp score play set_frozen set_invincible
                         set_lives set_timeLeft]; lia.
  - intros n cp w0 Hn. cbn [score set_score].
    pose proof (addedScore_nonneg n cp Hpow Hn). lia.
Qed.

End Unchanged.

(** ** The score, in exact arithmetic and in binary64 *)

#[local] Set Warnings "-inexact-float".

(** At 0.85 the exponent that the source hands to [Math.pow] is
    0.49999999999999933, below 1/2; and whichever of the sixteen doubles
    below 2 the power is, the product with 100 stays below 200. *)
Lemma score64_below_two :
  ((0.85 - 0.8) * 10 <? 0.5)%float = true ∧
  Forall (λ k, addedScore64 (λ _ _, belowTwo k) 10 0.85 = Some 199) (seq 1 16).
Proof.
  split; [vm_compute; reflexivity|]. apply Forall_forall. intros k Hk.
  repeat (apply elem_of_cons in Hk as [->|Hk]; [vm_compute; reflexivity|]).
  by apply elem_of_nil in Hk.
Qed.

Lemma addedScore_not_negative (Math_pow : Q → Q → Q) (n : Z) (cp : Q) :
  (∀ a b, (0 <= Math_pow a b)%Q) → 0 ≤ n → 0 ≤ addedScore Math_pow n cp.
Proof.
  intros Hpow Hn. destruct (decide (n = 0)) as [->|Hne].
  - unfold addedScore. apply Qfloor_ge. change (inject_Z 0) with 0%Q.
    change (inject_Z 0) with 0%Q. lra.
  - apply addedScore_nonneg; [done|lia].
Qed.

(** C2 fails on the code: for 10 cells at 0.85 the score added is 199, not
    200.  In binary64 (0.85 - 0.8) * 10 is 0.49999999999999933, so the power
    is below 2: exactly it is 2 - 8.32 * 2^-52, and correctly rounded it is
    [belowTwo 8], 1.9999999999999982.  Whichever of the sixteen doubles
    below 2 [Math.pow] returns, the score is 199. *)
Lemma ten_cells_at_085_score_199 :
  ((0.85 - 0.8) * 10 <? 0.5)%float = true ∧
  belowTwo 8 = 1.9999999999999982%float ∧
  Forall (λ k, addedScore64 (λ _ _, belowTwo k) 10 0.85 = Some 199) (seq 1 16) ∧
  addedScore64 (λ _ _, 2%float) 10 0.85 = Some 200.
Proof.
  split; [apply score64_below_two|]. split; [vm_compute; reflexivity|].
  split; [apply score64_below_two|]. vm_compute. reflexivity.
Qed.

(** C2, as the code has it.  The score added is the floor of
    [capturedCount * 10 * multiplier], the multiplier being 1 up to the
    threshold and [Math.pow(4, (currentPercent - 0.8) * 10)] above it, in
    the doubles of the source.  Up to the threshold it is ten times the
    count; 10 cells at 0.5 give 100; 10 cells at 0.85 give 199 for each of
    the sixteen doubles below 2 as the power; and the score is not negative
    when [Math.pow] returns no negative number. *)
Theorem addedScore_by_branch (Math_pow : Q → Q → Q) :
  (∀ pow64 n cp,
     addedScore64 pow64 n cp
     = Math_floor64
         (n * 10 * (if 0.8 <? cp then pow64 4 ((cp - 0.8) * 10) else 1))%float) ∧
  (∀ n cp, (cp <= 0.8)%Q → addedScore Math_pow n cp = 10 * n) ∧
  addedScore Math_pow 10 0.5 = 100 ∧
  (∀ pow64, addedScore64 pow64 10 0.5 = Some 100) ∧
  ((0.85 - 0.8) * 10 <? 0.5)%float = true ∧
  Forall (λ k, addedScore64 (λ _ _, belowTwo k) 10 0.85 = Some 199) (seq 1 16) ∧
  ((∀ a b, (0 <= Math_pow a b)%Q) →
   ∀ n cp, 0 ≤ n → 0 ≤ addedScore Math_pow n cp).
Proof.
  split; [done|].
  split; [intros n cp Hcp; by apply addedScore_at_most_80|].
  split; [by apply addedScore_at_most_80|].
  split; [intros pow64; vm_compute; reflexivity|].
  split; [apply score64_below_two|]. split; [apply score64_below_two|].
  intros Hpow n cp Hn. by apply addedScore_not_negative.
Qed.


(** * Properties of the level, its frames and its sessions *)

Lemma unitDraws_noSpawn : unitDraws noSpawn.
Proof. intros k. unfold noSpawn. split; by_evaluation. Qed.

Lemma unitDraws_sampleSeed : unitDraws sampleSeed.
Proof.
  intros k. unfold sampleSeed.
  destruct k as [|[|k]]; [split; by_evaluation..|].
  destruct (_ mod 4)%nat as [|[|[|[|?]]]]; split; by_evaluation.
Qed.

Lemma levelInv_sampleLevel : levelInv sampleLevel.
Proof.
  apply levelInv_play, levelInv_mountGameCanvas, unitDraws_sampleSeed.
Qed.

Lemma initMinion_types (rnd : nat → Q) (n k : nat) :
  e_type <$> (initMinion rnd <$> seq k n) = replicate n minion.
Proof.
  revert k. induction n as [|n IH]; intros k; [done|].
  cbn [seq fmap list_fmap replicate]. f_equal. apply IH.
Qed.

(** X1. Level entry establishes the level invariant: the grid is 64 by 48
    with its border owned and nothing else, the player stands inside the
    bounds, no trail and no power-up exists, and the enemies, one Boss
    followed by [3 + level] minions, lie strictly inside the border. *)
Theorem initLevel_establishes_invariant (rnd : nat → Q) (w : World) :
  unitDraws rnd →
  let w' := initLevel rnd w in
  levelInv w' ∧ noTrail (grid w') ∧ powerUps w' = [] ∧
  e_type <$> enemies w' = boss :: replicate (Z.to_nat (3 + level w)) minion ∧
  (∀ x y, inGrid x y = true →
          cellAt (grid w') x y = Some (if onBorder x y then 1 else 0)).
Proof.
  intros Hrnd w'. split; [by apply levelInv_initLevel|].
  split; [apply noTrail_newGrid|]. split; [done|]. split.
  - unfold w', initLevel.
    cbn [enemies level set_grid set_player set_isCuttingMode set_invincible
         set_frozen set_enemies set_powerUps set_timeLeft set_percent].
    cbn [fmap list_fmap]. f_equal. apply initMinion_types.
  - intros x y Hin. change (grid w') with newGrid.
    rewrite newGrid_cellAt, Hin. by destruct (onBorder x y).
Qed.

Lemma initLevel_establishes_invariant_witness :
  unitDraws sampleSeed ∧ levelInv (initLevel sampleSeed initialWorld).
Proof.
  split; [apply unitDraws_sampleSeed|].
  apply (initLevel_establishes_invariant sampleSeed initialWorld).
  apply unitDraws_sampleSeed.
Defined.

Lemma levelInv_ground (w : World) : levelInv w → groundInv w.
Proof.
  intros [Hg Hpl Htr Hen Hboss Hpu Hlive Hun]. unfold groundInv.
  split; [exact Hg|]. split; [exact Hpl|]. split; [exact Htr|].
  split; [exact Hboss|]. split; [exact Hpu|]. split; [exact Hlive|exact Hun].
Qed.

(** X2. A frame of a level returns normally: neither the row that the
    enemy loop reads under the player, nor the row that a resolution reads
    under the Boss, nor the row it reads under a power-up is missing.
    Afterwards the grid is still 64 by 48 with cells 0, 1 or 2 and an owned
    border, the player is in the bounds, a trail passes under the player,
    there is a Boss, and the power-ups, at most three, lie strictly inside
    the border on cells that are not owned.  Nothing is said of where the
    enemies are after the frame. *)
Theorem update_returns_normally (Math_pow : Q → Q → Q) (i : Input)
    (w : World) :
  unitDraws (random i) → levelInv w →
  ∃ w', update Math_pow i w = Some w' ∧ groundInv w'.
Proof.
  intros Hrnd Hinv.
  destruct (levelInv_update Math_pow i w Hrnd Hinv) as (w' & Hup & Hinv').
  exists w'. split; [exact Hup|]. by apply levelInv_ground.
Qed.

Lemma update_returns_normally_witness :
  unitDraws noSpawn ∧ levelInv sampleLevel ∧
  ∃ w', update sample_pow (mkInput 1016 (list_to_set ["ArrowDown"]) noSpawn)
               sampleLevel = Some w' ∧ groundInv w'.
Proof.
  split; [apply unitDraws_noSpawn|]. split; [apply levelInv_sampleLevel|].
  apply (update_returns_normally sample_pow
           (mkInput 1016 (list_to_set ["ArrowDown"]) noSpawn) sampleLevel).
  - apply unitDraws_noSpawn.
  - apply levelInv_sampleLevel.
Defined.

Lemma playInv_run (Math_pow : Q → Q → Q) (evs : list Event) (w : World) :
  Forall validEvent evs → (gameState w = PLAYING → playInv w) →
  ∃ w', run Math_pow evs w = Some w' ∧ (gameState w' = PLAYING → playInv w').
Proof.
  revert w. induction evs as [|ev evs IH]; intros w Hevs Hinv.
  - by exists w.
  - apply Forall_cons in Hevs as [Hev Hevs].
    destruct (playInv_step Math_pow ev w Hev Hinv) as (w1 & Hstep & Hinv1).
    destruct (IH w1 Hevs Hinv1) as (w' & Hrun & Hinv').
    exists w'. cbn [run]. rewrite Hstep. by cbn [mbind option_bind].
Qed.

Lemma unitDraws_cornerSeed : unitDraws cornerSeed.
Proof.
  intros k. unfold cornerSeed.
  repeat (destruct k as [|k]; [split; by_evaluation|]). split; by_evaluation.
Qed.

Lemma validEvent_cornerSession : Forall validEvent cornerSession.
Proof.
  unfold cornerSession. apply Forall_app. split.
  - repeat (apply Forall_cons; split;
              [first [exact I|exact unitDraws_cornerSeed|exact unitDraws_noSpawn]|]).
    apply Forall_nil_2.
  - apply Forall_fmap, Forall_forall. intros n _. apply unitDraws_noSpawn.
Qed.

(** X3. No session fails: whatever the events, with random draws in [0, 1),
    the run from the initial state returns a state; no frame of it reads a
    row that the grid does not have. *)
Theorem session_never_fails (Math_pow : Q → Q → Q) (evs : list Event) :
  Forall validEvent evs →
  ∃ w, run Math_pow evs initialWorld = Some w.
Proof.
  intros Hevs.
  destruct (playInv_run Math_pow evs initialWorld Hevs) as (w & Hrun & _);
    [discriminate|].
  by exists w.
Qed.

Lemma session_never_fails_witness :
  Forall validEvent cornerSession ∧
  ∃ w, run sample_pow cornerSession initialWorld = Some w.
Proof.
  split; [exact validEvent_cornerSession|].
  exact (session_never_fails sample_pow cornerSession validEvent_cornerSession).
Defined.

(** X20. Whenever a session leaves the level in play, the grid is 64 by 48
    with cells 0, 1 or 2 and an owned border, the player is in the bounds, a
    trail passes under the player, there is a Boss, the power-ups, at most
    three, lie strictly inside the border on cells that are not owned, the
    player has a life left and the owned fraction is under the win
    threshold. *)
Theorem session_in_play (Math_pow : Q → Q → Q) (evs : list Event) (w : World) :
  Forall validEvent evs →
  run Math_pow evs initialWorld = Some w →
  gameState w = PLAYING →
  groundInv w ∧ 1 ≤ lives w ∧ (ownedFraction (grid w) < WIN_THRESHOLD)%Q.
Proof.
  intros Hevs Hrun Hplay.
  destruct (playInv_run Math_pow evs initialWorld Hevs) as (w' & Hrun' & Hinv);
    [discriminate|].
  rewrite Hrun in Hrun'. injection Hrun' as <-.
  destruct (Hinv Hplay) as (Hlevel & Hlives & Hfrac).
  split; [by apply levelInv_ground|]. by split.
Qed.

Lemma session_in_play_witness :
  Forall validEvent cornerSession ∧
  ∃ w, run sample_pow cornerSession initialWorld = Some w ∧
       gameState w = PLAYING ∧ 1 ≤ lives w.
Proof.
  split; [exact validEvent_cornerSession|].
  destruct (run sample_pow cornerSession initialWorld) as [w|] eqn:Hrun.
  - exists w. split; [reflexivity|].
    assert (gameState w = PLAYING) as Hplay.
    { revert Hrun. vm_compute. intros [= <-]. reflexivity. }
    split; [exact Hplay|].
    exact (proj1 (proj2 (session_in_play sample_pow cornerSession w
                           validEvent_cornerSession Hrun Hplay))).
  - exfalso. vm_compute in Hrun. discriminate.
Defined.

Lemma cells_partition (g : Grid) :
  validCells g →
  countOwned g + Z.of_nat (cellCount 0 g) + Z.of_nat (cellCount 2 g)
  = GRID_WIDTH * GRID_HEIGHT.
Proof.
  intros Hv. rewrite countOwned_spec. unfold cellCount.
  assert (cellsWhere (λ _ _, true) = Z.to_nat (GRID_WIDTH * GRID_HEIGHT)) as Hall
    by (vm_compute; reflexivity).
  rewrite (cellsWhere_sum (λ _ _, true)
             (λ x y, bool_decide (cellAt g x y = Some 1))
             (λ x y, bool_decide (cellAt g x y = Some 0)
                     || bool_decide (cellAt g x y = Some 2))) in Hall.
  - rewrite (cellsWhere_sum
               (λ x y, bool_decide (cellAt g x y = Some 0)
                       || bool_decide (cellAt g x y = Some 2))
               (λ x y, bool_decide (cellAt g x y = Some 0))
               (λ x y, bool_decide (cellAt g x y = Some 2))) in Hall.
    + unfold GRID_WIDTH, GRID_HEIGHT in *. lia.
    + done.
    + intros x y _ H0%bool_decide_eq_true H2%bool_decide_eq_true. congruence.
  - intros x y Hin. symmetry.
    destruct (Hv x y Hin) as [Hc|[Hc|Hc]]; rewrite Hc; done.
  - intros x y _ H1%bool_decide_eq_true [H0|H2]%orb_prop;
      apply bool_decide_eq_true in H0 || apply bool_decide_eq_true in H2;
      congruence.
Qed.

(** X4. After every frame of a level the owned, unowned and trail cells
    partition the grid: their counts add up to its 64 * 48 cells. *)
Theorem update_cell_partition (Math_pow : Q → Q → Q) (i : Input)
    (w w' : World) :
  unitDraws (random i) → levelInv w → update Math_pow i w = Some w' →
  countOwned (grid w') + Z.of_nat (cellCount 0 (grid w'))
    + Z.of_nat (cellCount 2 (grid w'))
  = GRID_WIDTH * GRID_HEIGHT.
Proof.
  intros Hrnd Hinv Hup.
  destruct (levelInv_update Math_pow i w Hrnd Hinv) as (w1 & Hup1 & Hinv1).
  rewrite Hup in Hup1. injection Hup1 as <-.
  apply cells_partition, Hinv1.
Qed.

Lemma update_cell_partition_witness :
  unitDraws noSpawn ∧ levelInv sampleLevel ∧
  ∃ w', update sample_pow (mkInput 1016 ∅ noSpawn) sampleLevel = Some w' ∧
        countOwned (grid w') + Z.of_nat (cellCount 0 (grid w'))
          + Z.of_nat (cellCount 2 (grid w'))
        = GRID_WIDTH * GRID_HEIGHT.
Proof.
  split; [apply unitDraws_noSpawn|]. split; [apply levelInv_sampleLevel|].
  destruct (update sample_pow (mkInput 1016 ∅ noSpawn) sampleLevel)
    as [w'|] eqn:Hup.
  - exists w'. split; [reflexivity|].
    exact (update_cell_partition sample_pow (mkInput 1016 ∅ noSpawn)
             sampleLevel w' unitDraws_noSpawn levelInv_sampleLevel Hup).
  - exfalso. vm_compute in Hup. discriminate.
Defined.

(** X6. A spawn attempt adds at most one power-up, and only while fewer
    than three are live; the one it adds lies strictly inside the border on
    a cell that is unowned at that moment.  Nothing else of the state
    changes. *)
Theorem spawnPowerUp_placement (i : Input) (w : World) :
  unitDraws (random i) →
  spawnPowerUp i w = w ∨
  ∃ p, spawnPowerUp i w = set_powerUps (powerUps w ++ [p]) w ∧
       (length (powerUps w) ≤ 2)%nat ∧
       powerUpInside p ∧ cellAt (grid w) (pu_x p) (pu_y p) = Some 0.
Proof.
  intros Hrnd. unfold spawnPowerUp.
  destruct (Qltb 0.005 (random i 0%nat)); [by left|].
  destruct (2 <? Z.of_nat (length (powerUps w))) eqn:Hlen; [by left|].
  apply Z.ltb_ge in Hlen.
  case_bool_decide as Hcell; [|by left].
  right. eexists. split; [reflexivity|]. split; [lia|]. split; [|exact Hcell].
  unfold powerUpInside. cbn [pu_x pu_y].
  destruct (Hrnd 2%nat) as [Hx0 Hx1]. destruct (Hrnd 3%nat) as [Hy0 Hy1].
  assert (0 ≤ Qfloor (random i 2%nat * inject_Z (GRID_WIDTH - 2)) < GRID_WIDTH - 2).
  { change (inject_Z (GRID_WIDTH - 2)) with 62%Q.
    split; [apply Qfloor_ge; change (inject_Z 0) with 0%Q
           |apply Qfloor_lt; change (inject_Z (GRID_WIDTH - 2)) with 62%Q]; lra. }
  assert (0 ≤ Qfloor (random i 3%nat * inject_Z (GRID_HEIGHT - 2)) < GRID_HEIGHT - 2).
  { change (inject_Z (GRID_HEIGHT - 2)) with 46%Q.
    split; [apply Qfloor_ge; change (inject_Z 0) with 0%Q
           |apply Qfloor_lt; change (inject_Z (GRID_HEIGHT - 2)) with 46%Q]; lra. }
  lia.
Qed.

Lemma spawnPowerUp_placement_witness :
  unitDraws spawnLife ∧
  (length (powerUps (spawnPowerUp (mkInput 1016 ∅ spawnLife) sampleLevel)) ≤ 1)%nat.
Proof.
  assert (unitDraws spawnLife) as Hrnd.
  { intros k. unfold spawnLife.
    repeat (destruct k as [|k]; [split; by_evaluation|]). split; by_evaluation. }
  split; [exact Hrnd|].
  destruct (spawnPowerUp_placement (mkInput 1016 ∅ spawnLife) sampleLevel Hrnd)
    as [->|(p & -> & _)].
  - cbn. lia.
  - cbn. lia.
Defined.

(** X7. A frame never adds or removes an enemy: the enemies after it are
    the enemies before it, in order, each with its type and radius and with
    each velocity component kept or negated. *)
Theorem update_enemy_roster (Math_pow : Q → Q → Q) (i : Input) (w w' : World) :
  update Math_pow i w = Some w' →
  Forall2 (λ e e',
      e_type e' = e_type e ∧ e_radius e' = e_radius e ∧
      (e_vx e' = e_vx e ∨ e_vx e' = (e_vx e * -1)%Q) ∧
      (e_vy e' = e_vy e ∨ e_vy e' = (e_vy e * -1)%Q))
    (enemies w) (enemies w').
Proof.
  assert (∀ es, Forall2 (λ e e',
      e_type e' = e_type e ∧ e_radius e' = e_radius e ∧
      (e_vx e' = e_vx e ∨ e_vx e' = (e_vx e * -1)%Q) ∧
      (e_vy e' = e_vy e ∨ e_vy e' = (e_vy e * -1)%Q)) es es) as Hsame.
  { intros es. apply Forall_Forall2_diag, Forall_forall. intros e _. auto. }
  unfold update. destruct (Qle_bool _ _); [intros [= <-]; apply Hsame|].
  set (w0 := spawnPowerUp i _).
  assert (enemies w0 = enemies w) as H0
    by (unfold w0; by rewrite spawnPowerUp_enemies).
  destruct (movePlayer Math_pow i w0) as [w1|] eqn:Hmove; [|done].
  apply movePlayer_enemies in Hmove. cbn [mbind option_bind].
  destruct (negb _); cbn [mbind option_bind].
  2: { intros [= <-]. rewrite calcPercent_enemies, Hmove, H0. apply Hsame. }
  unfold updateEnemies.
  destruct (stepEnemies (now i) (enemies w1) w1) as [[es w2]|] eqn:Hen; [|done].
  cbn [mbind option_bind]. intros [= <-].
  apply stepEnemies_moves in Hen as ->.
  rewrite calcPercent_enemies. cbn [enemies set_enemies].
  rewrite Hmove, H0. apply Forall2_fmap_r, Forall_Forall2_diag, Forall_forall.
  intros e _. apply moveEnemy_roster.
Qed.

Lemma update_enemy_roster_witness :
  ∃ w', update sample_pow (mkInput 1016 ∅ noSpawn) sampleLevel = Some w' ∧
        length (enemies w') = length (enemies sampleLevel).
Proof.
  destruct (update sample_pow (mkInput 1016 ∅ noSpawn) sampleLevel)
    as [w'|] eqn:Hup.
  - exists w'. split; [reflexivity|].
    symmetry. eapply Forall2_length.
    exact (update_enemy_roster sample_pow _ sampleLevel w' Hup).
  - exfalso. vm_compute in Hup. discriminate.
Defined.

(** X8. When the timer runs out the frame ends the game and does nothing
    else: the phase is GAME_OVER, whatever the owned fraction, and the grid,
    the player, the enemies, the power-ups, the lives, the score and the
    sounds are as before. *)
Theorem update_timeout_first (Math_pow : Q → Q → Q) (i : Input) (w : World) :
  (timeLeft w - inject_Z (now i - lastTime w) / 1000 <= 0)%Q →
  ∃ w', update Math_pow i w = Some w' ∧
        gameState w' = GAME_OVER ∧ grid w' = grid w ∧ player w' = player w ∧
        enemies w' = enemies w ∧ powerUps w' = powerUps w ∧
        lives w' = lives w ∧ score w' = score w ∧ sounds w' = sounds w.
Proof.
  intros Hout. unfold update.
  cbn [timeLeft set_timeLeft set_lastTime].
  assert (Qle_bool (Qred (timeLeft w - inject_Z (now i - lastTime w) / 1000)) 0
          = true) as ->.
  { apply Qle_bool_iff. by rewrite Qred_correct. }
  eexists. split; [reflexivity|]. by repeat split.
Qed.

Lemma update_timeout_first_witness :
  (timeLeft sampleLevel - inject_Z (100000 - lastTime sampleLevel) / 1000 <= 0)%Q ∧
  ∃ w', update sample_pow (mkInput 100000 (list_to_set ["ArrowDown"]) noSpawn)
               sampleLevel = Some w' ∧
        gameState w' = GAME_OVER ∧ player w' = player sampleLevel.
Proof.
  assert (timeLeft sampleLevel - inject_Z (100000 - lastTime sampleLevel) / 1000
          <= 0)%Q as Hout by by_evaluation.
  split; [exact Hout|].
  destruct (update_timeout_first sample_pow
              (mkInput 100000 (list_to_set ["ArrowDown"]) noSpawn) sampleLevel Hout)
    as (w' & Hup & Hst & _ & Hpl & _).
  by exists w'.
Defined.

(** X9. The win check comes last.  In a frame of a level in play whose
    timer has not run out, the stored percentage is the owned fraction of the
    final grid, and the phase after the frame is VICTORY exactly when that
    fraction is at least the threshold, whatever happened earlier in the
    frame. *)
Theorem update_win_check_last (Math_pow : Q → Q → Q) (i : Input)
    (w w' : World) :
  gameState w = PLAYING →
  ¬ (timeLeft w - inject_Z (now i - lastTime w) / 1000 <= 0)%Q →
  update Math_pow i w = Some w' →
  percent w' = ownedFraction (grid w') ∧
  (gameState w' = VICTORY ↔ (WIN_THRESHOLD <= ownedFraction (grid w'))%Q).
Proof.
  intros Hst Hin. unfold update.
  cbn [timeLeft set_timeLeft set_lastTime].
  assert (Qle_bool (Qred (timeLeft w - inject_Z (now i - lastTime w) / 1000)) 0
          = false) as ->.
  { apply not_true_is_false. intros Hle%Qle_bool_iff.
    by rewrite Qred_correct in Hle. }
  set (w0 := spawnPowerUp i _).
  assert (gameState w0 = PLAYING) as Hst0.
  { unfold w0. by rewrite spawnPowerUp_gameState. }
  destruct (movePlayer Math_pow i w0) as [w1|] eqn:Hmove; [|done].
  apply movePlayer_gameState in Hmove. rewrite Hst0 in Hmove.
  cbn [mbind option_bind].
  assert (∀ w2, gameState w2 ≠ VICTORY → calcPercent w2 = w' →
    percent w' = ownedFraction (grid w') ∧
    (gameState w' = VICTORY ↔ (WIN_THRESHOLD <= ownedFraction (grid w'))%Q))
    as Hlast.
  { intros w2 Hst2. unfold calcPercent.
    destruct (Qle_bool WIN_THRESHOLD _) eqn:Hwin; intros <-.
    - split; [done|]. split; [|done]. intros _. by apply Qle_bool_iff.
    - split; [done|]. cbn [gameState grid set_percent]. split; [done|].
      intros Hle%Qle_bool_iff. unfold ownedFraction in Hle.
      by rewrite Hle in Hwin. }
  destruct (negb _); cbn [mbind option_bind].
  2: { intros [= Hw']. apply (Hlast w1); [|done]. by rewrite Hmove. }
  unfold updateEnemies.
  destruct (stepEnemies (now i) (enemies w1) w1) as [[es w2]|] eqn:Hen; [|done].
  cbn [mbind option_bind]. intros [= Hw'].
  apply (Hlast (set_enemies es w2)); [|done]. cbn [gameState set_enemies].
  apply stepEnemies_gameState in Hen as [->| ->]; [by rewrite Hmove|done].
Qed.

Lemma update_win_check_last_witness :
  gameState sampleLevel = PLAYING ∧
  ¬ (timeLeft sampleLevel - inject_Z (1016 - lastTime sampleLevel) / 1000 <= 0)%Q ∧
  ∃ w', update sample_pow (mkInput 1016 ∅ noSpawn) sampleLevel = Some w' ∧
        percent w' = ownedFraction (grid w').
Proof.
  assert (¬ (timeLeft sampleLevel - inject_Z (1016 - lastTime sampleLevel) / 1000
             <= 0)%Q) as Hin.
  { intros Hle. vm_compute in Hle. by apply Hle. }
  split; [reflexivity|]. split; [exact Hin|].
  destruct (update sample_pow (mkInput 1016 ∅ noSpawn) sampleLevel)
    as [w'|] eqn:Hup.
  - exists w'. split; [reflexivity|].
    exact (proj1 (update_win_check_last sample_pow (mkInput 1016 ∅ noSpawn)
                    sampleLevel w' eq_refl Hin Hup)).
  - exfalso. vm_compute in Hup. discriminate.
Defined.

(** X10. While the freeze lasts ([now] is before [frozen] when the frame
    starts) the frame moves no enemy and makes no death: the enemies are
    exactly as before, no life is taken and the death sound is not
    played. *)
Theorem frozen_frame_is_still (Math_pow : Q → Q → Q) (i : Input)
    (w w' : World) :
  now i < frozen w → update Math_pow i w = Some w' →
  enemies w' = enemies w ∧ quiet w w'.
Proof.
  intros Hfr%Z.ltb_lt. unfold update.
  cbn [frozen set_timeLeft set_lastTime]. rewrite Hfr. cbn [negb].
  destruct (Qle_bool _ _).
  { intros [= <-]. split; [done|]. by apply quiet_same. }
  set (w0 := spawnPowerUp i _).
  assert (enemies w0 = enemies w) as H0
    by (unfold w0; by rewrite spawnPowerUp_enemies).
  assert (quiet w w0) as Hq0.
  { eapply quiet_trans; [|apply quiet_spawnPowerUp]. by apply quiet_same. }
  destruct (movePlayer Math_pow i w0) as [w1|] eqn:Hmove; [|done].
  cbn [mbind option_bind]. intros [= <-]. split.
  - rewrite calcPercent_enemies. apply movePlayer_enemies in Hmove. congruence.
  - eapply quiet_trans; [exact Hq0|].
    eapply quiet_trans; [by eapply quiet_movePlayer|apply quiet_calcPercent].
Qed.

Lemma frozen_frame_is_still_witness :
  ∃ w', update sample_pow (mkInput 1016 ∅ noSpawn) (set_frozen 6000 sampleLevel)
        = Some w' ∧
        enemies w' = enemies (set_frozen 6000 sampleLevel).
Proof.
  assert (now (mkInput 1016 ∅ noSpawn) < frozen (set_frozen 6000 sampleLevel))
    as Hfr by (cbn [now frozen set_frozen]; lia).
  destruct (update sample_pow (mkInput 1016 ∅ noSpawn) (set_frozen 6000 sampleLevel))
    as [w'|] eqn:Hup.
  - exists w'. split; [reflexivity|].
    exact (proj1 (frozen_frame_is_still sample_pow (mkInput 1016 ∅ noSpawn)
                    (set_frozen 6000 sampleLevel) w' Hfr Hup)).
  - exfalso. vm_compute in Hup. discriminate.
Defined.

(** X11. While the immunity lasts ([now] is before [invincible] when the
    frame starts) the frame makes no death: no life is taken and the death
    sound is not played, wherever the enemies and the trail are. *)
Theorem invincible_frame_is_safe (Math_pow : Q → Q → Q) (i : Input)
    (w w' : World) :
  now i < invincible w → update Math_pow i w = Some w' → quiet w w'.
Proof.
  intros Himm. unfold update.
  destruct (Qle_bool _ _); [intros [= <-]; by apply quiet_same|].
  set (w0 := spawnPowerUp i _).
  assert (quiet w w0) as Hq0.
  { eapply quiet_trans; [|apply quiet_spawnPowerUp]. by apply quiet_same. }
  assert (now i < invincible w0) as Himm0.
  { unfold w0.
    apply (spawnPowerUp_respects (λ w w', now i < invincible w → now i < invincible w'));
      done. }
  destruct (movePlayer Math_pow i w0) as [w1|] eqn:Hmove; [|done].
  cbn [mbind option_bind].
  assert (quiet w w1) as Hq1.
  { eapply quiet_trans; [exact Hq0|]. by eapply quiet_movePlayer. }
  pose proof (movePlayer_invincible Math_pow i w0 w1 Hmove Himm0) as Himm1.
  destruct (negb _); cbn [mbind option_bind].
  2: { intros [= <-]. eapply quiet_trans; [exact Hq1|apply quiet_calcPercent]. }
  unfold updateEnemies.
  destruct (stepEnemies (now i) (enemies w1) w1) as [[es w2]|] eqn:Hen; [|done].
  cbn [mbind option_bind]. intros [= <-].
  apply stepEnemies_immune in Hen as ->; [|done].
  eapply quiet_trans; [exact Hq1|].
  eapply quiet_trans; [|apply quiet_calcPercent]. by apply quiet_same.
Qed.

Lemma invincible_frame_is_safe_witness :
  ∃ w', update sample_pow (mkInput 1016 ∅ noSpawn)
               (set_invincible 8000 ambushLevel) = Some w' ∧
        lives (set_invincible 8000 ambushLevel) ≤ lives w'.
Proof.
  assert (now (mkInput 1016 ∅ noSpawn)
          < invincible (set_invincible 8000 ambushLevel))
    as Himm by (cbn [now invincible set_invincible]; lia).
  destruct (update sample_pow (mkInput 1016 ∅ noSpawn)
              (set_invincible 8000 ambushLevel)) as [w'|] eqn:Hup.
  - exists w'. split; [reflexivity|].
    exact (proj2 (invincible_frame_is_safe sample_pow (mkInput 1016 ∅ noSpawn)
                    (set_invincible 8000 ambushLevel) w' Himm Hup)).
  - exfalso. vm_compute in Hup. discriminate.
Defined.

(** X12. The score never decreases in a frame, provided [Math.pow] returns
    no negative number: what a resolution adds is the floor of a product of
    non-negative factors, and nothing else writes the score. *)
Theorem update_score_monotone (Math_pow : Q → Q → Q) (i : Input)
    (w w' : World) :
  (∀ a b, (0 <= Math_pow a b)%Q) →
  update Math_pow i w = Some w' → score w ≤ score w'.
Proof.
  intros Hpow. unfold update.
  destruct (Qle_bool _ _); [by intros [= <-]|].
  set (w0 := spawnPowerUp i _).
  assert (score w0 = score w) as H0.
  { unfold w0. by rewrite spawnPowerUp_score. }
  destruct (movePlayer Math_pow i w0) as [w1|] eqn:Hmove; [|done].
  apply movePlayer_score in Hmove; [|done]. cbn [mbind option_bind].
  destruct (negb _); cbn [mbind option_bind].
  2: { intros [= <-]. rewrite calcPercent_score. lia. }
  unfold updateEnemies.
  destruct (stepEnemies (now i) (enemies w1) w1) as [[es w2]|] eqn:Hen; [|done].
  cbn [mbind option_bind]. intros [= <-].
  apply stepEnemies_score in Hen. rewrite calcPercent_score.
  cbn [score set_enemies]. lia.
Qed.

Lemma update_score_monotone_witness :
  (∀ a b, (0 <= sample_pow a b)%Q) ∧
  ∃ w', update sample_pow (mkInput 1016 ∅ noSpawn) sampleLevel = Some w' ∧
        score sampleLevel ≤ score w'.
Proof.
  assert (∀ a b, (0 <= sample_pow a b)%Q) as Hpow by (intros a b; by_evaluation).
  split; [exact Hpow|].
  destruct (update sample_pow (mkInput 1016 ∅ noSpawn) sampleLevel)
    as [w'|] eqn:Hup.
  - exists w'. split; [reflexivity|].
    exact (update_score_monotone sample_pow _ sampleLevel w' Hpow Hup).
  - exfalso. vm_compute in Hup. discriminate.
Defined.

(** * The flood fill and the resolution, cell by cell *)

Lemma foldl_visit_measure (targetVal replaceVal : Z) (p : Point)
    (l : list (Z * Z)) (acc : Grid * list Point) :
  targetVal ≠ replaceVal →
  (countVal targetVal (foldl (visit targetVal replaceVal p) acc l).1
   + length (foldl (visit targetVal replaceVal p) acc l).2
   = countVal targetVal acc.1 + length acc.2)%nat.
Proof.
  intros Hne. revert acc. induction l as [|d l IH]; intros acc; [done|].
  cbn [foldl]. rewrite IH. by apply visit_measure.
Qed.

(** The loop counts one for every cell it takes from the stack, and every
    relabelled cell is put on the stack once. *)
Lemma floodLoop_count (targetVal replaceVal : Z) (fuel : nat) (g : Grid)
    (queue : list Point) (count : Z) (res : Grid * Z) :
  targetVal ≠ replaceVal →
  floodLoop fuel targetVal replaceVal g queue count = Some res →
  Z.of_nat (countVal targetVal res.1) + res.2
  = Z.of_nat (countVal targetVal g) + Z.of_nat (length queue) + count.
Proof.
  intros Hne. revert g queue count.
  induction fuel as [|fuel IH]; intros g queue count.
  - destruct queue; [|done]. intros [= <-]. cbn [fst snd length]. lia.
  - destruct queue as [|p rest]; [intros [= <-]; cbn [fst snd length]; lia|].
    cbn [floodLoop]. intros Hres%IH. rewrite Hres.
    pose proof (foldl_visit_measure targetVal replaceVal p dirs (g, rest) Hne)
      as Hm.
    cbn [fst snd] in Hm. cbn [length]. lia.
Qed.

Lemma foldl_visit_wf (targetVal replaceVal : Z) (p : Point)
    (l : list (Z * Z)) (acc : Grid * list Point) :
  wf_grid acc.1 → wf_grid (foldl (visit targetVal replaceVal p) acc l).1.
Proof.
  revert acc. induction l as [|d l IH]; intros acc Hwf; [done|].
  cbn [foldl]. apply IH. unfold visit.
  destruct (inGrid _ _ && bool_decide _); [|done].
  cbn [fst]. by apply wf_grid_setCell.
Qed.

Lemma floodLoop_wf (targetVal replaceVal : Z) (fuel : nat) (g : Grid)
    (queue : list Point) (count : Z) (res : Grid * Z) :
  wf_grid g →
  floodLoop fuel targetVal replaceVal g queue count = Some res → wf_grid res.1.
Proof.
  revert g queue count. induction fuel as [|fuel IH]; intros g queue count Hwf.
  - destruct queue; [|done]. by intros [= <-].
  - destruct queue as [|p rest]; [by intros [= <-]|].
    cbn [floodLoop]. apply IH. by apply foldl_visit_wf.
Qed.

(** X13. [floodFill] returns; it relabels the cells connected to the start
    through cells of the target value and no other cell, and the count it
    returns is the number of cells it relabelled: the number of target cells
    before minus the number after. *)
Theorem floodFill_relabels_and_counts (g : Grid) (sx sy targetVal replaceVal : Z) :
  wf_grid g → targetVal ≠ replaceVal →
  ∃ res, floodFill g sx sy targetVal replaceVal = Some res ∧
    wf_grid res.1 ∧
    (∀ x y, connected g targetVal (mkPoint sx sy) (mkPoint x y) →
            cellAt res.1 x y = Some replaceVal) ∧
    (∀ x y, ¬ connected g targetVal (mkPoint sx sy) (mkPoint x y) →
            cellAt res.1 x y = cellAt g x y) ∧
    res.2 = Z.of_nat (countVal targetVal g) - Z.of_nat (countVal targetVal res.1).
Proof.
  intros Hwf Hne.
  destruct (floodFill_spec g sx sy targetVal replaceVal Hne)
    as (res & Hres & Hall & Honly).
  exists res. split; [exact Hres|]. split; [|split; [exact Hall|split]].
  - revert Hres. unfold floodFill.
    destruct (negb (inGrid sx sy)); [by intros [= <-]|].
    destruct (negb (bool_decide _)); [by intros [= <-]|].
    apply floodLoop_wf. by apply wf_grid_setCell.
  - intros x y Hnot. by destruct (Honly x y) as [Heq|[Hc _]].
  - revert Hres. unfold floodFill.
    destruct (negb (inGrid sx sy)); [intros [= <-]; cbn [fst snd]; lia|].
    destruct (negb (bool_decide _)) eqn:Hs; [intros [= <-]; cbn [fst snd]; lia|].
    apply negb_false_iff, bool_decide_eq_true in Hs.
    intros Hloop%floodLoop_count; [|done].
    pose proof (countVal_setCell g sx sy targetVal replaceVal Hs Hne) as Hm.
    cbn [length] in Hloop. lia.
Qed.

Lemma floodFill_relabels_and_counts_witness :
  wf_grid newGrid ∧ 0 ≠ 3 ∧
  ∃ res, floodFill newGrid 1 1 0 3 = Some res ∧
         res.2 = Z.of_nat (countVal 0 newGrid) - Z.of_nat (countVal 0 res.1).
Proof.
  assert (wf_grid newGrid) as Hwf by apply gridInv_newGrid.
  split; [exact Hwf|]. split; [discriminate|].
  assert (0 ≠ 3) as Hne by discriminate.
  pose proof (floodFill_relabels_and_counts newGrid 1 1 0 3 Hwf Hne) as Hfill.
  destruct Hfill as (res & Hres & _ & _ & _ & Hcount).
  exists res. split; [exact Hres|exact Hcount].
Defined.

(** X14. A resolution writes the grid only by turning unowned cells of the
    rectangle into owned ones: every other cell, owned, trail or outside,
    keeps its content, and the transient mark 3 of the fill never reaches
    the grid.  The player, the enemies and the phase are left as they
    were. *)
Theorem resolveFill_claims_only_unowned (Math_pow : Q → Q → Q) (t : Z) (cp : Q)
    (w w' : World) :
  wf_grid (grid w) →
  resolveFill Math_pow t cp w = Some w' →
  (∀ x y, cellAt (grid w') x y = cellAt (grid w) x y ∨
          (inGrid x y = true ∧ cellAt (grid w) x y = Some 0 ∧
           cellAt (grid w') x y = Some 1)) ∧
  player w' = player w ∧ enemies w' = enemies w ∧ gameState w' = gameState w.
Proof.
  intros Hwf Hres. split.
  - revert Hres. unfold resolveFill.
    destruct (find _ _) as [b|]; [|intros [= <-]; by left].
    destruct (_ && _); [|done].
    destruct (floodFill _ _ _ _ _) as [filled|] eqn:Hff; [|done].
    cbn [mbind option_bind].
    destruct (captureRest filled.1 (grid w)) as [[g n] pts] eqn:Hcap.
    destruct (collectPowerUps _ _ _) as [[kept w1]|] eqn:Hcol; [|done].
    cbn [mbind option_bind]. apply collectPowerUps_grid in Hcol.
    cbn [grid set_grid] in Hcol.
    assert (g = (captureRest filled.1 (grid w)).1.1) as Hg by (by rewrite Hcap).
    intros Hw' x y.
    assert (grid w' = g) as ->.
    { destruct (0 <? n); injection Hw' as <-; exact Hcol. }
    rewrite Hg, captureRest_cellAt.
    destruct (inGrid x y) eqn:Hin; [|by left]. cbn [andb].
    case_bool_decide as Htemp; [|by left]. cbn [andb].
    case_bool_decide as Hsome; [|by left].
    right. split; [done|]. split; [|done].
    destruct (floodFill_spec (grid w) (fillSeed (grid w) (Qfloor (e_x b))
                (Qfloor (e_y b))).1 (fillSeed (grid w) (Qfloor (e_x b))
                (Qfloor (e_y b))).2 0 3) as (res & Hres & _ & Honly); [done|].
    rewrite Hff in Hres. injection Hres as <-.
    destruct (Honly x y) as [Heq|[_ H3]]; congruence.
  - split; [|split].
    + apply (resolveFill_respects Math_pow (λ w w', player w' = player w) t)
        in Hres; try done.
      * intros w1 w2 w3 H1 H2. by rewrite H2.
      * by intros [] w0.
    + apply (resolveFill_respects Math_pow (λ w w', enemies w' = enemies w) t)
        in Hres; try done.
      * intros w1 w2 w3 H1 H2. by rewrite H2.
      * by intros [] w0.
    + by apply resolveFill_gameState in Hres.
Qed.

Lemma resolveFill_claims_only_unowned_witness :
  wf_grid (grid enclosedLevel) ∧
  ∃ w', resolveFill sample_pow 2000 0.1 enclosedLevel = Some w' ∧
        player w' = player enclosedLevel.
Proof.
  assert (wf_grid (grid enclosedLevel)) as Hwf.
  { apply (bool_decide_eq_true_1 _). vm_compute. reflexivity. }
  split; [exact Hwf|].
  destruct (resolveFill sample_pow 2000 0.1 enclosedLevel) as [w'|] eqn:Hres.
  - exists w'. split; [reflexivity|].
    exact (proj1 (proj2 (resolveFill_claims_only_unowned sample_pow 2000 0.1
                           enclosedLevel w' Hwf Hres))).
  - exfalso. vm_compute in Hres. discriminate.
Defined.

(** * The table of high scores *)

Lemma saveScore_sorted_all (highScores : list Z) (finalScore : Z) :
  StronglySorted byScore (merge_sort byScore (highScores ++ [finalScore])).
Proof. apply (StronglySorted_merge_sort byScore). Qed.

(** X15. The table that [saveScore] stores holds the five best of the old
    scores and the new one, best first: it is sorted in descending order, it
    has five entries or all the scores when there are fewer, and every score
    it leaves out is at most every score it keeps. *)
Theorem saveScore_keeps_five_best (highScores : list Z) (finalScore : Z) :
  let saved := saveScore highScores finalScore in
  length saved = (5 `min` (length highScores + 1))%nat ∧
  StronglySorted byScore saved ∧
  ∃ dropped, saved ++ dropped ≡ₚ highScores ++ [finalScore] ∧
             ∀ a b, a ∈ saved → b ∈ dropped → b ≤ a.
Proof.
  intros saved. unfold saved, saveScore.
  set (sorted := merge_sort byScore (highScores ++ [finalScore])).
  assert (StronglySorted byScore sorted) as Hsorted
    by apply saveScore_sorted_all.
  assert (sorted ≡ₚ highScores ++ [finalScore]) as Hperm
    by apply merge_sort_Permutation.
  rewrite <- (take_drop 5 sorted) in Hsorted.
  apply StronglySorted_app in Hsorted as (Hle & Htake & _).
  split; [|split; [exact Htake|]].
  - rewrite length_take, Hperm, length_app. cbn [length]. lia.
  - exists (drop 5 sorted). split.
    + by rewrite take_drop.
    + intros a b Ha Hb. exact (Hle a b Ha Hb).
Qed.

(** X16. On a table that is already sorted, a new score that beats no
    entry goes last, so that a full table of five is stored unchanged, and a
    new score that beats every entry goes first and pushes the others
    down. *)
Theorem saveScore_on_sorted_table (highScores : list Z) (finalScore : Z) :
  StronglySorted byScore highScores →
  ((∀ h, h ∈ highScores → finalScore ≤ h) →
   saveScore highScores finalScore = take 5 (highScores ++ [finalScore]) ∧
   (length highScores = 5%nat → saveScore highScores finalScore = highScores)) ∧
  ((∀ h, h ∈ highScores → h ≤ finalScore) →
   saveScore highScores finalScore = finalScore :: take 4 highScores).
Proof.
  intros Hsorted. split.
  - intros Hlow.
    assert (merge_sort byScore (highScores ++ [finalScore])
            = highScores ++ [finalScore]) as Hsame.
    { apply (StronglySorted_unique byScore).
      - apply saveScore_sorted_all.
      - apply StronglySorted_app_2; [|done|repeat constructor].
        intros a b Ha ->%list_elem_of_singleton. by apply Hlow.
      - apply merge_sort_Permutation. }
    unfold saveScore. rewrite Hsame. split; [done|].
    intros Hlen. rewrite take_app_le by lia. apply take_ge. lia.
  - intros Hhigh.
    assert (merge_sort byScore (highScores ++ [finalScore])
            = finalScore :: highScores) as Hsame.
    { apply (StronglySorted_unique byScore).
      - apply saveScore_sorted_all.
      - apply StronglySorted_cons. split; [|done].
        apply Forall_forall. intros h Hh. by apply Hhigh.
      - rewrite merge_sort_Permutation. by rewrite Permutation_app_comm. }
    unfold saveScore. by rewrite Hsame.
Qed.

Lemma saveScore_on_sorted_table_witness :
  StronglySorted byScore [900; 700; 500; 300; 100] ∧
  saveScore [900; 700; 500; 300; 100] 50 = [900; 700; 500; 300; 100] ∧
  saveScore [900; 700; 500; 300; 100] 1000 = [1000; 900; 700; 500; 300].
Proof.
  assert (StronglySorted byScore [900; 700; 500; 300; 100]) as Hsorted.
  { repeat (apply StronglySorted_cons; split;
              [repeat constructor; unfold byScore; lia|]).
    constructor. }
  split; [exact Hsorted|].
  destruct (saveScore_on_sorted_table [900; 700; 500; 300; 100] 50 Hsorted)
    as [Hlow _].
  destruct (saveScore_on_sorted_table [900; 700; 500; 300; 100] 1000 Hsorted)
    as [_ Hhigh].
  split.
  - apply Hlow; [|reflexivity].
    intros h Hh. repeat (apply elem_of_cons in Hh as [->|Hh]; [lia|]).
    by apply elem_of_nil in Hh.
  - apply Hhigh.
    intros h Hh. repeat (apply elem_of_cons in Hh as [->|Hh]; [lia|]).
    by apply elem_of_nil in Hh.
Defined.

(** * The seed of the assets *)

Lemma toInt32_shift (a : Z) : ∃ q, toInt32 a = a + q * 2 ^ 32.
Proof.
  exists (- ((a + 2 ^ 31) / 2 ^ 32)). unfold toInt32.
  change (2 ^ 31) with 2147483648. change (2 ^ 32) with 4294967296.
  pose proof (Z.div_mod (a + 2147483648) 4294967296). lia.
Qed.

Lemma toInt32_congr (a b q : Z) : a = b + q * 2 ^ 32 → toInt32 a = toInt32 b.
Proof.
  intros ->. unfold toInt32.
  replace (b + q * 2 ^ 32 + 2 ^ 31) with (b + 2 ^ 31 + q * 2 ^ 32) by lia.
  by rewrite Z_mod_plus_full.
Qed.

Lemma toInt32_range (a : Z) : - 2 ^ 31 ≤ toInt32 a < 2 ^ 31.
Proof.
  unfold toInt32.
  change (2 ^ 31) with 2147483648. change (2 ^ 32) with 4294967296.
  pose proof (Z.mod_pos_bound (a + 2147483648) 4294967296). lia.
Qed.

Lemma hashStep_poly (k c : Z) : hashStep (toInt32 k) c = toInt32 (31 * k + c).
Proof.
  unfold hashStep. rewrite Z.shiftl_mul_pow2 by lia.
  destruct (toInt32_shift k) as [q1 H1].
  destruct (toInt32_shift (toInt32 k)) as [q2 H2].
  destruct (toInt32_shift (toInt32 (toInt32 k) * 2 ^ 5)) as [q3 H3].
  apply (toInt32_congr _ _ (32 * q2 + 31 * q1 + q3)).
  rewrite H3, H2, H1.
  change (2 ^ 5) with 32. change (2 ^ 32) with 4294967296. lia.
Qed.

Lemma foldl_hashStep_poly (str : list Z) (k : Z) :
  foldl hashStep (toInt32 k) str = toInt32 (foldl (λ h c, 31 * h + c) k str).
Proof.
  revert k. induction str as [|c str IH]; intros k; [done|].
  cbn [foldl]. by rewrite hashStep_poly, IH.
Qed.

(** X17. [hashCode] is the 32-bit hash of the string's code units with
    multiplier 31, made non-negative: the absolute value of the signed
    32-bit residue of [c0 * 31^(n-1) + ... + c(n-1)].  It lies between 0 and
    2^31, the upper bound itself being the absolute value of the residue
    [-2^31]. *)
Theorem hashCode_closed_form (str : list Z) :
  hashCode str = Z.abs (toInt32 (poly31 str)) ∧ 0 ≤ hashCode str ≤ 2 ^ 31.
Proof.
  assert (hashCode str = Z.abs (toInt32 (poly31 str))) as Heq.
  { unfold hashCode, poly31. f_equal.
    change 0 with (toInt32 0) at 1. apply foldl_hashStep_poly. }
  split; [exact Heq|]. rewrite Heq.
  pose proof (toInt32_range (poly31 str)). lia.
Qed.

(** * Closing a cut, and safe ground *)

Lemma resolveFill_player (Math_pow : Q → Q → Q) (t : Z) (cp : Q) (w w' : World) :
  resolveFill Math_pow t cp w = Some w' → player w' = player w.
Proof.
  apply (resolveFill_respects Math_pow (λ w w', player w' = player w) t);
    try done.
  - intros w1 w2 w3 H1 H2. by rewrite H2.
  - by intros [] w0.
Qed.

(** X18. Stepping onto an owned cell always succeeds, and closes the cut
    when one is open: the player is at the candidate position, every cell
    that was trail is owned, no trail cell is left on the grid, and no owned
    cell is lost. *)
Theorem movePlayer_closes_cut (Math_pow : Q → Q → Q) (i : Input) (w : World)
    (dx dy : Z) :
  levelInv w →
  inputDir i = (dx, dy) →
  (dx, dy) ≠ (0, 0) →
  let nextX := Qred (pl_x (player w) + inject_Z dx * PLAYER_SPEED) in
  let nextY := Qred (pl_y (player w) + inject_Z dy * PLAYER_SPEED) in
  (0 <= nextX)%Q → (nextX <= inject_Z (GRID_WIDTH - 1))%Q →
  (0 <= nextY)%Q → (nextY <= inject_Z (GRID_HEIGHT - 1))%Q →
  cellAt (grid w) (Math_round nextX) (Math_round nextY) = Some 1 →
  ∃ w', movePlayer Math_pow i w = Some w' ∧
    pl_x (player w') = nextX ∧ pl_y (player w') = nextY ∧
    (∀ x y, cellAt (grid w) x y = Some 2 → cellAt (grid w') x y = Some 1) ∧
    noTrail (grid w') ∧
    ownedKept (grid w) (grid w').
Proof.
  intros Hinv Hdir Hne nextX nextY HX0 HX1 HY0 HY1 Hsafe.
  destruct (levelInv_movePlayer Math_pow i w Hinv) as (w' & Hmove & Hinv').
  exists w'. split; [exact Hmove|].
  pose proof (movePlayer_ownedKept Math_pow i w w' Hmove) as Hkept.
  assert (negb (dx =? 0) || negb (dy =? 0) = true) as Hmoving.
  { destruct (dx =? 0) eqn:Hx; [|done]. destruct (dy =? 0) eqn:Hy; [|done].
    apply Z.eqb_eq in Hx, Hy. congruence. }
  assert (pl_x (player w') = nextX ∧ pl_y (player w') = nextY ∧
          ∀ x y, cellAt (grid w) x y = Some 2 → cellAt (grid w') x y = Some 1)
    as (Hpx & Hpy & Htrail).
  { revert Hmove. unfold movePlayer. rewrite Hdir, Hmoving.
    cbn [player set_player pl_x pl_y pl_dir grid isCuttingMode].
    fold nextX nextY.
    rewrite (proj2 (Qle_bool_iff 0 nextX) HX0), (proj2 (Qle_bool_iff _ _) HX1).
    rewrite (proj2 (Qle_bool_iff 0 nextY) HY0), (proj2 (Qle_bool_iff _ _) HY1).
    cbn [andb]. rewrite (bool_decide_eq_true_2 _ Hsafe).
    assert (∀ x y, cellAt (grid w) x y = Some 2 →
                   cellAt (claimTrail (grid w)).1 x y = Some 1) as Hclaim.
    { intros x y Hc. rewrite claimTrail_cellAt.
      rewrite (wf_grid_cellAt_inv (grid w) x y); [|apply Hinv|by rewrite Hc].
      by rewrite (bool_decide_eq_true_2 _ Hc). }
    case_bool_decide as Hdraw.
    - destruct (claimTrail (grid w)) as [g tr] eqn:Hct.
      cbn [fst] in Hclaim. destruct tr.
      + intros Hr.
        pose proof (resolveFill_player _ _ _ _ _ Hr) as Hpl.
        apply resolveFill_ownedKept in Hr. rewrite Hpl.
        split; [done|]. split; [done|].
        intros x y Hc. apply Hr. cbn [grid set_grid]. by apply Hclaim.
      + intros [= <-]. split; [done|]. split; [done|].
        intros x y Hc. cbn [grid set_grid]. by apply Hclaim.
    - intros [= <-]. split; [done|]. split; [done|].
      intros x y Hc. destruct Hdraw. apply Hinv.
      exists x, y. split; [|done].
      apply (wf_grid_cellAt_inv (grid w)); [apply Hinv|by rewrite Hc]. }
  split; [exact Hpx|]. split; [exact Hpy|]. split; [exact Htrail|].
  split; [|exact Hkept].
  intros x y Hin Hc.
  assert (cellAt (grid w') (Math_round (pl_x (player w')))
            (Math_round (pl_y (player w'))) = Some 2) as Hunder.
  { apply Hinv'. by exists x, y. }
  rewrite Hpx, Hpy in Hunder. apply Hkept in Hsafe. congruence.
Qed.

Lemma levelInv_ambushLevel : levelInv ambushLevel.
Proof.
  split.
  - apply (gridInv_setCell newGrid 32 1 2); [auto| |apply gridInv_newGrid].
    left. rewrite newGrid_cellAt. by_evaluation.
  - by_evaluation.
  - intros _. by_evaluation.
  - repeat (apply Forall_cons; split; [by_evaluation|]). apply Forall_nil_2.
  - unfold hasBoss. left.
  - apply Forall_nil_2.
  - cbn. lia.
  - apply Forall_nil_2.
Qed.

(** In the ambush level the player stands on the trail cell (32, 1), below
    the spawn cell; the step up closes the cut. *)
Lemma movePlayer_closes_cut_witness :
  levelInv ambushLevel ∧
  cellAt (grid ambushLevel) 32 1 = Some 2 ∧
  ∃ w', movePlayer sample_pow (mkInput 1016 (list_to_set ["ArrowUp"]) noSpawn)
          ambushLevel = Some w' ∧
        cellAt (grid w') 32 1 = Some 1 ∧ noTrail (grid w').
Proof.
  split; [apply levelInv_ambushLevel|].
  assert (cellAt (grid ambushLevel) 32 1 = Some 2) as Htrail by by_evaluation.
  split; [exact Htrail|].
  destruct (movePlayer_closes_cut sample_pow
              (mkInput 1016 (list_to_set ["ArrowUp"]) noSpawn) ambushLevel 0 (-1))
    as (w' & Hmove & _ & _ & Hclaimed & Hnt & _).
  - apply levelInv_ambushLevel.
  - by_evaluation.
  - discriminate.
  - by_evaluation.
  - by_evaluation.
  - by_evaluation.
  - by_evaluation.
  - by_evaluation.
  - exists w'. split; [exact Hmove|]. split; [by apply Hclaimed|exact Hnt].
Defined.

Lemma enemyStep_on_owned (t : Z) (e e' : Enemy) (w w' : World) :
  noTrail (grid w) →
  cellAt (grid w) (Math_round (pl_x (player w))) (Math_round (pl_y (player w)))
  = Some 1 →
  enemyStep t e w = Some (e', w') → w' = w.
Proof.
  intros Hnt Hsafe. unfold enemyStep.
  destruct (_ && bool_decide (is_Some _)); [|done].
  rewrite (bool_decide_eq_true_2 _ Hsafe).
  set (e1 := moveEnemy (grid w) e).
  assert (inGrid (Qfloor (e_x e1)) (Qfloor (e_y e1))
          && bool_decide (cellAt (grid w) (Qfloor (e_x e1)) (Qfloor (e_y e1)) = Some 2)
          = false) as ->.
  { destruct (inGrid _ _) eqn:Hin; [|done]. cbn [andb].
    apply bool_decide_eq_false_2. by apply Hnt. }
  cbn [andb negb]. destruct (_ && negb _); by intros [= _ <-].
Qed.

Lemma stepEnemies_on_owned (t : Z) (es es' : list Enemy) (w w' : World) :
  noTrail (grid w) →
  cellAt (grid w) (Math_round (pl_x (player w))) (Math_round (pl_y (player w)))
  = Some 1 →
  stepEnemies t es w = Some (es', w') → w' = w.
Proof.
  intros Hnt Hsafe. revert es'. induction es as [|e es IH]; intros es'.
  - by intros [= _ <-].
  - cbn [stepEnemies mbind option_bind].
    destruct (enemyStep t e w) as [[e1 w1]|] eqn:Hstep; [|done].
    cbn [mbind option_bind].
    apply enemyStep_on_owned in Hstep as ->; [|done..].
    destruct (stepEnemies t es w) as [[es2 w2]|] eqn:Hrec; [|done].
    cbn [mbind option_bind]. intros [= _ <-]. by eapply IH.
Qed.

(** With no cut open, cutting-mode off and the player on an owned cell, the
    player's step leaves the grid alone and the player on an owned cell. *)
Lemma movePlayer_stays_on_owned (Math_pow : Q → Q → Q) (i : Input)
    (w w' : World) :
  isCuttingMode w = false →
  cellAt (grid w) (Math_round (pl_x (player w))) (Math_round (pl_y (player w)))
  = Some 1 →
  movePlayer Math_pow i w = Some w' →
  grid w' = grid w ∧
  cellAt (grid w') (Math_round (pl_x (player w'))) (Math_round (pl_y (player w')))
  = Some 1.
Proof.
  intros Hcut Hsafe. unfold movePlayer. destruct (inputDir i) as [dx dy].
  set (moving := negb (dx =? 0) || negb (dy =? 0)).
  destruct moving; [|by intros [= <-]].
  cbn [grid set_player player pl_x pl_y isCuttingMode].
  destruct (_ && _ && _ && _); [|by intros [= <-]].
  rewrite Hcut, Hsafe. rewrite (bool_decide_eq_false_2 (Some 1 = Some 2)) by done.
  cbn [orb]. case_bool_decide as Hnext; by intros [= <-].
Qed.

(** X19. Owned ground is safe.  In a frame that starts with no cut open,
    cutting-mode off and the player on an owned cell, no enemy can kill the
    player: no life is taken and the death sound is not played; the grid is
    not changed and the player is still on an owned cell. *)
Theorem owned_ground_is_safe (Math_pow : Q → Q → Q) (i : Input) (w w' : World) :
  noTrail (grid w) →
  isCuttingMode w = false →
  cellAt (grid w) (Math_round (pl_x (player w))) (Math_round (pl_y (player w)))
  = Some 1 →
  update Math_pow i w = Some w' →
  quiet w w' ∧ grid w' = grid w ∧
  cellAt (grid w') (Math_round (pl_x (player w'))) (Math_round (pl_y (player w')))
  = Some 1.
Proof.
  intros Hnt Hcut Hsafe. unfold update.
  destruct (Qle_bool _ _); [intros [= <-]; split; [by apply quiet_same|done]|].
  set (w0 := spawnPowerUp i _).
  assert (quiet w w0) as Hq0.
  { eapply quiet_trans; [|apply quiet_spawnPowerUp]. by apply quiet_same. }
  assert (grid w0 = grid w) as Hg0 by (unfold w0; by rewrite spawnPowerUp_grid).
  assert (player w0 = player w ∧ isCuttingMode w0 = false) as [Hp0 Hc0].
  { unfold w0, spawnPowerUp.
    destruct (Qltb _ _); [done|]. destruct (_ <? _); [done|].
    by case_bool_decide. }
  destruct (movePlayer Math_pow i w0) as [w1|] eqn:Hmove; [|done].
  cbn [mbind option_bind].
  assert (quiet w w1) as Hq1.
  { eapply quiet_trans; [exact Hq0|]. by eapply quiet_movePlayer. }
  apply movePlayer_stays_on_owned in Hmove as [Hg1 Hs1];
    [|done|by rewrite Hg0, Hp0].
  rewrite Hg0 in Hg1.
  assert (∀ es, quiet w (calcPercent (set_enemies es w1)) ∧
    grid (calcPercent (set_enemies es w1)) = grid w ∧
    cellAt (grid (calcPercent (set_enemies es w1)))
      (Math_round (pl_x (player (calcPercent (set_enemies es w1)))))
      (Math_round (pl_y (player (calcPercent (set_enemies es w1))))) = Some 1)
    as Hlast.
  { intros es. split; [|split].
    - eapply quiet_trans; [exact Hq1|].
      eapply quiet_trans; [|apply quiet_calcPercent]. by apply quiet_same.
    - by rewrite calcPercent_grid.
    - rewrite calcPercent_grid. unfold calcPercent.
      by destruct (Qle_bool _ _). }
  destruct (negb _); cbn [mbind option_bind].
  2: { intros [= <-]. destruct (Hlast (enemies w1)) as (Hq & Hg & Hs).
       split; [|split].
       - eapply quiet_trans; [exact Hq1|apply quiet_calcPercent].
       - by rewrite calcPercent_grid.
       - rewrite calcPercent_grid. unfold calcPercent.
         by destruct (Qle_bool _ _). }
  unfold updateEnemies.
  destruct (stepEnemies (now i) (enemies w1) w1) as [[es w2]|] eqn:Hen; [|done].
  cbn [mbind option_bind]. intros [= <-].
  apply stepEnemies_on_owned in Hen as ->; [apply Hlast| |done].
  by rewrite Hg1.
Qed.

Lemma owned_ground_is_safe_witness :
  noTrail (grid sampleLevel) ∧
  ∃ w', update sample_pow (mkInput 1016 (list_to_set ["ArrowLeft"]) noSpawn)
          sampleLevel = Some w' ∧
        lives sampleLevel ≤ lives w'.
Proof.
  assert (noTrail (grid sampleLevel)) as Hnt by apply noTrail_newGrid.
  split; [exact Hnt|].
  destruct (update sample_pow (mkInput 1016 (list_to_set ["ArrowLeft"]) noSpawn)
              sampleLevel) as [w'|] eqn:Hup.
  - exists w'. split; [reflexivity|].
    refine (proj2 (proj1 (owned_ground_is_safe sample_pow
              (mkInput 1016 (list_to_set ["ArrowLeft"]) noSpawn)
              sampleLevel w' Hnt eq_refl _ Hup))).
    by_evaluation.
  - exfalso. vm_compute in Hup. discriminate.
Defined.
